(** * OpenSlide: the tile cache and the VSF vendor backend

    A shallow embedding of [openslide-cache.c] and of the parsing,
    tile-location and tile-reading code of [openslide-vendor-vsf.c],
    with the properties the specification states about them.

    Conventions of the embedding.
    - C integers are [Z]; every operation that can wrap in C has its
      wrap-around written out ([wrap64], [wrap32], [g_atomic_int_inc]).
    - Heap objects ([struct _openslide_cache_entry],
      [struct _openslide_cache_value]) live in finite maps from addresses
      to records, so that sharing of an entry between the cache and its
      callers is sharing of an address.
    - Code runs in a small state-and-failure monad.  Besides returning, a
      C function of these files can fail a [g_assert] ([Abort]), run into
      undefined behaviour ([Undefined]: a dangling pointer, a division by
      zero), or report a [GError] ([Error]).
    - The mutexes are not modelled: every function body is the critical
      section it executes under the cache mutex. *)

From stdpp Require Import base numbers list gmap strings pretty.
From coqutil Require Import Word.LittleEndianList Byte.

Local Open Scope Z_scope.

(** ** Outcomes of a C function *)

Inductive result (A : Type) : Type :=
| Ok (a : A)           (* the function returned *)
| Error (msg : string) (* it set a GError and returned false / NULL *)
| Abort                (* a g_assert failed: the process is aborted *)
| Undefined            (* undefined behaviour of C *)
| Timeout.             (* the loop bound of the model was exhausted *)
Arguments Ok {A} a.
Arguments Error {A} msg.
Arguments Abort {A}.
Arguments Undefined {A}.
Arguments Timeout {A}.

(** ** Fixed-width integers *)

Definition wrap64 (z : Z) : Z := z mod 2 ^ 64.
Definition wrap32 (z : Z) : Z := z mod 2 ^ 32.
Definition wrap8 (z : Z) : Z := z mod 2 ^ 8.

(* conversion to a signed type of [w] bits *)
Definition to_signed (w : Z) (z : Z) : Z :=
  let u := z mod 2 ^ w in
  if decide (u < 2 ^ (w - 1)) then u else u - 2 ^ w.

Definition gint_max : Z := 2 ^ 31 - 1.

(* g_atomic_int_inc and g_atomic_int_dec_and_test on a gint *)
Definition g_atomic_int_inc (v : Z) : Z := to_signed 32 (v + 1).
Definition g_atomic_int_dec (v : Z) : Z := to_signed 32 (v - 1).

(** * The tile cache: openslide-cache.c *)

Module Cache.

(* addresses of heap objects *)
Abbreviation ptr := positive (only parsing).

Definition DEFAULT_CACHE_SIZE : Z := 1024 * 1024 * 32.

(* struct _openslide_cache_key: (plane, x, y); [plane] is a pointer used
   as a cookie, [x] and [y] are int64_t *)
Abbreviation cache_key := (Z * Z * Z)%type (only parsing).
Definition plane (k : cache_key) : Z := k.1.1.
Definition x (k : cache_key) : Z := k.1.2.
Definition y (k : cache_key) : Z := k.2.

(* struct _openslide_cache_entry *)
Record _openslide_cache_entry := {
  refcount : Z;  (* gint, atomic ops only *)
  data : Z;      (* void *: address of the pixel buffer *)
  size : Z       (* uint64_t *)
}.

(* struct _openslide_cache_value.  Its [link] field is the list node that
   holds the value: the queue below is a list of value addresses, and the
   node of a value is the occurrence of its address.  Its [cache] field
   points back to the one cache of the model. *)
Record _openslide_cache_value := {
  key : cache_key;
  entry : ptr
}.

(* struct _openslide_cache *)
Record _openslide_cache := {
  queue : list ptr;                (* GQueue *list, head first *)
  hashtable : gmap cache_key ptr;  (* GHashTable *hashtable *)
  cache_refcount : Z;              (* int refcount *)
  capacity : Z;                    (* uint64_t *)
  total_size : Z;                  (* uint64_t *)
  warned_overlarge_entry : Z       (* gint *)
}.

(* The memory the cache code works on: the cache a binding points to
   (cb->cache), the live values and entries, the allocator's next fresh
   address and the number of performance warnings printed so far. *)
Record mem := {
  cache : _openslide_cache;
  values : gmap ptr _openslide_cache_value;
  entries : gmap ptr _openslide_cache_entry;
  next : ptr;
  warnings : nat
}.

Definition M (A : Type) : Type := mem -> result (A * mem).

Definition ret {A} (a : A) : M A := fun m => Ok (a, m).

Definition bind {A B} (c : M A) (k : A -> M B) : M B :=
  fun m =>
    match c m with
    | Ok (a, m') => k a m'
    | Error msg => Error msg
    | Abort => Abort
    | Undefined => Undefined
    | Timeout => Timeout
    end.

Declare Scope cache_scope.
Delimit Scope cache_scope with cache.
Notation "v <- c1 ;; c2" := (bind c1 (fun v => c2))
  (at level 100, c1 at next level, right associativity) : cache_scope.
Notation "c1 ;; c2" := (bind c1 (fun _ => c2))
  (at level 100, right associativity) : cache_scope.
Local Open Scope cache_scope.

Definition get_cache : M _openslide_cache := fun m => Ok (cache m, m).

Definition set_cache (c : _openslide_cache) : M unit := fun m =>
  Ok (tt, {| cache := c; values := values m; entries := entries m;
             next := next m; warnings := warnings m |}).

Definition set_queue (q : list ptr) (c : _openslide_cache) : _openslide_cache :=
  {| queue := q; hashtable := hashtable c; cache_refcount := cache_refcount c;
     capacity := capacity c; total_size := total_size c;
     warned_overlarge_entry := warned_overlarge_entry c |}.

Definition set_hashtable (h : gmap cache_key ptr) (c : _openslide_cache) : _openslide_cache :=
  {| queue := queue c; hashtable := h; cache_refcount := cache_refcount c;
     capacity := capacity c; total_size := total_size c;
     warned_overlarge_entry := warned_overlarge_entry c |}.

Definition set_total_size (t : Z) (c : _openslide_cache) : _openslide_cache :=
  {| queue := queue c; hashtable := hashtable c; cache_refcount := cache_refcount c;
     capacity := capacity c; total_size := t;
     warned_overlarge_entry := warned_overlarge_entry c |}.

Definition set_warned_overlarge_entry (w : Z) (c : _openslide_cache) : _openslide_cache :=
  {| queue := queue c; hashtable := hashtable c; cache_refcount := cache_refcount c;
     capacity := capacity c; total_size := total_size c;
     warned_overlarge_entry := w |}.

Definition modify_cache (f : _openslide_cache -> _openslide_cache) : M unit :=
  c <- get_cache ;; set_cache (f c).

(* dereferencing a value or entry pointer; a pointer that is not live is
   undefined behaviour *)
Definition load_value (p : ptr) : M _openslide_cache_value := fun m =>
  match values m !! p with
  | Some v => Ok (v, m)
  | None => Undefined
  end.

Definition load_entry (p : ptr) : M _openslide_cache_entry := fun m =>
  match entries m !! p with
  | Some e => Ok (e, m)
  | None => Undefined
  end.

Definition store_entry (p : ptr) (e : _openslide_cache_entry) : M unit := fun m =>
  Ok (tt, {| cache := cache m; values := values m;
             entries := <[p := e]> (entries m);
             next := next m; warnings := warnings m |}).

(* g_slice_new(struct _openslide_cache_entry) followed by the
   initialisation of its fields *)
Definition g_slice_new_entry (e : _openslide_cache_entry) : M ptr := fun m =>
  Ok (next m, {| cache := cache m; values := values m;
                 entries := <[next m := e]> (entries m);
                 next := Pos.succ (next m); warnings := warnings m |}).

(* g_slice_new(struct _openslide_cache_value), likewise *)
Definition g_slice_new_value (v : _openslide_cache_value) : M ptr := fun m =>
  Ok (next m, {| cache := cache m; values := <[next m := v]> (values m);
                 entries := entries m;
                 next := Pos.succ (next m); warnings := warnings m |}).

(* g_slice_free of an entry (with its data) and of a value *)
Definition g_slice_free_entry (p : ptr) : M unit := fun m =>
  Ok (tt, {| cache := cache m; values := values m;
             entries := delete p (entries m);
             next := next m; warnings := warnings m |}).

Definition g_slice_free_value (p : ptr) : M unit := fun m =>
  Ok (tt, {| cache := cache m; values := delete p (values m);
             entries := entries m;
             next := next m; warnings := warnings m |}).

Definition g_assert (b : bool) : M unit := fun m =>
  if b then Ok (tt, m) else Abort.

(** ** GQueue operations used by the cache *)

Definition g_queue_peek_tail (q : list ptr) : option ptr := last q.

Definition g_queue_push_head (q : list ptr) (v : ptr) : list ptr := v :: q.

(* g_queue_delete_link / g_queue_unlink: take the node [link] out *)
Fixpoint g_queue_delete_link (q : list ptr) (link : ptr) : list ptr :=
  match q with
  | [] => []
  | v :: q' => if decide (v = link) then q' else v :: g_queue_delete_link q' link
  end.

(** ** Hash function helpers *)

(* (guint) (((guintptr) plane) ^ ((34369 * (uint64_t) y) + ((uint64_t) x))) *)
Definition hash_func (k : cache_key) : Z :=
  wrap32 (Z.lxor (wrap64 (plane k))
                 (wrap64 (34369 * wrap64 (y k) + wrap64 (x k)))).

Definition key_equal_func (a b : cache_key) : bool :=
  (plane a =? plane b) && (x a =? x b) && (y a =? y b).

(** ** _openslide_cache_entry_unref *)

Definition _openslide_cache_entry_unref (p : ptr) : M unit :=
  e <- load_entry p ;;
  let r := g_atomic_int_dec (refcount e) in
  if decide (r = 0)
  then g_slice_free_entry p   (* frees the data and the entry *)
  else store_entry p {| refcount := r; data := data e; size := size e |}.

(** ** hash_destroy_value: the value destructor of the hash table *)

Definition hash_destroy_value (value : ptr) : M unit :=
  v <- load_value value ;;
  (* remove the item from the list *)
  modify_cache (fun c => set_queue (g_queue_delete_link (queue c) value) c) ;;
  (* decrement the total size *)
  e <- load_entry (entry v) ;;
  c <- get_cache ;;
  g_assert (bool_decide (size e <= total_size c)) ;;
  set_cache (set_total_size (wrap64 (total_size c - size e)) c) ;;
  (* unref the entry *)
  _openslide_cache_entry_unref (entry v) ;;
  (* free the value *)
  g_slice_free_value value.

(* g_hash_table_remove: true iff the key was present; the key and value
   destructors run on the removed pair (hash_destroy_key frees the key,
   which the map holds inline) *)
Definition g_hash_table_remove (k : cache_key) : M bool :=
  c <- get_cache ;;
  match hashtable c !! k with
  | None => ret false
  | Some value =>
      set_cache (set_hashtable (delete k (hashtable c)) c) ;;
      hash_destroy_value value ;;
      ret true
  end.

(* g_hash_table_replace: a previous pair under an equal key is destroyed *)
Definition g_hash_table_replace (k : cache_key) (value : ptr) : M unit :=
  c <- get_cache ;;
  set_cache (set_hashtable (<[k := value]> (hashtable c)) c) ;;
  match hashtable c !! k with
  | None => ret tt
  | Some old => hash_destroy_value old
  end.

(** ** possibly_evict *)

Fixpoint possibly_evict_loop (fuel : nat) (size target : Z) : M unit :=
  match fuel with
  | O => fun _ => Timeout
  | S fuel' =>
      if decide (size > target) then
        c <- get_cache ;;
        (* get key of last element *)
        match g_queue_peek_tail (queue c) with
        | None => ret tt (* cache is empty *)
        | Some value =>
            v <- load_value value ;;
            e <- load_entry (entry v) ;;
            let size := wrap64 (size - Cache.size e) in
            (* remove from hashtable, this will trigger removal from
               everything *)
            result <- g_hash_table_remove (key v) ;;
            g_assert result ;;
            possibly_evict_loop fuel' size target
        end
      else ret tt
  end.

Definition possibly_evict (incoming_size : Z) : M unit :=
  c <- get_cache ;;
  let size := wrap64 (total_size c + incoming_size) in
  let target := capacity c in
  g_assert (bool_decide (size > total_size c)) ;;
  possibly_evict_loop (S (length (queue c))) size target.

(** ** _openslide_cache_create *)

Definition _openslide_cache_create (capacity_in_bytes : Z) : _openslide_cache :=
  {| queue := []; hashtable := ∅; cache_refcount := 1;
     capacity := capacity_in_bytes; total_size := 0;
     warned_overlarge_entry := 0 |}.

(* the memory right after _openslide_cache_create: nothing allocated *)
Definition initial_mem (capacity_in_bytes : Z) : mem :=
  {| cache := _openslide_cache_create capacity_in_bytes;
     values := ∅; entries := ∅; next := 1%positive; warnings := 0%nat |}.

(** Modelled from the spec: [_openslide_performance_warn_once] is defined
    outside the two source files.  The specification describes it as a
    latch with an atomic one-time publication: the first call on a flag
    sets it and prints the warning, later calls do nothing. *)
Definition _openslide_performance_warn_once (warned_flag : Z) : Z * bool :=
  if decide (warned_flag = 0) then (1, true) else (warned_flag, false).

Definition warn_overlarge : M unit := fun m =>
  let c := cache m in
  let '(flag, printed) := _openslide_performance_warn_once (warned_overlarge_entry c) in
  Ok (tt, {| cache := set_warned_overlarge_entry flag c;
             values := values m; entries := entries m; next := next m;
             warnings := if printed then S (warnings m) else warnings m |}).

(** ** _openslide_cache_put *)

Definition _openslide_cache_put (plane x y : Z) (data : Z) (size_in_bytes : Z)
  : M ptr :=
  (* always create cache entry for caller's reference *)
  entry <- g_slice_new_entry
             {| refcount := 1; data := data; size := size_in_bytes |} ;;
  c <- get_cache ;;
  (* don't try to put anything in the cache that cannot possibly fit *)
  if decide (size_in_bytes > capacity c) then
    warn_overlarge ;;
    ret entry
  else
    possibly_evict size_in_bytes ;;
    (* create key, create value *)
    let key := (plane, x, y) in
    value <- g_slice_new_value {| key := key; entry := entry |} ;;
    (* insert at head of queue *)
    modify_cache (fun c => set_queue (g_queue_push_head (queue c) value) c) ;;
    (* insert into hash table *)
    g_hash_table_replace key value ;;
    (* increase size *)
    modify_cache (fun c => set_total_size (wrap64 (total_size c + size_in_bytes)) c) ;;
    (* another ref for the cache *)
    e <- load_entry entry ;;
    store_entry entry {| refcount := g_atomic_int_inc (refcount e);
                         data := Cache.data e; size := size e |} ;;
    ret entry.

(** ** _openslide_cache_get: returns (data, *_entry); NULL is (0, None) *)

Definition _openslide_cache_get (plane x y : Z) : M (Z * option ptr) :=
  c <- get_cache ;;
  let key := (plane, x, y) in
  (* lookup key, maybe return NULL *)
  match hashtable c !! key with
  | None => ret (0, None)
  | Some value =>
      v <- load_value value ;;
      (* if found, move to front of list *)
      let link := value in
      modify_cache (fun c => set_queue (g_queue_delete_link (queue c) link) c) ;;
      modify_cache (fun c => set_queue (g_queue_push_head (queue c) link) c) ;;
      (* acquire entry reference for the caller *)
      e <- load_entry (entry v) ;;
      store_entry (entry v) {| refcount := g_atomic_int_inc (refcount e);
                               data := Cache.data e; size := size e |} ;;
      ret (Cache.data e, Some (entry v))
  end.

End Cache.

(** * Properties of the cache *)

Module CacheProps.
Import Cache.
Local Open Scope cache_scope.

(** ** The hash table is a finite map on keys

    [key_equal_func] is equality of the three fields and [hash_func]
    respects it, so GHashTable with these two behaves as a finite map
    from (plane, x, y) to values. *)

Lemma key_equal_func_spec (a b : cache_key) :
  key_equal_func a b = true <-> a = b.
Proof.
  destruct a as [[pa xa] ya], b as [[pb xb] yb].
  unfold key_equal_func, plane, x, y. simpl.
  rewrite !andb_true_iff, !Z.eqb_eq. split.
  - intros [[-> ->] ->]. reflexivity.
  - intros [= -> -> ->]. done.
Qed.

Lemma hash_func_respects_equality (a b : cache_key) :
  key_equal_func a b = true -> hash_func a = hash_func b.
Proof. intros H. apply key_equal_func_spec in H. by subst. Qed.

Definition Zsum (l : list Z) : Z := foldr Z.add 0 l.

(* value->entry->size, read through the two heaps *)
Definition entry_size_of (m : mem) (value : ptr) : Z :=
  match values m !! value with
  | Some v =>
      match entries m !! entry v with
      | Some e => size e
      | None => 0
      end
  | None => 0
  end.

(* the sum of entry->size over the values of the recency list *)
Definition resident_size (m : mem) : Z :=
  Zsum (entry_size_of m <$> queue (cache m)).

(* the same sum taken over the values of the hash table *)
Definition hashtable_size (m : mem) : Z :=
  Zsum (entry_size_of m <$> (map_to_list (hashtable (cache m))).*2).

(** ** Lists with one node taken out *)

Lemma delete_link_notin (q : list ptr) (v : ptr) :
  v ∉ q -> g_queue_delete_link q v = q.
Proof.
  induction q as [|a q IH]; simpl; [done|].
  intros Hn. apply not_elem_of_cons in Hn as [Hne Hn].
  destruct (decide (a = v)); [congruence|]. by rewrite IH.
Qed.

Lemma delete_link_perm (q : list ptr) (v : ptr) :
  v ∈ q -> q ≡ₚ v :: g_queue_delete_link q v.
Proof.
  induction q as [|a q IH]; simpl.
  - intros H. by apply elem_of_nil in H.
  - intros H. destruct (decide (a = v)) as [->|Hne]; [done|].
    apply elem_of_cons in H as [->|H]; [done|].
    etrans; [apply Permutation_skip, (IH H)|]. apply Permutation_swap.
Qed.

Lemma delete_link_app_last (q : list ptr) (v : ptr) :
  v ∉ q -> g_queue_delete_link (q ++ [v]) v = q.
Proof.
  induction q as [|a q IH]; simpl.
  - intros _. by rewrite decide_True.
  - intros Hn. apply not_elem_of_cons in Hn as [Hne Hn].
    destruct (decide (a = v)); [congruence|]. by rewrite IH.
Qed.

Lemma NoDup_delete_link (q : list ptr) (v : ptr) :
  NoDup q -> NoDup (g_queue_delete_link q v).
Proof.
  intros Hnd. destruct (decide (v ∈ q)) as [Hin|Hn].
  - rewrite (delete_link_perm q v Hin) in Hnd. by apply NoDup_cons in Hnd as [_ ?].
  - by rewrite delete_link_notin.
Qed.

Lemma elem_of_delete_link (q : list ptr) (v p : ptr) :
  NoDup q -> p ∈ g_queue_delete_link q v <-> p ∈ q ∧ p ≠ v.
Proof.
  intros Hnd. destruct (decide (v ∈ q)) as [Hin|Hn].
  - pose proof (delete_link_perm q v Hin) as HP.
    rewrite HP in Hnd. apply NoDup_cons in Hnd as [Hv _].
    rewrite (elem_of_Permutation_proper _ _ _ HP), elem_of_cons.
    split.
    + intros H. split; [by right|]. intros ->. done.
    + intros [[->|H] Hne]; done.
  - rewrite delete_link_notin by done. split; [|by intros [? _]].
    intros H. split; [done|]. intros ->. done.
Qed.

Lemma Zsum_cons (a : Z) (l : list Z) : Zsum (a :: l) = a + Zsum l.
Proof. reflexivity. Qed.

Lemma Zsum_perm (l1 l2 : list Z) : l1 ≡ₚ l2 -> Zsum l1 = Zsum l2.
Proof.
  induction 1; rewrite ?Zsum_cons; lia.
Qed.

Lemma Zsum_app (l1 l2 : list Z) : Zsum (l1 ++ l2) = Zsum l1 + Zsum l2.
Proof.
  induction l1 as [|a l1 IH]; [done|].
  rewrite <- app_comm_cons, !Zsum_cons, IH. lia.
Qed.

Lemma Zsum_delete_link (f : ptr -> Z) (q : list ptr) (v : ptr) :
  v ∈ q -> Zsum (f <$> q) = f v + Zsum (f <$> g_queue_delete_link q v).
Proof.
  intros Hin. rewrite <- Zsum_cons, <- fmap_cons.
  apply Zsum_perm, fmap_Permutation. by apply delete_link_perm.
Qed.

Lemma Zsum_nonneg (l : list Z) : Forall (fun z => 0 <= z) l -> 0 <= Zsum l.
Proof. induction 1; rewrite ?Zsum_cons; [done|lia]. Qed.

Lemma Zsum_ext_in (f g : ptr -> Z) (q : list ptr) :
  (forall p, p ∈ q -> f p = g p) -> Zsum (f <$> q) = Zsum (g <$> q).
Proof.
  induction q as [|a q IH]; [done|].
  intros H. rewrite !fmap_cons, !Zsum_cons.
  rewrite H by apply list_elem_of_here.
  rewrite IH; [done|]. intros p Hp. apply H. by apply list_elem_of_further.
Qed.

(** ** The effect of destroying one resident value *)

(* what _openslide_cache_entry_unref does to the entry heap *)
Definition unref_entries (p : ptr) (es : gmap ptr _openslide_cache_entry)
  : gmap ptr _openslide_cache_entry :=
  match es !! p with
  | Some e =>
      if decide (g_atomic_int_dec (refcount e) = 0) then delete p es
      else <[p := {| refcount := g_atomic_int_dec (refcount e);
                     data := data e; size := size e |}]> es
  | None => es
  end.

(* the memory after hash_destroy_value on [value] *)
Definition destroyed (value : ptr) (v : _openslide_cache_value)
    (e : _openslide_cache_entry) (m : mem) : mem :=
  {| cache :=
       set_total_size (wrap64 (total_size (cache m) - size e))
         (set_queue (g_queue_delete_link (queue (cache m)) value) (cache m));
     values := delete value (values m);
     entries := unref_entries (entry v) (entries m);
     next := next m; warnings := warnings m |}.

(* the memory after g_hash_table_remove on the key of [value] *)
Definition removed (value : ptr) (v : _openslide_cache_value)
    (e : _openslide_cache_entry) (m : mem) : mem :=
  {| cache :=
       set_total_size (wrap64 (total_size (cache m) - size e))
         (set_queue (g_queue_delete_link (queue (cache m)) value)
            (set_hashtable (delete (key v) (hashtable (cache m))) (cache m)));
     values := delete value (values m);
     entries := unref_entries (entry v) (entries m);
     next := next m; warnings := warnings m |}.

Ltac unfold_monad :=
  unfold bind, ret, get_cache, set_cache, modify_cache, load_value,
    load_entry, store_entry, g_assert, g_slice_free_entry,
    g_slice_free_value, g_slice_new_entry, g_slice_new_value; simpl.

Lemma entry_unref_run (p : ptr) (m : mem) (e : _openslide_cache_entry) :
  entries m !! p = Some e ->
  _openslide_cache_entry_unref p m =
    Ok (tt, {| cache := cache m; values := values m;
               entries := unref_entries p (entries m);
               next := next m; warnings := warnings m |}).
Proof.
  intros He. unfold _openslide_cache_entry_unref, unref_entries.
  unfold_monad. rewrite He.
  by destruct (decide (g_atomic_int_dec (refcount e) = 0)).
Qed.

Lemma hash_destroy_value_run (value : ptr) (m : mem) v e :
  values m !! value = Some v ->
  entries m !! entry v = Some e ->
  size e <= total_size (cache m) ->
  hash_destroy_value value m = Ok (tt, destroyed value v e m).
Proof.
  intros Hv He Hle. unfold hash_destroy_value.
  unfold bind at 1. unfold load_value at 1. rewrite Hv.
  unfold_monad. rewrite He.
  rewrite bool_decide_eq_true_2 by done.
  erewrite entry_unref_run by (simpl; exact He). done.
Qed.

Lemma g_hash_table_remove_run (value : ptr) (m : mem) v e :
  hashtable (cache m) !! key v = Some value ->
  values m !! value = Some v ->
  entries m !! entry v = Some e ->
  size e <= total_size (cache m) ->
  g_hash_table_remove (key v) m = Ok (true, removed value v e m).
Proof.
  intros Hk Hv He Hle. unfold g_hash_table_remove.
  unfold bind at 1. unfold get_cache at 1. rewrite Hk.
  unfold bind at 1. unfold set_cache at 1.
  unfold bind at 1.
  erewrite hash_destroy_value_run; [done|simpl; done ..].
Qed.

Lemma lookup_unref_entries_ne (p q : ptr) es :
  p ≠ q -> unref_entries p es !! q = es !! q.
Proof.
  intros Hne. unfold unref_entries. destruct (es !! p) as [e|]; [|done].
  destruct (decide _).
  - by rewrite lookup_delete_ne.
  - by rewrite lookup_insert_ne.
Qed.

Lemma lookup_unref_entries_is_Some (p q : ptr) es :
  is_Some (unref_entries p es !! q) -> is_Some (es !! q).
Proof.
  destruct (decide (p = q)) as [->|Hne].
  - unfold unref_entries. destruct (es !! q) as [e|] eqn:E; [|by rewrite E].
    intros _. done.
  - by rewrite lookup_unref_entries_ne.
Qed.

(** ** The representation invariant of the cache *)

Record cache_inv (m : mem) : Prop := {
  (* the recency list holds each resident value once *)
  inv_nodup : NoDup (queue (cache m));
  (* every key of the index points to a value of the list that owns it *)
  inv_table : forall k vp, hashtable (cache m) !! k = Some vp ->
    vp ∈ queue (cache m) ∧ exists v, values m !! vp = Some v ∧ key v = k;
  (* every value of the list is live, indexed under its key, and holds a
     live entry *)
  inv_queue : forall vp, vp ∈ queue (cache m) ->
    exists v e, values m !! vp = Some v
      ∧ hashtable (cache m) !! key v = Some vp
      ∧ entries m !! entry v = Some e ∧ 0 <= size e;
  (* two resident values never hold the same entry *)
  inv_entry_inj : forall vp1 vp2 v1 v2,
    vp1 ∈ queue (cache m) -> vp2 ∈ queue (cache m) ->
    values m !! vp1 = Some v1 -> values m !! vp2 = Some v2 ->
    entry v1 = entry v2 -> vp1 = vp2;
  inv_total : total_size (cache m) = resident_size m;
  inv_capacity : total_size (cache m) <= capacity (cache m) < 2 ^ 64;
  (* the allocator has not handed out [next m] or anything above it *)
  inv_fresh_values : forall p, is_Some (values m !! p) -> (p < next m)%positive;
  inv_fresh_entries : forall p, is_Some (entries m !! p) -> (p < next m)%positive
}.

Lemma entry_size_of_eq m vp v e :
  values m !! vp = Some v -> entries m !! entry v = Some e ->
  entry_size_of m vp = size e.
Proof. intros Hv He. unfold entry_size_of. by rewrite Hv, He. Qed.

Lemma entry_size_of_nonneg m vp :
  cache_inv m -> vp ∈ queue (cache m) -> 0 <= entry_size_of m vp.
Proof.
  intros Hinv Hin. destruct (inv_queue m Hinv vp Hin) as (v & e & Hv & _ & He & Hs).
  by rewrite (entry_size_of_eq m vp v e).
Qed.

Lemma resident_size_nonneg m : cache_inv m -> 0 <= resident_size m.
Proof.
  intros Hinv. apply Zsum_nonneg, Forall_fmap, Forall_forall.
  intros vp Hin. by apply entry_size_of_nonneg.
Qed.

Lemma resident_size_ge m vp :
  cache_inv m -> vp ∈ queue (cache m) -> entry_size_of m vp <= resident_size m.
Proof.
  intros Hinv Hin. unfold resident_size.
  rewrite (Zsum_delete_link _ _ vp Hin).
  assert (0 <= Zsum (entry_size_of m <$> g_queue_delete_link (queue (cache m)) vp)); [|lia].
  apply Zsum_nonneg, Forall_fmap, Forall_forall.
  intros p Hp. apply entry_size_of_nonneg; [done|].
  apply elem_of_delete_link in Hp as [? _]; [done|]. by apply inv_nodup.
Qed.

(** ** Removing a resident value keeps the invariant *)

Lemma removed_inv (m : mem) value v e :
  cache_inv m ->
  value ∈ queue (cache m) ->
  values m !! value = Some v ->
  entries m !! entry v = Some e ->
  cache_inv (removed value v e m)
  ∧ total_size (cache (removed value v e m)) = total_size (cache m) - size e.
Proof.
  intros Hinv Hin Hv He.
  pose proof (inv_nodup m Hinv) as Hnd.
  destruct (inv_queue m Hinv value Hin) as (v0 & e0 & Hv0 & Hk & He0 & Hs).
  assert (v0 = v) as -> by congruence.
  assert (e0 = e) as -> by congruence.
  pose proof (resident_size_ge m value Hinv Hin) as Hge.
  rewrite (entry_size_of_eq m value v e Hv He) in Hge.
  rewrite <- (inv_total m Hinv) in Hge.
  pose proof (inv_capacity m Hinv) as Hcap.
  assert (Hwrap : wrap64 (total_size (cache m) - size e)
                  = total_size (cache m) - size e).
  { unfold wrap64. apply Z.mod_small. lia. }
  (* lookups of the other resident values are untouched *)
  assert (Hother : forall vp, vp ∈ g_queue_delete_link (queue (cache m)) value ->
            vp ∈ queue (cache m) ∧ vp ≠ value
            ∧ exists v' e', values m !! vp = Some v'
                ∧ hashtable (cache m) !! key v' = Some vp
                ∧ entries m !! entry v' = Some e' ∧ 0 <= size e'
                ∧ key v' ≠ key v ∧ entry v' ≠ entry v).
  { intros vp Hvp. apply elem_of_delete_link in Hvp as [Hvp Hne]; [|done].
    split; [done|]. split; [done|].
    destruct (inv_queue m Hinv vp Hvp) as (v' & e' & Hv' & Hk' & He' & Hs').
    exists v', e'. repeat split; try done.
    - intros Heq. rewrite Heq in Hk'. congruence.
    - intros Heq. apply Hne.
      by apply (inv_entry_inj m Hinv vp value v' v). }
  split; [|simpl; exact Hwrap].
  constructor; simpl.
  - by apply NoDup_delete_link.
  - intros k vp Hl. apply lookup_delete_Some in Hl as [Hkne Hl].
    destruct (inv_table m Hinv k vp Hl) as (Hvp & v' & Hv' & Hkv').
    assert (vp ≠ value) as Hne.
    { intros ->. apply Hkne. congruence. }
    split.
    + apply elem_of_delete_link; done.
    + exists v'. by rewrite lookup_delete_ne.
  - intros vp Hvp.
    destruct (Hother vp Hvp) as (Hq & Hne & v' & e' & Hv' & Hk' & He' & Hs' & Hkne & Hene).
    exists v', e'. repeat split; try done.
    + by rewrite lookup_delete_ne.
    + by rewrite lookup_delete_ne.
    + by rewrite lookup_unref_entries_ne.
  - intros vp1 vp2 v1 v2 H1 H2 Hv1 Hv2 Heq.
    apply elem_of_delete_link in H1 as [H1 Hne1]; [|done].
    apply elem_of_delete_link in H2 as [H2 Hne2]; [|done].
    rewrite lookup_delete_ne in Hv1 by done.
    rewrite lookup_delete_ne in Hv2 by done.
    by apply (inv_entry_inj m Hinv vp1 vp2 v1 v2).
  - rewrite Hwrap, (inv_total m Hinv). unfold resident_size at 1.
    rewrite (Zsum_delete_link _ _ value Hin).
    rewrite (entry_size_of_eq m value v e Hv He).
    unfold resident_size. simpl.
    assert (Zsum (entry_size_of m <$> g_queue_delete_link (queue (cache m)) value)
            = Zsum (entry_size_of (removed value v e m)
                      <$> g_queue_delete_link (queue (cache m)) value)) as ->; [|lia].
    apply Zsum_ext_in. intros vp Hvp.
    destruct (Hother vp Hvp) as (Hq & Hne & v' & e' & Hv' & Hk' & He' & Hs' & Hkne & Hene).
    rewrite (entry_size_of_eq m vp v' e' Hv' He').
    symmetry. apply (entry_size_of_eq _ vp v' e'); simpl.
    + by rewrite lookup_delete_ne.
    + by rewrite lookup_unref_entries_ne.
  - rewrite Hwrap. lia.
  - intros p Hp. apply (inv_fresh_values m Hinv).
    destruct (decide (value = p)) as [->|Hne].
    + by rewrite lookup_delete_eq in Hp; destruct Hp.
    + by rewrite lookup_delete_ne in Hp.
  - intros p Hp. apply (inv_fresh_entries m Hinv).
    by eapply lookup_unref_entries_is_Some.
Qed.

(* removal leaves every entry but the one of the removed value alone *)
Lemma removed_entries_frame (m : mem) value v e p :
  p ≠ entry v -> entries (removed value v e m) !! p = entries m !! p.
Proof. intros Hne. simpl. by rewrite lookup_unref_entries_ne. Qed.

Lemma removed_other (m : mem) value v e vp :
  cache_inv m ->
  value ∈ queue (cache m) ->
  values m !! value = Some v ->
  entries m !! entry v = Some e ->
  vp ∈ queue (cache m) -> vp ≠ value ->
  values (removed value v e m) !! vp = values m !! vp
  ∧ entry_size_of (removed value v e m) vp = entry_size_of m vp.
Proof.
  intros Hinv Hin Hv He Hvp Hne.
  destruct (inv_queue m Hinv vp Hvp) as (v' & e' & Hv' & Hk' & He' & Hs').
  assert (entry v' ≠ entry v) as Hene.
  { intros Heq. apply Hne. by apply (inv_entry_inj m Hinv vp value v' v). }
  assert (values (removed value v e m) !! vp = values m !! vp) as Hvals.
  { simpl. by rewrite lookup_delete_ne. }
  split; [done|].
  rewrite (entry_size_of_eq m vp v' e' Hv' He').
  apply (entry_size_of_eq _ vp v' e').
  - by rewrite Hvals.
  - simpl. by rewrite lookup_unref_entries_ne.
Qed.

(** ** possibly_evict *)

(* [evicts incoming m m' evicted]: from [m], the values [evicted] were
   dropped from the tail of the recency list, and no more of them than the
   incoming size needed *)
Definition evicts (incoming : Z) (m m' : mem) (evicted : list ptr) : Prop :=
  queue (cache m) = queue (cache m') ++ evicted
  ∧ total_size (cache m')
    = total_size (cache m) - Zsum (entry_size_of m <$> evicted)
  ∧ total_size (cache m') + incoming <= capacity (cache m')
  ∧ (forall vp ev, evicted = vp :: ev ->
       total_size (cache m') + entry_size_of m vp + incoming
       > capacity (cache m'))
  ∧ capacity (cache m') = capacity (cache m)
  ∧ cache_refcount (cache m') = cache_refcount (cache m)
  ∧ warned_overlarge_entry (cache m') = warned_overlarge_entry (cache m)
  ∧ next m' = next m
  ∧ warnings m' = warnings m
  ∧ (forall vp, vp ∈ queue (cache m') -> values m' !! vp = values m !! vp)
  ∧ (forall p,
       (forall vp v, vp ∈ queue (cache m) -> values m !! vp = Some v ->
                     entry v ≠ p) ->
       entries m' !! p = entries m !! p).

Lemma possibly_evict_loop_spec (fuel : nat) : forall (m : mem) (incoming : Z),
  cache_inv m ->
  0 <= incoming <= capacity (cache m) ->
  total_size (cache m) + incoming < 2 ^ 64 ->
  (length (queue (cache m)) < fuel)%nat ->
  exists m' evicted,
    possibly_evict_loop fuel (total_size (cache m) + incoming)
      (capacity (cache m)) m = Ok (tt, m')
    ∧ cache_inv m'
    ∧ evicts incoming m m' evicted.
Proof.
  induction fuel as [|fuel IH]; intros m incoming Hinv Hinc Hno Hfuel; [lia|].
  simpl. destruct (decide (total_size (cache m) + incoming > capacity (cache m)))
    as [Hgt|Hle].
  - unfold bind at 1. unfold get_cache at 1.
    destruct (g_queue_peek_tail (queue (cache m))) as [value|] eqn:Htail.
    + unfold g_queue_peek_tail in Htail.
      apply last_Some in Htail as [q0 Hq].
      assert (Hin : value ∈ queue (cache m)).
      { rewrite Hq. apply elem_of_app. right. apply list_elem_of_here. }
      destruct (inv_queue m Hinv value Hin) as (v & e & Hv & Hk & He & Hs).
      pose proof (resident_size_ge m value Hinv Hin) as Hge.
      rewrite (entry_size_of_eq m value v e Hv He) in Hge.
      rewrite <- (inv_total m Hinv) in Hge.
      unfold bind at 1. unfold load_value at 1. rewrite Hv.
      unfold bind at 1. unfold load_entry at 1. rewrite He.
      unfold bind at 1.
      rewrite (g_hash_table_remove_run value m v e Hk Hv He Hge).
      unfold bind at 1. unfold g_assert at 1.
      destruct (removed_inv m value v e Hinv Hin Hv He) as [Hinv1 Htot1].
      set (m1 := removed value v e m) in *.
      assert (Hnd : NoDup (q0 ++ [value])) by (rewrite <- Hq; by apply inv_nodup).
      assert (Hnotin : value ∉ q0).
      { apply NoDup_app in Hnd as (_ & Hd & _). intros Hq0.
        apply (Hd value Hq0). apply list_elem_of_here. }
      assert (Hq1 : queue (cache m1) = q0).
      { subst m1. simpl. rewrite Hq. by apply delete_link_app_last. }
      assert (Hcap1 : capacity (cache m1) = capacity (cache m)) by done.
      assert (Hsz : wrap64 (total_size (cache m) + incoming - size e)
                    = total_size (cache m1) + incoming).
      { rewrite Htot1. unfold wrap64. rewrite Z.mod_small; lia. }
      rewrite Hsz.
      destruct (IH m1 incoming) as (m' & ev1 & Hrun & Hinv' & Hev); try done.
      { rewrite Htot1. lia. }
      { rewrite Hq1. rewrite Hq, length_app in Hfuel. simpl in Hfuel. lia. }
      destruct Hev as (Eq & Etot & Efit & Emin & Ecap & Erc & Ewarn & Enext
                       & Ewarns & Evals & Eentries).
      exists m', (ev1 ++ [value]). split; [exact Hrun|]. split; [done|].
      assert (Hsizes : forall vp, vp ∈ q0 -> entry_size_of m1 vp = entry_size_of m vp).
      { intros vp Hvp. apply removed_other; try done.
        - rewrite Hq. apply elem_of_app. by left.
        - intros ->. done. }
      assert (Hsub : forall vp, vp ∈ ev1 -> vp ∈ q0).
      { intros vp Hvp. rewrite <- Hq1, Eq. apply elem_of_app. by right. }
      assert (Hsum1 : Zsum (entry_size_of m1 <$> ev1) = Zsum (entry_size_of m <$> ev1)).
      { apply Zsum_ext_in. intros vp Hvp. apply Hsizes. by apply Hsub. }
      repeat split.
      * rewrite Hq, <- Hq1, Eq. by rewrite app_assoc.
      * rewrite Etot, Htot1, fmap_app, Zsum_app, Hsum1.
        change (entry_size_of m <$> [value]) with [entry_size_of m value].
        rewrite Zsum_cons, (entry_size_of_eq m value v e Hv He).
        change (Zsum []) with 0. lia.
      * done.
      * intros vp ev Hev. destruct ev1 as [|vp1 ev1'].
        -- simpl in Hev. injection Hev as <- <-.
           rewrite (entry_size_of_eq m value v e Hv He).
           rewrite Etot, Htot1. simpl. rewrite Ecap, Hcap1. lia.
        -- simpl in Hev. injection Hev as <- <-.
           rewrite <- Hsizes by (apply Hsub, list_elem_of_here).
           by apply (Emin vp1 ev1').
      * by rewrite Ecap.
      * by rewrite Erc.
      * by rewrite Ewarn.
      * by rewrite Enext.
      * by rewrite Ewarns.
      * intros vp Hvp. rewrite (Evals vp Hvp).
        assert (vp ∈ q0) as Hvq by (rewrite <- Hq1, Eq; apply elem_of_app; by left).
        apply removed_other; try done.
        -- rewrite Hq. apply elem_of_app. by left.
        -- intros ->. done.
      * intros p Hp. rewrite Eentries.
        -- apply removed_entries_frame. intros ->. by apply (Hp value v).
        -- intros vp v' Hvp Hv'. rewrite Hq1 in Hvp.
           assert (vp ∈ queue (cache m)) as Hvpm
             by (rewrite Hq; apply elem_of_app; by left).
           apply (Hp vp v' Hvpm).
           rewrite <- Hv'. symmetry. apply removed_other; try done.
           intros ->. done.
    + (* the list is empty: nothing resident, so the entry fits *)
      unfold g_queue_peek_tail in Htail. apply last_None in Htail.
      pose proof (inv_total m Hinv) as Ht. unfold resident_size in Ht.
      rewrite Htail in Ht. simpl in Ht. unfold Zsum in Ht. simpl in Ht. lia.
  - exists m, []. split; [done|]. split; [done|].
    repeat split; try done; try lia.
    + by rewrite app_nil_r.
    + change (Zsum (entry_size_of m <$> [])) with 0. lia.
Qed.

(* possibly_evict either fails its assertion (the incoming size is zero or
   the sum wraps around) or returns after evicting from the tail *)
Lemma possibly_evict_spec (m : mem) (incoming : Z) :
  cache_inv m ->
  0 <= incoming <= capacity (cache m) ->
  (possibly_evict incoming m = Abort
   ∧ (incoming = 0 ∨ 2 ^ 64 <= total_size (cache m) + incoming))
  ∨ (0 < incoming ∧ total_size (cache m) + incoming < 2 ^ 64
     ∧ exists m' evicted,
         possibly_evict incoming m = Ok (tt, m')
         ∧ cache_inv m' ∧ evicts incoming m m' evicted).
Proof.
  intros Hinv Hinc.
  pose proof (inv_capacity m Hinv) as Hcap.
  pose proof (resident_size_nonneg m Hinv) as Hnn.
  rewrite <- (inv_total m Hinv) in Hnn.
  assert (Hrun : possibly_evict incoming m =
            if bool_decide (wrap64 (total_size (cache m) + incoming)
                            > total_size (cache m))
            then possibly_evict_loop (S (length (queue (cache m))))
                   (wrap64 (total_size (cache m) + incoming))
                   (capacity (cache m)) m
            else Abort).
  { unfold possibly_evict. unfold_monad. by destruct (bool_decide _). }
  rewrite Hrun. clear Hrun.
  destruct (decide (incoming = 0)) as [->|Hnz].
  { left. split; [|by left].
    rewrite bool_decide_eq_false_2; [done|].
    unfold wrap64. rewrite Z.add_0_r, Z.mod_small; lia. }
  destruct (decide (2 ^ 64 <= total_size (cache m) + incoming)) as [Hov|Hok].
  { left. split; [|by right].
    rewrite bool_decide_eq_false_2; [done|].
    unfold wrap64.
    replace (total_size (cache m) + incoming)
      with (total_size (cache m) + incoming - 2 ^ 64 + 1 * 2 ^ 64) by lia.
    rewrite Z.mod_add by lia. rewrite Z.mod_small; lia. }
  right. split; [lia|]. split; [lia|].
  assert (Hw : wrap64 (total_size (cache m) + incoming)
               = total_size (cache m) + incoming).
  { unfold wrap64. rewrite Z.mod_small; lia. }
  rewrite Hw. rewrite bool_decide_eq_true_2 by lia.
  apply possibly_evict_loop_spec; try done; lia.
Qed.

(** ** Allocating the caller's entry *)

Definition with_entry (e : _openslide_cache_entry) (m : mem) : mem :=
  {| cache := cache m; values := values m;
     entries := <[next m := e]> (entries m);
     next := Pos.succ (next m); warnings := warnings m |}.

Lemma fresh_entry_None (m : mem) : cache_inv m -> entries m !! next m = None.
Proof.
  intros Hinv. destruct (entries m !! next m) eqn:E; [|done].
  pose proof (inv_fresh_entries m Hinv (next m) (mk_is_Some _ _ E)). lia.
Qed.

Lemma fresh_value_None (m : mem) : cache_inv m -> values m !! next m = None.
Proof.
  intros Hinv. destruct (values m !! next m) eqn:E; [|done].
  pose proof (inv_fresh_values m Hinv (next m) (mk_is_Some _ _ E)). lia.
Qed.

Lemma fresh_not_in_queue (m : mem) : cache_inv m -> next m ∉ queue (cache m).
Proof.
  intros Hinv Hin. destruct (inv_queue m Hinv _ Hin) as (v & e & Hv & _).
  by rewrite fresh_value_None in Hv.
Qed.

(* no resident value holds the entry that is allocated next *)
Lemma fresh_entry_unreferenced (m : mem) vp v :
  cache_inv m -> vp ∈ queue (cache m) -> values m !! vp = Some v ->
  entry v ≠ next m.
Proof.
  intros Hinv Hin Hv Heq.
  destruct (inv_queue m Hinv _ Hin) as (v' & e & Hv' & _ & He & _).
  assert (v' = v) as -> by congruence.
  rewrite Heq, fresh_entry_None in He; done.
Qed.

Lemma with_entry_inv (e : _openslide_cache_entry) (m : mem) :
  cache_inv m -> cache_inv (with_entry e m).
Proof.
  intros Hinv.
  assert (Hsz : forall vp, vp ∈ queue (cache m) ->
            entry_size_of (with_entry e m) vp = entry_size_of m vp).
  { intros vp Hvp.
    destruct (inv_queue m Hinv _ Hvp) as (v & e' & Hv & _ & He & _).
    rewrite (entry_size_of_eq m vp v e' Hv He).
    apply (entry_size_of_eq _ vp v e'); simpl; [done|].
    rewrite lookup_insert_ne; [done|].
    intros Heq. by apply (fresh_entry_unreferenced m vp v). }
  constructor; simpl.
  - by apply inv_nodup.
  - by apply inv_table.
  - intros vp Hvp.
    destruct (inv_queue m Hinv _ Hvp) as (v & e' & Hv & Hk & He & Hs).
    exists v, e'. repeat split; try done.
    rewrite lookup_insert_ne; [done|].
    intros Heq. by apply (fresh_entry_unreferenced m vp v).
  - by apply inv_entry_inj.
  - rewrite (inv_total m Hinv). unfold resident_size. simpl.
    apply Zsum_ext_in. intros vp Hvp. symmetry. by apply Hsz.
  - by apply inv_capacity.
  - intros p Hp. pose proof (inv_fresh_values m Hinv p Hp). lia.
  - intros p Hp. destruct (decide (next m = p)) as [<-|Hne]; [lia|].
    rewrite lookup_insert_ne in Hp by done.
    pose proof (inv_fresh_entries m Hinv p Hp). lia.
Qed.

(** ** Replacing the value under a key, and inserting the new one *)

(* the memory after the value indexed under [k], if there is one, was
   destroyed by the hash table *)
Definition drop_key (k : cache_key) (m : mem) : mem :=
  match hashtable (cache m) !! k with
  | Some old =>
      match values m !! old with
      | Some v =>
          match entries m !! entry v with
          | Some e => removed old v e m
          | None => m
          end
      | None => m
      end
  | None => m
  end.

Definition ref_entry (e : _openslide_cache_entry) : _openslide_cache_entry :=
  {| refcount := g_atomic_int_inc (refcount e); data := data e; size := size e |}.

(* the memory after a value for ([k], [ep]) was allocated, pushed on the
   head of the list, indexed, accounted for and given its reference *)
Definition inserted (k : cache_key) (ep : ptr) (size_in_bytes : Z) (m : mem)
  : mem :=
  {| cache :=
       set_total_size (wrap64 (total_size (cache m) + size_in_bytes))
         (set_hashtable (<[k := next m]> (hashtable (cache m)))
            (set_queue (g_queue_push_head (queue (cache m)) (next m)) (cache m)));
     values := <[next m := {| key := k; entry := ep |}]> (values m);
     entries :=
       match entries m !! ep with
       | Some e => <[ep := ref_entry e]> (entries m)
       | None => entries m
       end;
     next := Pos.succ (next m); warnings := warnings m |}.

Definition unreferenced (m : mem) (p : ptr) : Prop :=
  forall vp v, vp ∈ queue (cache m) -> values m !! vp = Some v -> entry v ≠ p.

Lemma drop_key_spec (k : cache_key) (m : mem) :
  cache_inv m ->
  cache_inv (drop_key k m)
  ∧ hashtable (cache (drop_key k m)) !! k = None
  ∧ 0 <= total_size (cache (drop_key k m)) <= total_size (cache m)
  ∧ capacity (cache (drop_key k m)) = capacity (cache m)
  ∧ next (drop_key k m) = next m
  ∧ (forall p, unreferenced m p ->
       unreferenced (drop_key k m) p
       ∧ entries (drop_key k m) !! p = entries m !! p).
Proof.
  intros Hinv. unfold drop_key.
  pose proof (resident_size_nonneg m Hinv) as Hnn.
  rewrite <- (inv_total m Hinv) in Hnn.
  destruct (hashtable (cache m) !! k) as [old|] eqn:Hk.
  - destruct (inv_table m Hinv k old Hk) as (Hin & v & Hv & Hkv).
    destruct (inv_queue m Hinv old Hin) as (v' & e & Hv' & _ & He & Hs).
    assert (v' = v) as -> by congruence.
    rewrite Hv, He.
    destruct (removed_inv m old v e Hinv Hin Hv He) as [Hinv' Htot].
    split; [done|]. split.
    { simpl. rewrite Hkv. apply lookup_delete_eq. }
    pose proof (resident_size_nonneg _ Hinv') as Hnn'.
    rewrite <- (inv_total _ Hinv') in Hnn'.
    split; [lia|]. split; [done|]. split; [done|].
    intros p Hp. split.
    + intros vp v1 Hvp Hv1. simpl in Hvp.
      apply elem_of_delete_link in Hvp as [Hvp Hne]; [|by apply inv_nodup].
      apply (Hp vp v1 Hvp). simpl in Hv1.
      by rewrite lookup_delete_ne in Hv1.
    + apply removed_entries_frame. intros ->. by apply (Hp old v).
  - split; [done|]. split; [done|]. split; [lia|].
    split; [done|]. split; [done|]. intros p Hp. by split.
Qed.

Lemma inserted_inv (k : cache_key) (ep : ptr) (sz : Z) (m : mem) e :
  cache_inv m ->
  hashtable (cache m) !! k = None ->
  entries m !! ep = Some e -> size e = sz -> 0 <= sz ->
  unreferenced m ep ->
  total_size (cache m) + sz <= capacity (cache m) ->
  cache_inv (inserted k ep sz m)
  ∧ total_size (cache (inserted k ep sz m)) = total_size (cache m) + sz.
Proof.
  intros Hinv Hk He Hsz Hnn Hunref Hfit.
  pose proof (inv_capacity m Hinv) as Hcap.
  pose proof (resident_size_nonneg m Hinv) as Htnn.
  rewrite <- (inv_total m Hinv) in Htnn.
  pose proof (fresh_value_None m Hinv) as Hfv.
  pose proof (fresh_not_in_queue m Hinv) as Hfq.
  assert (Hwrap : wrap64 (total_size (cache m) + sz) = total_size (cache m) + sz).
  { unfold wrap64. apply Z.mod_small. lia. }
  assert (Hold : forall vp, vp ∈ queue (cache m) ->
            vp ≠ next m
            ∧ exists v e', values m !! vp = Some v
                ∧ hashtable (cache m) !! key v = Some vp
                ∧ entries m !! entry v = Some e' ∧ 0 <= size e'
                ∧ key v ≠ k ∧ entry v ≠ ep).
  { intros vp Hvp. split; [intros ->; done|].
    destruct (inv_queue m Hinv vp Hvp) as (v & e' & Hv & Hkv & He' & Hs').
    exists v, e'. repeat split; try done.
    - intros Heq. rewrite Heq in Hkv. congruence.
    - by apply (Hunref vp v). }
  split; [|simpl; exact Hwrap].
  unfold inserted. rewrite He.
  constructor; simpl.
  - unfold g_queue_push_head. apply NoDup_cons. split; [done|]. by apply inv_nodup.
  - intros k' vp Hl. unfold g_queue_push_head.
    destruct (decide (k = k')) as [<-|Hne].
    + rewrite lookup_insert_eq in Hl. injection Hl as <-.
      split; [apply list_elem_of_here|].
      eexists. rewrite lookup_insert_eq. done.
    + rewrite lookup_insert_ne in Hl by done.
      destruct (inv_table m Hinv k' vp Hl) as (Hvp & v & Hv & Hkv).
      split; [by apply list_elem_of_further|].
      exists v. rewrite lookup_insert_ne; [done|]. intros <-. done.
  - intros vp Hvp. unfold g_queue_push_head in Hvp.
    apply elem_of_cons in Hvp as [->|Hvp].
    + exists {| key := k; entry := ep |}, (ref_entry e).
      rewrite !lookup_insert_eq. simpl. rewrite Hsz. done.
    + destruct (Hold vp Hvp) as (Hne & v & e' & Hv & Hkv & He' & Hs' & Hkne & Hene).
      exists v, e'. rewrite !lookup_insert_ne by done. done.
  - intros vp1 vp2 v1 v2 H1 H2 Hv1 Hv2 Heq. unfold g_queue_push_head in *.
    apply elem_of_cons in H1 as [->|H1]; apply elem_of_cons in H2 as [->|H2].
    + done.
    + rewrite lookup_insert_eq in Hv1. injection Hv1 as <-. simpl in Heq.
      destruct (Hold vp2 H2) as (Hne & v & e' & Hv & _ & _ & _ & _ & Hene).
      rewrite lookup_insert_ne in Hv2 by done. congruence.
    + rewrite lookup_insert_eq in Hv2. injection Hv2 as <-. simpl in Heq.
      destruct (Hold vp1 H1) as (Hne & v & e' & Hv & _ & _ & _ & _ & Hene).
      rewrite lookup_insert_ne in Hv1 by done. congruence.
    + destruct (Hold vp1 H1) as (Hne1 & _). destruct (Hold vp2 H2) as (Hne2 & _).
      rewrite lookup_insert_ne in Hv1 by done.
      rewrite lookup_insert_ne in Hv2 by done.
      by apply (inv_entry_inj m Hinv vp1 vp2 v1 v2).
  - rewrite Hwrap. unfold resident_size. simpl.
    match goal with |- _ = entry_size_of ?mm _ + _ => set (m' := mm) end.
    change (list_fmap positive Z (entry_size_of m') (queue (cache m)))
      with (entry_size_of m' <$> queue (cache m)).
    assert (entry_size_of m' (next m) = sz) as ->.
    { rewrite <- Hsz. apply (entry_size_of_eq m' (next m) {| key := k; entry := ep |} (ref_entry e)).
      - subst m'. simpl. by rewrite lookup_insert_eq.
      - subst m'. simpl. by rewrite lookup_insert_eq. }
    assert (Zsum (entry_size_of m' <$> queue (cache m)) = resident_size m) as ->.
    { apply Zsum_ext_in. intros vp Hvp.
      destruct (Hold vp Hvp) as (Hne & v & e' & Hv & Hkv & He' & Hs' & Hkne & Hene).
      rewrite (entry_size_of_eq m vp v e' Hv He').
      apply (entry_size_of_eq m' vp v e'); subst m'; simpl.
      - by rewrite lookup_insert_ne.
      - by rewrite lookup_insert_ne. }
    rewrite (inv_total m Hinv). lia.
  - rewrite Hwrap. lia.
  - intros p Hp. destruct (decide (next m = p)) as [<-|Hne]; [lia|].
    rewrite lookup_insert_ne in Hp by done.
    pose proof (inv_fresh_values m Hinv p Hp). lia.
  - intros p Hp. destruct (decide (ep = p)) as [<-|Hne].
    + pose proof (inv_fresh_entries m Hinv ep (mk_is_Some _ _ He)). lia.
    + rewrite lookup_insert_ne in Hp by done.
      pose proof (inv_fresh_entries m Hinv p Hp). lia.
Qed.

(** ** _openslide_cache_put, step by step *)

Definition new_entry (data sz : Z) : _openslide_cache_entry :=
  {| refcount := 1; data := data; size := sz |}.

Lemma put_overlarge_run (m : mem) plane x y data sz :
  sz > capacity (cache m) ->
  _openslide_cache_put plane x y data sz m =
    Ok (next m,
        {| cache :=
             set_warned_overlarge_entry
               (_openslide_performance_warn_once
                  (warned_overlarge_entry (cache m))).1 (cache m);
           values := values m;
           entries := <[next m := new_entry data sz]> (entries m);
           next := Pos.succ (next m);
           warnings :=
             if (_openslide_performance_warn_once
                   (warned_overlarge_entry (cache m))).2
             then S (warnings m) else warnings m |}).
Proof.
  intros Hgt. unfold _openslide_cache_put. unfold_monad.
  rewrite decide_True by done.
  unfold warn_overlarge. unfold_monad.
  by destruct (_openslide_performance_warn_once _).
Qed.

Lemma put_fits_run (m : mem) plane x y data sz :
  cache_inv m ->
  0 <= sz <= capacity (cache m) ->
  (_openslide_cache_put plane x y data sz m = Abort
   ∧ (sz = 0 ∨ 2 ^ 64 <= total_size (cache m) + sz))
  ∨ (0 < sz ∧ total_size (cache m) + sz < 2 ^ 64
     ∧ exists m1 evicted,
         cache_inv m1
         ∧ evicts sz (with_entry (new_entry data sz) m) m1 evicted
         ∧ _openslide_cache_put plane x y data sz m =
             Ok (next m,
                 inserted (plane, x, y) (next m) sz
                   (drop_key (plane, x, y) m1))).
Proof.
  intros Hinv Hsz.
  set (m0 := with_entry (new_entry data sz) m).
  assert (Hinv0 : cache_inv m0) by by apply with_entry_inv.
  assert (Hrun : _openslide_cache_put plane x y data sz m =
     match possibly_evict sz m0 with
     | Ok (_, m1) =>
        (value <- g_slice_new_value {| key := (plane, x, y); entry := next m |} ;;
         modify_cache (fun c => set_queue (g_queue_push_head (queue c) value) c) ;;
         g_hash_table_replace (plane, x, y) value ;;
         modify_cache (fun c => set_total_size (wrap64 (total_size c + sz)) c) ;;
         e <- load_entry (next m) ;;
         store_entry (next m) (ref_entry e) ;;
         ret (next m)) m1
     | Error msg => Error msg
     | Abort => Abort
     | Undefined => Undefined
     | Timeout => Timeout
     end).
  { unfold _openslide_cache_put. unfold bind at 1. unfold g_slice_new_entry at 1.
    unfold bind at 1. unfold get_cache at 1. cbn [cache].
    rewrite decide_False by lia.
    unfold bind at 1. reflexivity. }
  rewrite Hrun. clear Hrun.
  destruct (possibly_evict_spec m0 sz Hinv0 Hsz)
    as [[Hab Hwhy]|(Hpos & Hno & m1 & evicted & Hev & Hinv1 & Hevicts)].
  { left. by rewrite Hab. }
  right. split; [done|]. split; [done|].
  exists m1, evicted. split; [done|]. split; [done|].
  rewrite Hev. clear Hev.
  destruct Hevicts as (Eq & Etot & Efit & Emin & Ecap & Erc & Ewarn & Enext
                       & Ewarns & Evals & Eentries).
  assert (Hunref0 : unreferenced m0 (next m)).
  { intros vp v Hvp Hv. by apply (fresh_entry_unreferenced m vp v). }
  assert (He1 : entries m1 !! next m = Some (new_entry data sz)).
  { rewrite (Eentries _ Hunref0). subst m0. simpl. by rewrite lookup_insert_eq. }
  assert (Hunref1 : unreferenced m1 (next m)).
  { intros vp v Hvp Hv. apply (Hunref0 vp v).
    - rewrite Eq. apply elem_of_app. by left.
    - by rewrite <- (Evals vp Hvp). }
  pose proof (fresh_value_None m1 Hinv1) as Hfv1.
  unfold drop_key.
  destruct (hashtable (cache m1) !! (plane, x, y)) as [old|] eqn:Hk.
  - destruct (inv_table m1 Hinv1 _ old Hk) as (Hin & v & Hv & Hkv).
    destruct (inv_queue m1 Hinv1 old Hin) as (v' & e & Hv' & _ & He & Hs).
    assert (v' = v) as -> by congruence.
    rewrite Hv, He.
    pose proof (resident_size_ge m1 old Hinv1 Hin) as Hge.
    rewrite (entry_size_of_eq m1 old v e Hv He) in Hge.
    rewrite <- (inv_total m1 Hinv1) in Hge.
    assert (Hne : next m1 ≠ old) by (intros <-; congruence).
    assert (Hene : entry v ≠ next m) by by apply (Hunref1 old v).
    unfold bind at 1. unfold g_slice_new_value at 1.
    unfold bind at 1. unfold modify_cache at 1. unfold_monad.
    unfold g_hash_table_replace. unfold_monad. rewrite Hk.
    erewrite hash_destroy_value_run;
      [| simpl; rewrite lookup_insert_ne by done; exact Hv
       | simpl; exact He | simpl; exact Hge ].
    simpl. rewrite lookup_unref_entries_ne by done. rewrite He1.
    unfold inserted. simpl.
    rewrite lookup_unref_entries_ne by done. rewrite He1.
    rewrite decide_False by done.
    rewrite <- Hkv, insert_delete_eq, delete_insert_ne by done.
    reflexivity.
  - unfold bind at 1. unfold g_slice_new_value at 1.
    unfold bind at 1. unfold modify_cache at 1. unfold_monad.
    unfold g_hash_table_replace. unfold_monad. rewrite Hk. simpl.
    rewrite He1. unfold inserted. rewrite He1. reflexivity.
Qed.

(* the invariant only reads the list, the index, the sizes and the heaps *)
Lemma cache_inv_same (m m' : mem) :
  queue (cache m') = queue (cache m) ->
  hashtable (cache m') = hashtable (cache m) ->
  total_size (cache m') = total_size (cache m) ->
  capacity (cache m') = capacity (cache m) ->
  values m' = values m -> entries m' = entries m -> next m' = next m ->
  cache_inv m -> cache_inv m'.
Proof.
  intros Hq Hh Ht Hc Hv He Hn Hinv.
  assert (Hr : resident_size m' = resident_size m).
  { unfold resident_size. rewrite Hq. apply Zsum_ext_in. intros vp _.
    unfold entry_size_of. by rewrite Hv, He. }
  constructor; rewrite ?Hq, ?Hh, ?Ht, ?Hc, ?Hv, ?He, ?Hn, ?Hr; by apply Hinv.
Qed.

Lemma put_overlarge_inv (m : mem) plane x y data sz :
  cache_inv m -> sz > capacity (cache m) ->
  exists m', _openslide_cache_put plane x y data sz m = Ok (next m, m')
    ∧ cache_inv m' ∧ capacity (cache m') = capacity (cache m).
Proof.
  intros Hinv Hgt. eexists. split; [by apply put_overlarge_run|].
  split; [|done].
  apply (cache_inv_same (with_entry (new_entry data sz) m)); try done.
  by apply with_entry_inv.
Qed.

Lemma put_fits_inv (m : mem) plane x y data sz :
  cache_inv m ->
  0 <= sz <= capacity (cache m) ->
  (_openslide_cache_put plane x y data sz m = Abort
   ∧ (sz = 0 ∨ 2 ^ 64 <= total_size (cache m) + sz))
  ∨ (0 < sz ∧ total_size (cache m) + sz < 2 ^ 64
     ∧ exists m', _openslide_cache_put plane x y data sz m = Ok (next m, m')
         ∧ cache_inv m' ∧ capacity (cache m') = capacity (cache m)).
Proof.
  intros Hinv Hsz.
  destruct (put_fits_run m plane x y data sz Hinv Hsz)
    as [?|(Hpos & Hno & m1 & evicted & Hinv1 & Hev & Hrun)]; [by left|].
  right. split; [done|]. split; [done|].
  eexists. split; [exact Hrun|].
  destruct Hev as (Eq & Etot & Efit & Emin & Ecap & Erc & Ewarn & Enext
                   & Ewarns & Evals & Eentries).
  assert (Hunref0 : unreferenced (with_entry (new_entry data sz) m) (next m)).
  { intros vp v Hvp Hv. by apply (fresh_entry_unreferenced m vp v). }
  assert (Hunref1 : unreferenced m1 (next m)).
  { intros vp v Hvp Hv. apply (Hunref0 vp v).
    - rewrite Eq. apply elem_of_app. by left.
    - by rewrite <- (Evals vp Hvp). }
  destruct (drop_key_spec (plane, x, y) m1 Hinv1)
    as (Hinv2 & Hk2 & Htot2 & Hcap2 & Hnext2 & Hframe2).
  destruct (Hframe2 _ Hunref1) as [Hunref2 He2].
  rewrite (Eentries _ Hunref0) in He2. simpl in He2.
  rewrite lookup_insert_eq in He2.
  destruct (inserted_inv (plane, x, y) (next m) sz _ _ Hinv2 Hk2 He2)
    as [Hinv3 Htot3]; try done; try lia.
  split; [done|]. simpl. by rewrite Hcap2, Ecap.
Qed.

(** ** _openslide_cache_get, step by step *)

(* the memory after a hit on [value]: its node is moved to the head and
   its entry has one more reference *)
Definition touched (value : ptr) (v : _openslide_cache_value)
    (e : _openslide_cache_entry) (m : mem) : mem :=
  {| cache :=
       set_queue
         (g_queue_push_head (g_queue_delete_link (queue (cache m)) value) value)
         (cache m);
     values := values m;
     entries := <[entry v := ref_entry e]> (entries m);
     next := next m; warnings := warnings m |}.

Lemma get_miss_run (m : mem) plane x y :
  hashtable (cache m) !! (plane, x, y) = None ->
  _openslide_cache_get plane x y m = Ok ((0, None), m).
Proof.
  intros Hk. unfold _openslide_cache_get. unfold_monad. by rewrite Hk.
Qed.

Lemma get_hit_run (m : mem) plane x y value v e :
  hashtable (cache m) !! (plane, x, y) = Some value ->
  values m !! value = Some v ->
  entries m !! entry v = Some e ->
  _openslide_cache_get plane x y m =
    Ok ((data e, Some (entry v)), touched value v e m).
Proof.
  intros Hk Hv He. unfold _openslide_cache_get. unfold_monad.
  rewrite Hk, Hv. simpl. by rewrite He.
Qed.

Lemma touched_inv (m : mem) value v e :
  cache_inv m ->
  value ∈ queue (cache m) ->
  values m !! value = Some v ->
  entries m !! entry v = Some e ->
  cache_inv (touched value v e m).
Proof.
  intros Hinv Hin Hv He.
  pose proof (inv_nodup m Hinv) as Hnd.
  pose proof (delete_link_perm _ _ Hin) as HP.
  assert (Hmem : forall p, p ∈ value :: g_queue_delete_link (queue (cache m)) value
                   <-> p ∈ queue (cache m)).
  { intros p. by rewrite <- (elem_of_Permutation_proper _ _ _ HP). }
  assert (Hsz : forall vp, vp ∈ queue (cache m) ->
            entry_size_of (touched value v e m) vp = entry_size_of m vp).
  { intros vp Hvp.
    destruct (inv_queue m Hinv vp Hvp) as (v' & e' & Hv' & _ & He' & _).
    rewrite (entry_size_of_eq m vp v' e' Hv' He').
    destruct (decide (entry v' = entry v)) as [Heq|Hne].
    - assert (e' = e) as -> by (rewrite Heq in He'; congruence).
      change (size e) with (size (ref_entry e)).
      apply (entry_size_of_eq _ vp v' (ref_entry e)); simpl; [done|].
      rewrite Heq. by rewrite lookup_insert_eq.
    - apply (entry_size_of_eq _ vp v' e'); simpl; [done|].
      by rewrite lookup_insert_ne. }
  constructor; simpl; unfold g_queue_push_head.
  - apply NoDup_cons. split.
    + intros H. apply elem_of_delete_link in H as [_ ?]; done.
    + by apply NoDup_delete_link.
  - intros k vp Hl. destruct (inv_table m Hinv k vp Hl) as (Hvp & Hrest).
    split; [by apply Hmem|done].
  - intros vp Hvp. apply Hmem in Hvp.
    destruct (inv_queue m Hinv vp Hvp) as (v' & e' & Hv' & Hk' & He' & Hs').
    destruct (decide (entry v' = entry v)) as [Heq|Hne].
    + exists v', (ref_entry e). rewrite Heq, lookup_insert_eq.
      repeat split; try done. simpl. congruence.
    + exists v', e'. rewrite lookup_insert_ne by done. done.
  - intros vp1 vp2 v1 v2 H1 H2. apply Hmem in H1. apply Hmem in H2.
    by apply (inv_entry_inj m Hinv).
  - rewrite (inv_total m Hinv). unfold resident_size. simpl.
    unfold g_queue_push_head.
    change (list_fmap positive Z ?f ?l) with (f <$> l).
    rewrite (Zsum_perm _ _ (fmap_Permutation (entry_size_of m) _ _ HP)).
    rewrite !fmap_cons, !Zsum_cons.
    rewrite Hsz by done. f_equal.
    apply Zsum_ext_in. intros vp Hvp. symmetry. apply Hsz.
    apply elem_of_delete_link in Hvp as [? _]; done.
  - by apply inv_capacity.
  - by apply inv_fresh_values.
  - intros p Hp. destruct (decide (entry v = p)) as [<-|Hne].
    + apply (inv_fresh_entries m Hinv). by rewrite He.
    + rewrite lookup_insert_ne in Hp by done. by apply (inv_fresh_entries m Hinv).
Qed.

Lemma get_inv (m : mem) plane x y :
  cache_inv m ->
  exists r m', _openslide_cache_get plane x y m = Ok (r, m')
    ∧ cache_inv m' ∧ capacity (cache m') = capacity (cache m).
Proof.
  intros Hinv.
  destruct (hashtable (cache m) !! (plane, x, y)) as [value|] eqn:Hk.
  - destruct (inv_table m Hinv _ _ Hk) as (Hin & v & Hv & Hkv).
    destruct (inv_queue m Hinv _ Hin) as (v' & e & Hv' & _ & He & _).
    assert (v' = v) as -> by congruence.
    eexists _, _. split; [by apply (get_hit_run m plane x y value v e)|].
    split; [by apply touched_inv|done].
  - eexists _, _. split; [by apply get_miss_run|]. done.
Qed.

(** ** The index and the recency list hold the same values *)

Lemma hashtable_values_perm (m : mem) :
  cache_inv m -> (map_to_list (hashtable (cache m))).*2 ≡ₚ queue (cache m).
Proof.
  intros Hinv. apply NoDup_Permutation.
  - apply NoDup_fmap_2_strong; [|apply NoDup_map_to_list].
    intros [k1 vp1] [k2 vp2] H1 H2 Heq. simpl in Heq. subst vp2.
    apply elem_of_map_to_list in H1, H2.
    destruct (inv_table m Hinv _ _ H1) as (_ & v1 & Hv1 & Hk1).
    destruct (inv_table m Hinv _ _ H2) as (_ & v2 & Hv2 & Hk2).
    congruence.
  - by apply inv_nodup.
  - intros vp. rewrite list_elem_of_fmap. split.
    + intros [[k vp'] [-> Hin]]. apply elem_of_map_to_list in Hin.
      by destruct (inv_table m Hinv _ _ Hin) as (? & _).
    + intros Hin. destruct (inv_queue m Hinv _ Hin) as (v & e & _ & Hk & _).
      exists (key v, vp). split; [done|]. by apply elem_of_map_to_list.
Qed.

Lemma hashtable_size_resident (m : mem) :
  cache_inv m -> hashtable_size m = resident_size m.
Proof.
  intros Hinv. unfold hashtable_size, resident_size.
  apply Zsum_perm, fmap_Permutation. by apply hashtable_values_perm.
Qed.

(** ** Sequences of cache operations *)

(* what a user of the cache calls: put, get, and
   _openslide_cache_entry_unref on an entry it was handed *)
Inductive op : Type :=
| Put (plane x y : Z) (data : Z) (size_in_bytes : Z)
| Get (plane x y : Z)
| Unref (entry : ptr).

Definition step (o : op) : M unit :=
  match o with
  | Put plane x y data size_in_bytes =>
      _ <- _openslide_cache_put plane x y data size_in_bytes ;; ret tt
  | Get plane x y =>
      _ <- _openslide_cache_get plane x y ;; ret tt
  | Unref entry => _openslide_cache_entry_unref entry
  end.

Fixpoint run (ops : list op) : M unit :=
  match ops with
  | [] => ret tt
  | o :: ops' => step o ;; run ops'
  end.

(* a value of the recency list holds the entry *)
Definition resident (m : mem) (p : ptr) : Prop :=
  Exists (fun value => entry <$> values m !! value = Some p) (queue (cache m)).

(* What the caller of an operation owes in state [m]: the arguments are
   values of their C types, and an unref releases a reference of the
   caller: the entry is live, and the reference released is not the one
   that the cache holds. *)
Definition op_wf (o : op) (m : mem) : Prop :=
  match o with
  | Put _ _ _ _ size_in_bytes => 0 <= size_in_bytes < 2 ^ 64
  | Get _ _ _ => True
  | Unref entry =>
      match entries m !! entry with
      | Some e => resident m entry -> g_atomic_int_dec (refcount e) ≠ 0
      | None => False
      end
  end.

(* every operation of the sequence is called as [op_wf] asks, in the
   state the operations before it have left *)
Fixpoint disciplined (ops : list op) (m : mem) : Prop :=
  match ops with
  | [] => True
  | o :: ops' =>
      op_wf o m
      ∧ match step o m with
        | Ok (_, m') => disciplined ops' m'
        | _ => True
        end
  end.

#[local] Instance op_wf_dec (o : op) (m : mem) : Decision (op_wf o m).
Proof.
  destruct o as [plane x y data sz|plane x y|p]; simpl; [apply _ ..|].
  destruct (entries m !! p); apply _.
Defined.

#[local] Instance disciplined_dec (ops : list op) :
  forall m, Decision (disciplined ops m).
Proof.
  induction ops as [|o ops IH]; intros m; simpl; [apply _|].
  destruct (step o m) as [[u m']| | | |]; apply _.
Defined.

(* the over-large latch and the warnings printed for it *)
Definition latch_inv (m : mem) : Prop :=
  (warned_overlarge_entry (cache m) = 0 ∧ warnings m = 0%nat)
  ∨ (warned_overlarge_entry (cache m) = 1 ∧ warnings m = 1%nat).

Lemma initial_inv (capacity_in_bytes : Z) :
  0 <= capacity_in_bytes < 2 ^ 64 ->
  cache_inv (initial_mem capacity_in_bytes)
  ∧ latch_inv (initial_mem capacity_in_bytes).
Proof.
  intros Hc. split; [|by left].
  constructor; simpl; try done.
  - apply NoDup_nil_2.
  - intros vp H. by apply elem_of_nil in H.
  - intros p [? H]. by rewrite lookup_empty in H.
  - intros p [? H]. by rewrite lookup_empty in H.
Qed.

Lemma drop_key_latch (k : cache_key) (m : mem) :
  warned_overlarge_entry (cache (drop_key k m)) = warned_overlarge_entry (cache m)
  ∧ warnings (drop_key k m) = warnings m.
Proof.
  unfold drop_key. destruct (hashtable (cache m) !! k); [|done].
  destruct (values m !! _); [|done]. by destruct (entries m !! _).
Qed.

Lemma put_step_inv (m : mem) plane x y data sz :
  cache_inv m -> latch_inv m -> 0 <= sz < 2 ^ 64 ->
  _openslide_cache_put plane x y data sz m = Abort
  ∨ exists m', _openslide_cache_put plane x y data sz m = Ok (next m, m')
      ∧ cache_inv m' ∧ latch_inv m'
      ∧ capacity (cache m') = capacity (cache m).
Proof.
  intros Hinv Hlatch Hsz.
  destruct (decide (sz > capacity (cache m))) as [Hgt|Hle].
  - right. destruct (put_overlarge_inv m plane x y data sz Hinv Hgt)
      as (m' & Hrun & Hinv' & Hcap).
    exists m'. split; [done|]. split; [done|]. split; [|done].
    rewrite put_overlarge_run in Hrun by done. injection Hrun as <-.
    unfold latch_inv, _openslide_performance_warn_once. simpl.
    destruct Hlatch as [[-> ->]|[-> ->]]; simpl; [by right|by right].
  - destruct (put_fits_run m plane x y data sz Hinv)
      as [[? _]|(Hpos & Hno & m1 & evicted & Hinv1 & Hev & Hrun)];
      [lia|by left|].
    destruct (put_fits_inv m plane x y data sz Hinv)
      as [[? _]|(_ & _ & m' & Hrun' & Hinv' & Hcap)]; [lia|by left|].
    right. exists m'. split; [done|]. split; [done|]. split; [|done].
    rewrite Hrun in Hrun'. injection Hrun' as <-.
    destruct Hev as (_ & _ & _ & _ & _ & _ & Ewarn & _ & Ewarns & _).
    destruct (drop_key_latch (plane, x, y) m1) as [Hw Hws].
    unfold latch_inv. simpl. rewrite Hw, Hws, Ewarn, Ewarns. exact Hlatch.
Qed.

Lemma get_step_inv (m : mem) plane x y :
  cache_inv m -> latch_inv m ->
  exists r m', _openslide_cache_get plane x y m = Ok (r, m')
    ∧ cache_inv m' ∧ latch_inv m'
    ∧ capacity (cache m') = capacity (cache m).
Proof.
  intros Hinv Hlatch.
  destruct (get_inv m plane x y Hinv) as (r & m' & Hrun & Hinv' & Hcap).
  exists r, m'. split; [done|]. split; [done|]. split; [|done].
  destruct (hashtable (cache m) !! (plane, x, y)) as [value|] eqn:Hk.
  - destruct (inv_table m Hinv _ _ Hk) as (Hin & v & Hv & Hkv).
    destruct (inv_queue m Hinv _ Hin) as (v' & e & Hv' & _ & He & _).
    assert (v' = v) as -> by congruence.
    rewrite (get_hit_run m plane x y value v e Hk Hv He) in Hrun.
    injection Hrun as _ <-. exact Hlatch.
  - rewrite get_miss_run in Hrun by done. injection Hrun as _ <-. exact Hlatch.
Qed.

(* a caller's unref keeps the invariants *)
Lemma unref_step_inv (m : mem) (p : ptr) :
  cache_inv m -> latch_inv m -> op_wf (Unref p) m ->
  exists m', _openslide_cache_entry_unref p m = Ok (tt, m')
    ∧ cache_inv m' ∧ latch_inv m'
    ∧ capacity (cache m') = capacity (cache m).
Proof.
  intros Hinv Hlatch Hwf. simpl in Hwf.
  destruct (entries m !! p) as [e|] eqn:He; [|done].
  eexists. split; [exact (entry_unref_run p m e He)|].
  split; [|done].
  (* the entries of the resident values stay, with their sizes *)
  assert (Hkeep : forall vp v e', vp ∈ queue (cache m) ->
            values m !! vp = Some v -> entries m !! entry v = Some e' ->
            exists e'', unref_entries p (entries m) !! entry v = Some e''
              ∧ size e'' = size e').
  { intros vp v e' Hin Hv He'.
    destruct (decide (entry v = p)) as [Heq|Hne].
    - subst p. assert (e' = e) as -> by congruence.
      assert (Hres : resident m (entry v)).
      { apply Exists_exists. exists vp. split; [done|]. by rewrite Hv. }
      specialize (Hwf Hres). unfold unref_entries. rewrite He.
      rewrite decide_False by done. rewrite lookup_insert_eq. by eexists.
    - rewrite lookup_unref_entries_ne by done. by eexists. }
  constructor; simpl.
  - by apply inv_nodup.
  - by apply inv_table.
  - intros vp Hvp.
    destruct (inv_queue m Hinv vp Hvp) as (v & e' & Hv & Hk & He' & Hs).
    destruct (Hkeep vp v e' Hvp Hv He') as (e'' & He'' & Hsz).
    exists v, e''. by rewrite Hsz.
  - by apply inv_entry_inj.
  - rewrite (inv_total m Hinv). unfold resident_size. simpl.
    apply Zsum_ext_in. intros vp Hvp.
    destruct (inv_queue m Hinv vp Hvp) as (v & e' & Hv & Hk & He' & Hs).
    destruct (Hkeep vp v e' Hvp Hv He') as (e'' & He'' & Hsz).
    rewrite (entry_size_of_eq m vp v e' Hv He'). symmetry.
    rewrite <- Hsz. by apply (entry_size_of_eq _ vp v e'').
  - by apply inv_capacity.
  - by apply inv_fresh_values.
  - intros q Hq. apply (inv_fresh_entries m Hinv).
    by eapply lookup_unref_entries_is_Some.
Qed.

Lemma run_cons (o : op) (ops : list op) (m : mem) :
  run (o :: ops) m =
    match step o m with
    | Ok (_, m1) => run ops m1
    | Error msg => Error msg
    | Abort => Abort
    | Undefined => Undefined
    | Timeout => Timeout
    end.
Proof. reflexivity. Qed.

(* every sequence of operations either dies in a g_assert or returns in a
   state that satisfies the invariants *)
Lemma run_inv (ops : list op) : forall (m : mem),
  cache_inv m -> latch_inv m -> disciplined ops m ->
  run ops m = Abort
  ∨ exists m', run ops m = Ok (tt, m')
      ∧ cache_inv m' ∧ latch_inv m'
      ∧ capacity (cache m') = capacity (cache m).
Proof.
  induction ops as [|o ops IH]; intros m Hinv Hlatch Hwf.
  - right. by exists m.
  - destruct Hwf as [Ho Hwf]. rewrite run_cons.
    assert (Hstep : step o m = Abort
              ∨ exists m1, step o m = Ok (tt, m1) ∧ cache_inv m1 ∧ latch_inv m1
                  ∧ capacity (cache m1) = capacity (cache m)).
    { destruct o as [plane x y data sz|plane x y|p]; simpl.
      - destruct (put_step_inv m plane x y data sz Hinv Hlatch Ho)
          as [Hab|(m1 & Hrun & ?)].
        + left. unfold bind. by rewrite Hab.
        + right. exists m1. unfold bind. by rewrite Hrun.
      - destruct (get_step_inv m plane x y Hinv Hlatch) as (r & m1 & Hrun & ?).
        right. exists m1. unfold bind. by rewrite Hrun.
      - right. by apply unref_step_inv. }
    destruct Hstep as [Hab|(m1 & Hrun & Hinv1 & Hlatch1 & Hcap1)].
    + left. by rewrite Hab.
    + rewrite Hrun. rewrite Hrun in Hwf.
      destruct (IH m1 Hinv1 Hlatch1 Hwf) as [Hab|(m' & Hrun' & ? & ? & Hcap')].
      * left. exact Hab.
      * right. exists m'. split; [exact Hrun'|]. split; [done|]. split; [done|].
        by rewrite Hcap'.
Qed.

Lemma reachable_inv (capacity_in_bytes : Z) (ops : list op) (m : mem) :
  0 <= capacity_in_bytes < 2 ^ 64 ->
  disciplined ops (initial_mem capacity_in_bytes) ->
  run ops (initial_mem capacity_in_bytes) = Ok (tt, m) ->
  cache_inv m ∧ latch_inv m ∧ capacity (cache m) = capacity_in_bytes.
Proof.
  intros Hc Hwf Hrun.
  destruct (initial_inv capacity_in_bytes Hc) as [Hinv Hlatch].
  destruct (run_inv ops _ Hinv Hlatch Hwf) as [Hab|(m' & Hrun' & ? & ? & ?)].
  - congruence.
  - rewrite Hrun in Hrun'. injection Hrun' as <-. done.
Qed.

Lemma g_atomic_int_inc_no_wrap (r : Z) :
  - 2 ^ 31 <= r < gint_max -> g_atomic_int_inc r = r + 1.
Proof.
  unfold gint_max, g_atomic_int_inc, to_signed. intros Hr.
  destruct (decide (0 <= r + 1)) as [Hnn|Hneg].
  - rewrite Z.mod_small by lia. rewrite decide_True; lia.
  - replace (r + 1) with (r + 1 + 2 ^ 32 + (-1) * 2 ^ 32) by lia.
    rewrite Z.mod_add by lia. rewrite Z.mod_small by lia.
    rewrite decide_False; lia.
Qed.

(** ** The claims about the cache *)

(** C1.  Cache size invariant: for every sequence of put and get calls on
    a freshly created cache, with the callers releasing references of
    theirs in between, either a [g_assert] aborts the process or the calls
    return, and then the sum of [entry->size] over the values of the
    recency list, and over the values of the hash table, equals
    [cache->total_size], which is at most [cache->capacity].  In every
    such state a put that is not over-large and returns has first evicted
    values from the tail of the recency list, and only as many as the
    incoming size needed ([evicts]), before inserting at the head. *)
Theorem cache_size_invariant (capacity_in_bytes : Z) (ops : list op) :
  0 <= capacity_in_bytes < 2 ^ 64 ->
  disciplined ops (initial_mem capacity_in_bytes) ->
  run ops (initial_mem capacity_in_bytes) = Abort
  ∨ exists m,
      run ops (initial_mem capacity_in_bytes) = Ok (tt, m)
      ∧ resident_size m = total_size (cache m)
      ∧ hashtable_size m = total_size (cache m)
      ∧ total_size (cache m) <= capacity (cache m)
      ∧ capacity (cache m) = capacity_in_bytes
      ∧ forall plane x y data sz,
          0 < sz <= capacity (cache m) ->
          total_size (cache m) + sz < 2 ^ 64 ->
          exists m1 evicted,
            evicts sz (with_entry (new_entry data sz) m) m1 evicted
            ∧ _openslide_cache_put plane x y data sz m =
                Ok (next m,
                    inserted (plane, x, y) (next m) sz
                      (drop_key (plane, x, y) m1)).
Proof.
  intros Hc Hwf.
  destruct (initial_inv capacity_in_bytes Hc) as [Hinv0 Hlatch0].
  destruct (run_inv ops _ Hinv0 Hlatch0 Hwf)
    as [Hab|(m & Hrun & Hinv & Hlatch & Hcap)]; [by left|].
  right. exists m. split; [done|].
  split; [symmetry; by apply inv_total|].
  split; [rewrite hashtable_size_resident by done; symmetry; by apply inv_total|].
  split; [by apply inv_capacity|]. split; [done|].
  intros plane x y data sz Hsz Hno.
  destruct (put_fits_run m plane x y data sz Hinv)
    as [[_ [?|?]]|(_ & _ & m1 & evicted & _ & Hev & Hrun')]; [lia|lia|lia|].
  by exists m1, evicted.
Qed.

(* scenario S1, the caller releasing each entry it was handed *)
Definition scenario_S1 : list op :=
  [Put 7 0 0 1000 10; Unref 1; Put 7 1 0 1001 20; Unref 3;
   Put 7 2 0 1002 30; Unref 5; Get 7 0 0; Unref 1;
   Put 7 3 0 1003 50; Unref 7; Get 7 1 0; Get 7 0 0; Unref 1].

Lemma cache_size_invariant_witness :
  0 <= 100 < 2 ^ 64
  ∧ disciplined scenario_S1 (initial_mem 100)
  ∧ (run scenario_S1 (initial_mem 100) = Abort
     ∨ exists m,
         run scenario_S1 (initial_mem 100) = Ok (tt, m)
         ∧ resident_size m = total_size (cache m)
         ∧ hashtable_size m = total_size (cache m)
         ∧ total_size (cache m) <= capacity (cache m)
         ∧ capacity (cache m) = 100
         ∧ forall plane x y data sz,
             0 < sz <= capacity (cache m) ->
             total_size (cache m) + sz < 2 ^ 64 ->
             exists m1 evicted,
               evicts sz (with_entry (new_entry data sz) m) m1 evicted
               ∧ _openslide_cache_put plane x y data sz m =
                   Ok (next m,
                       inserted (plane, x, y) (next m) sz
                         (drop_key (plane, x, y) m1))).
Proof.
  assert (Hc : 0 <= 100 < 2 ^ 64) by lia.
  assert (Hwf : disciplined scenario_S1 (initial_mem 100)).
  { apply (bool_decide_unpack _). vm_compute. exact I. }
  split; [exact Hc|]. split; [exact Hwf|].
  exact (cache_size_invariant 100 scenario_S1 Hc Hwf).
Defined.

(** C2.  Over-large put: in every state a cache can reach, a put whose
    size exceeds the capacity returns without inserting anything (hash
    table, recency list, [total_size] and the live values are unchanged);
    the entry it returns is freshly allocated and holds [(data, size)]
    with refcount 1; the latch is set afterwards and the cache has
    printed exactly one over-large warning in its whole life, so the
    latch was set at most once. *)
Theorem put_overlarge_rejected (capacity_in_bytes : Z) (ops : list op)
    (m : mem) (plane x y data sz : Z) :
  0 <= capacity_in_bytes < 2 ^ 64 ->
  disciplined ops (initial_mem capacity_in_bytes) ->
  run ops (initial_mem capacity_in_bytes) = Ok (tt, m) ->
  sz > capacity (cache m) ->
  exists m',
    _openslide_cache_put plane x y data sz m = Ok (next m, m')
    ∧ hashtable (cache m') = hashtable (cache m)
    ∧ queue (cache m') = queue (cache m)
    ∧ total_size (cache m') = total_size (cache m)
    ∧ values m' = values m
    ∧ entries m !! next m = None
    ∧ entries m' =
        <[next m := {| refcount := 1; data := data; size := sz |}]> (entries m)
    ∧ warned_overlarge_entry (cache m') = 1
    ∧ warnings m' = 1%nat
    ∧ (warned_overlarge_entry (cache m) = 1 -> warnings m' = warnings m).
Proof.
  intros Hc Hwf Hrun Hgt.
  destruct (reachable_inv _ _ _ Hc Hwf Hrun) as (Hinv & Hlatch & _).
  eexists. split; [by apply put_overlarge_run|]. simpl.
  split; [done|]. split; [done|]. split; [done|]. split; [done|].
  split; [by apply fresh_entry_None|]. split; [done|].
  unfold _openslide_performance_warn_once.
  destruct Hlatch as [[-> ->]|[-> ->]]; simpl; done.
Qed.

Lemma put_overlarge_rejected_witness :
  0 <= 8 < 2 ^ 64
  ∧ disciplined [Put 7 0 0 1000 4] (initial_mem 8)
  ∧ run [Put 7 0 0 1000 4] (initial_mem 8)
    = Ok (tt, inserted (7, 0, 0) 1%positive 4
                (with_entry (new_entry 1000 4) (initial_mem 8)))
  ∧ 16 > capacity (cache (inserted (7, 0, 0) 1%positive 4
                            (with_entry (new_entry 1000 4) (initial_mem 8))))
  ∧ exists m',
      _openslide_cache_put 7 1 0 2000 16
        (inserted (7, 0, 0) 1%positive 4
           (with_entry (new_entry 1000 4) (initial_mem 8)))
      = Ok (3%positive, m')
      ∧ queue (cache m') = [2%positive]
      ∧ total_size (cache m') = 4
      ∧ entries m' !! 3%positive
        = Some {| refcount := 1; data := 2000; size := 16 |}
      ∧ warned_overlarge_entry (cache m') = 1
      ∧ warnings m' = 1%nat.
Proof.
  assert (Hc : 0 <= 8 < 2 ^ 64) by lia.
  assert (Hwf : disciplined [Put 7 0 0 1000 4] (initial_mem 8)).
  { apply (bool_decide_unpack _). vm_compute. exact I. }
  assert (Hrun : run [Put 7 0 0 1000 4] (initial_mem 8)
    = Ok (tt, inserted (7, 0, 0) 1%positive 4
                (with_entry (new_entry 1000 4) (initial_mem 8))))
    by (vm_compute; reflexivity).
  assert (Hgt : 16 > capacity (cache (inserted (7, 0, 0) 1%positive 4
                            (with_entry (new_entry 1000 4) (initial_mem 8)))))
    by (simpl; lia).
  split; [exact Hc|]. split; [exact Hwf|]. split; [exact Hrun|].
  split; [exact Hgt|].
  destruct (put_overlarge_rejected 8 [Put 7 0 0 1000 4] _ 7 1 0 2000 16
              Hc Hwf Hrun Hgt)
    as (m' & Hput & Hh & Hq & Ht & Hv & Hfresh & He & Hw & Hws & _).
  exists m'. split; [exact Hput|]. split; [by rewrite Hq|].
  split; [by rewrite Ht|]. split; [by rewrite He|]. split; [exact Hw|exact Hws].
Defined.

(** C3.  Get semantics: in a cache state that satisfies the
    representation invariant, a get on a resident key returns the data
    pointer and the entry of the value indexed under the key, moves the
    node of that value to the head of the recency list (the other nodes
    keep their order), and increments the refcount of the held entry by
    one (a [gint] increment: exactly +1 below G_MAXINT); everything else is
    unchanged.  On a key that is not resident it returns NULL with
    [*entry = NULL] and the state is unchanged. *)
Theorem get_semantics (m : mem) (plane x y : Z) :
  cache_inv m ->
  match hashtable (cache m) !! (plane, x, y) with
  | Some value =>
      exists v e m',
        values m !! value = Some v
        ∧ key v = (plane, x, y)
        ∧ entries m !! entry v = Some e
        ∧ value ∈ queue (cache m)
        ∧ _openslide_cache_get plane x y m = Ok ((data e, Some (entry v)), m')
        ∧ queue (cache m') = value :: g_queue_delete_link (queue (cache m)) value
        ∧ entries m' =
            <[entry v := {| refcount := g_atomic_int_inc (refcount e);
                            data := data e; size := size e |}]> (entries m)
        ∧ (- 2 ^ 31 <= refcount e < gint_max ->
           g_atomic_int_inc (refcount e) = refcount e + 1)
        ∧ hashtable (cache m') = hashtable (cache m)
        ∧ total_size (cache m') = total_size (cache m)
        ∧ capacity (cache m') = capacity (cache m)
        ∧ values m' = values m
        ∧ next m' = next m
  | None => _openslide_cache_get plane x y m = Ok ((0, None), m)
  end.
Proof.
  intros Hinv.
  destruct (hashtable (cache m) !! (plane, x, y)) as [value|] eqn:Hk.
  - destruct (inv_table m Hinv _ _ Hk) as (Hin & v & Hv & Hkv).
    destruct (inv_queue m Hinv _ Hin) as (v' & e & Hv' & _ & He & _).
    assert (v' = v) as -> by congruence.
    exists v, e, (touched value v e m).
    split; [done|]. split; [done|]. split; [done|]. split; [done|].
    split; [by apply get_hit_run|]. split; [done|]. split; [done|].
    split; [apply g_atomic_int_inc_no_wrap|]. done.
  - by apply get_miss_run.
Qed.

Definition two_tiles : mem :=
  inserted (7, 1, 0) 3%positive 20
    (with_entry (new_entry 1001 20)
       (inserted (7, 0, 0) 1%positive 10
          (with_entry (new_entry 1000 10) (initial_mem 100)))).

Lemma two_tiles_reachable :
  run [Put 7 0 0 1000 10; Put 7 1 0 1001 20] (initial_mem 100)
  = Ok (tt, two_tiles).
Proof. vm_compute. reflexivity. Qed.

Lemma two_tiles_inv : cache_inv two_tiles.
Proof.
  apply (reachable_inv 100 [Put 7 0 0 1000 10; Put 7 1 0 1001 20]).
  - lia.
  - apply (bool_decide_unpack _). vm_compute. exact I.
  - exact two_tiles_reachable.
Qed.

Lemma get_semantics_witness :
  cache_inv two_tiles
  ∧ (exists m',
       _openslide_cache_get 7 0 0 two_tiles = Ok ((1000, Some 1%positive), m')
       ∧ queue (cache two_tiles) = [4%positive; 2%positive]
       ∧ queue (cache m') = [2%positive; 4%positive]
       ∧ entries two_tiles !! 1%positive
         = Some {| refcount := 2; data := 1000; size := 10 |}
       ∧ entries m' !! 1%positive
         = Some {| refcount := 3; data := 1000; size := 10 |})
  ∧ _openslide_cache_get 7 5 5 two_tiles = Ok ((0, None), two_tiles).
Proof.
  split; [exact two_tiles_inv|]. split.
  - pose proof (get_semantics two_tiles 7 0 0 two_tiles_inv) as H.
    change (hashtable (cache two_tiles) !! (7, 0, 0))
      with (Some 2%positive) in H.
    destruct H as (v & e & m' & Hv & _ & He & _ & Hget & Hq & Hes & _).
    change (values two_tiles !! 2%positive)
      with (Some {| key := (7, 0, 0); entry := 1%positive |}) in Hv.
    injection Hv as <-.
    change (entries two_tiles !! 1%positive)
      with (Some {| refcount := 2; data := 1000; size := 10 |}) in He.
    injection He as <-.
    exists m'. split; [exact Hget|]. split; [reflexivity|].
    split; [rewrite Hq; reflexivity|]. split; [reflexivity|].
    rewrite Hes. reflexivity.
  - exact (get_semantics two_tiles 7 5 5 two_tiles_inv).
Defined.

(** C10.  Implicit precondition of put: with [size_in_bytes = 0] the
    over-large test does not fire, [possibly_evict] is entered with an
    incoming size of 0 and its assertion [size > cache->total_size] fails,
    so the call aborts the process, in every state whose [total_size] and
    [capacity] are values of their type.  With a size of at least 1 that
    fits the capacity and does not wrap the 64-bit sum the call returns. *)
Theorem put_zero_size_aborts (m : mem) (plane x y data : Z) :
  0 <= total_size (cache m) < 2 ^ 64 ->
  0 <= capacity (cache m) ->
  _openslide_cache_put plane x y data 0 m = Abort
  ∧ forall sz,
      cache_inv m ->
      0 < sz <= capacity (cache m) ->
      total_size (cache m) + sz < 2 ^ 64 ->
      exists m', _openslide_cache_put plane x y data sz m = Ok (next m, m').
Proof.
  intros Ht Hc. split.
  - unfold _openslide_cache_put. unfold_monad.
    rewrite decide_False by lia.
    unfold possibly_evict. unfold_monad.
    rewrite bool_decide_eq_false_2; [done|].
    unfold wrap64. rewrite Z.add_0_r, Z.mod_small; lia.
  - intros sz Hinv Hsz Hno.
    destruct (put_fits_inv m plane x y data sz Hinv)
      as [[_ [?|?]]|(_ & _ & m' & Hrun & _)]; [lia|lia|lia|].
    by exists m'.
Qed.

Lemma put_zero_size_aborts_witness :
  0 <= total_size (cache (initial_mem 100)) < 2 ^ 64
  ∧ 0 <= capacity (cache (initial_mem 100))
  ∧ _openslide_cache_put 7 0 0 1000 0 (initial_mem 100) = Abort.
Proof.
  assert (Ht : 0 <= total_size (cache (initial_mem 100)) < 2 ^ 64)
    by (simpl; lia).
  assert (Hc : 0 <= capacity (cache (initial_mem 100))) by (simpl; lia).
  split; [exact Ht|]. split; [exact Hc|].
  exact (proj1 (put_zero_size_aborts (initial_mem 100) 7 0 0 1000 Ht Hc)).
Defined.

End CacheProps.

(** * The VSF backend: openslide-vendor-vsf.c *)

Module Vsf.

Definition rbind {A B} (c : result A) (k : A -> result B) : result B :=
  match c with
  | Ok a => k a
  | Error msg => Error msg
  | Abort => Abort
  | Undefined => Undefined
  | Timeout => Timeout
  end.

Declare Scope vsf_scope.
Delimit Scope vsf_scope with vsf.
Notation "v <- c1 ;; c2" := (rbind c1 (fun v => c2))
  (at level 100, c1 at next level, right associativity) : vsf_scope.
Local Open Scope vsf_scope.

(** ** Files and streams

    The file system is a finite map from the paths that can be opened for
    reading to their bytes.  A [FILE] is the content of the opened file
    and the read position.  C strings are modelled by their characters.
    Two buffers have their capacity modelled: the array that sprintf fills
    in [_create_file_name_for_layer], and the heap block of
    [_create_file_name_with_extension], which has no room for a
    terminator. *)

Record FILE := { content : list byte; pos : Z }.

(* the GError that a function outside these files leaves when it fails
   (_openslide_fopen, the codecs): its text is not in these files *)
Definition callee_error : string := "error set by the callee".

Definition _openslide_fopen (fs : gmap string (list byte)) (path : string)
  : option FILE :=
  match fs !! path with
  | Some bytes => Some {| content := bytes; pos := 0 |}
  | None => None
  end.

Inductive whence := SEEK_SET | SEEK_CUR | SEEK_END.

(* fseeko: the result is ignored everywhere in this file; a seek to a
   negative or unrepresentable position fails and leaves the position.  A
   file system also refuses a position above its largest file offset,
   which lies at or above the end of every file it holds; the model has
   no such limit. *)
Definition fseeko (fd : FILE) (offset : Z) (w : whence) : FILE :=
  let base :=
    match w with
    | SEEK_SET => 0
    | SEEK_CUR => pos fd
    | SEEK_END => Z.of_nat (length (content fd))
    end in
  if decide (0 <= base + offset < 2 ^ 63)
  then {| content := content fd; pos := base + offset |}
  else fd.

Definition ftello (fd : FILE) : Z := pos fd.

(* A block of characters on the heap that is filled to its last byte: no
   terminator follows the characters inside the block. *)
Record char_block := { stored : string }.

(* a heap on which the byte behind every such block is zero *)
Definition zero_behind (block : char_block) : option string :=
  Some String.EmptyString.

(* the bytes from the read position to the end of the file *)
Definition unread (fd : FILE) : list byte :=
  drop (Z.to_nat (pos fd)) (content fd).

(* fread(ptr, size, nmemb, fd): the bytes stored, the number of complete
   items, and the stream afterwards.  With size or nmemb zero nothing is
   read. *)
Definition fread (fd : FILE) (size nmemb : Z) : list byte * Z * FILE :=
  if decide (size = 0 ∨ nmemb = 0) then ([], 0, fd)
  else
    let got := take (Z.to_nat (size * nmemb)) (unread fd) in
    (got, Z.of_nat (length got) / size,
     {| content := content fd; pos := pos fd + Z.of_nat (length got) |}).

Section Platform.

(* What the division of a size_t by zero does on the machine: [None] when
   it traps (undefined behaviour that kills the process, as on x86), or
   the quotient the hardware delivers (0 on AArch64). *)
Variable udiv_zero : option Z.

(* whether plain [char] is a signed type *)
Variable char_signed : bool.

(* What a read of a [char_block] as a C string finds behind the block:
   [None] when the read past the block faults, otherwise the characters
   that lie there before the first zero byte (none when the byte behind
   the block happens to be zero).  It depends on the allocator and on the
   state of the heap; the model takes it as a function of the block. *)
Variable past_block : char_block -> option string.

(* the C string that a pointer to the block reads as *)
Definition read_as_string (block : char_block) : result string :=
  match past_block block with
  | Some tail => Ok (stored block +:+ tail)
  | None => Undefined
  end.

Definition size_t_div (a b : Z) : result Z :=
  if decide (b = 0) then
    match udiv_zero with
    | Some q => Ok q
    | None => Undefined
    end
  else Ok (a / b).

(* the value of a byte of a char array *)
Definition char_of_byte (b : byte) : Z :=
  if char_signed then to_signed 8 (byte.unsigned b) else byte.unsigned b.

(** ** _read_bytes

    Returns the bytes of the complete blocks stored in the buffer and the
    stream; the C return value [bytes_read_total] is their number. *)

Fixpoint _read_bytes_loop (fuel : nat) (fd : FILE) (buffer : list byte)
    (bytes_remaining block_size : Z) : result (list byte * FILE) :=
  match fuel with
  | O => Timeout
  | S fuel' =>
      nmemb <- size_t_div bytes_remaining block_size ;;
      let '(got, blocks_read, fd') := fread fd block_size nmemb in
      if decide (blocks_read > 0) then
        let buffer := buffer ++ take (Z.to_nat (blocks_read * block_size)) got in
        let bytes_remaining := bytes_remaining - blocks_read * block_size in
        let block_size := Z.min bytes_remaining 4096 in
        if decide (bytes_remaining = 0) then Ok (buffer, fd')
        else _read_bytes_loop fuel' fd' buffer bytes_remaining block_size
      else Ok (buffer, fd')
  end.

Definition _read_bytes (fd : FILE) (size : Z) : result (list byte * FILE) :=
  _read_bytes_loop (S (Z.to_nat size)) fd [] size (Z.min size 4096).

(* the C return value of _read_bytes *)
Definition bytes_read_total (r : list byte * FILE) : Z := Z.of_nat (length r.1).

Lemma unread_advance (fd : FILE) (k : Z) :
  0 <= pos fd -> 0 <= k ->
  unread {| content := content fd; pos := pos fd + k |}
  = drop (Z.to_nat k) (unread fd).
Proof.
  intros Hp Hk. unfold unread. simpl.
  rewrite Z2Nat.inj_add by lia. by rewrite drop_drop.
Qed.

Lemma fread_length (fd : FILE) (size nmemb : Z) :
  0 < size -> 0 <= nmemb ->
  let '(got, blocks_read, fd') := fread fd size nmemb in
  Z.of_nat (length got) <= size * nmemb
  ∧ Z.of_nat (length got) <= Z.of_nat (length (unread fd))
  ∧ 0 <= blocks_read <= nmemb
  ∧ blocks_read * size <= Z.of_nat (length got)
  ∧ content fd' = content fd
  ∧ pos fd' = pos fd + Z.of_nat (length got).
Proof.
  intros Hs Hn. unfold fread.
  destruct (decide (size = 0 ∨ nmemb = 0)) as [[?| ->]|Hnz]; [lia| |].
  - simpl. repeat split; lia.
  - assert (Hlen : Z.of_nat (length (take (Z.to_nat (size * nmemb)) (unread fd)))
                   <= size * nmemb
                   ∧ Z.of_nat (length (take (Z.to_nat (size * nmemb)) (unread fd)))
                     <= Z.of_nat (length (unread fd))).
    { rewrite length_take. split; [|lia].
      assert (0 <= size * nmemb) by nia. lia. }
    destruct Hlen as [Hl1 Hl2]. simpl.
    set (g := Z.of_nat (length (take (Z.to_nat (size * nmemb)) (unread fd)))) in *.
    assert (0 <= g) by (subst g; lia).
    pose proof (Z.mul_div_le g size Hs).
    pose proof (Z.div_pos g size).
    assert (g / size <= nmemb).
    { apply Z.div_le_upper_bound; [lia|]. lia. }
    repeat split; try done; try lia.
Qed.

(* the loop returns, and never reports more bytes than were asked for or
   than the file still holds *)
Lemma _read_bytes_loop_bound (fuel : nat) :
  forall (fd : FILE) (buffer : list byte) (bytes_remaining block_size : Z),
  0 <= pos fd ->
  0 < block_size <= bytes_remaining ->
  (Z.to_nat bytes_remaining < fuel)%nat ->
  exists r, _read_bytes_loop fuel fd buffer bytes_remaining block_size = Ok r
    ∧ Z.of_nat (length r.1)
      <= Z.of_nat (length buffer) + Z.of_nat (length (unread fd))
    ∧ Z.of_nat (length r.1) <= Z.of_nat (length buffer) + bytes_remaining
    ∧ content r.2 = content fd.
Proof.
  induction fuel as [|fuel IH]; intros fd buffer rem block Hpos Hblock Hfuel;
    [lia|].
  simpl. unfold size_t_div. rewrite decide_False by lia. simpl.
  assert (Hn : 0 <= rem / block) by (apply Z.div_pos; lia).
  pose proof (fread_length fd block (rem / block) ltac:(lia) Hn) as Hfr.
  destruct (fread fd block (rem / block)) as [[got blocks_read] fd'].
  destruct Hfr as (Hg1 & Hg2 & Hb & Hbg & Hc & Hp).
  pose proof (Z.mul_div_le rem block ltac:(lia)) as Hmd.
  destruct (decide (blocks_read > 0)) as [Hgt|Hle].
  - assert (Hlenb : Z.of_nat (length (buffer ++ take (Z.to_nat (blocks_read * block)) got))
                    = Z.of_nat (length buffer) + blocks_read * block).
    { rewrite length_app, length_take. nia. }
    assert (Hrem : 0 <= rem - blocks_read * block) by nia.
    destruct (decide (rem - blocks_read * block = 0)) as [Hz|Hnz].
    + eexists. split; [done|]. simpl. rewrite Hlenb. repeat split; try lia. done.
    + destruct (IH fd' (buffer ++ take (Z.to_nat (blocks_read * block)) got)
                  (rem - blocks_read * block)
                  (Z.min (rem - blocks_read * block) 4096))
        as (r & Hrun & Hr1 & Hr2 & Hr3); try lia.
      exists r. split; [done|]. rewrite Hlenb in Hr1, Hr2.
      assert (Hun : Z.of_nat (length (unread fd'))
                    = Z.of_nat (length (unread fd)) - Z.of_nat (length got)).
      { destruct fd' as [c' p']. simpl in Hc, Hp. subst c' p'.
        rewrite unread_advance by lia. rewrite length_drop. lia. }
      repeat split; try lia. congruence.
  - eexists. split; [done|]. simpl. repeat split; try lia. done.
Qed.

Lemma _read_bytes_returns (fd : FILE) (size : Z) :
  0 <= pos fd -> 0 < size ->
  exists r, _read_bytes fd size = Ok r
    ∧ bytes_read_total r <= Z.of_nat (length (unread fd))
    ∧ bytes_read_total r <= size.
Proof.
  intros Hp Hs. unfold _read_bytes.
  destruct (_read_bytes_loop_bound (S (Z.to_nat size)) fd [] size
              (Z.min size 4096)) as (r & Hrun & H1 & H2 & _); try lia.
  exists r. split; [done|]. unfold bytes_read_total. simpl in *. lia.
Qed.

(* too few bytes left: the count differs from the size asked for *)
Lemma _read_bytes_short (fd : FILE) (size : Z) :
  0 <= pos fd -> 0 < size ->
  Z.of_nat (length (unread fd)) < size ->
  exists r, _read_bytes fd size = Ok r ∧ bytes_read_total r < size.
Proof.
  intros Hp Hs Hshort.
  destruct (_read_bytes_returns fd size Hp Hs) as (r & Hrun & H1 & _).
  exists r. split; [done|lia].
Qed.

Lemma fread_enough (fd : FILE) (size nmemb : Z) :
  0 < size -> 0 < nmemb ->
  size * nmemb <= Z.of_nat (length (unread fd)) ->
  fread fd size nmemb =
    (take (Z.to_nat (size * nmemb)) (unread fd), nmemb,
     {| content := content fd; pos := pos fd + size * nmemb |}).
Proof.
  intros Hs Hn Hav. unfold fread. rewrite decide_False by lia.
  assert (Hlen : Z.of_nat (length (take (Z.to_nat (size * nmemb)) (unread fd)))
                 = size * nmemb).
  { rewrite length_take. nia. }
  rewrite Hlen. f_equal. f_equal. rewrite Z.mul_comm. apply Z.div_mul. lia.
Qed.

(* enough bytes left: exactly [size] bytes are read from the position *)
Lemma _read_bytes_enough (fd : FILE) (size : Z) :
  0 <= pos fd -> 0 < size ->
  size <= Z.of_nat (length (unread fd)) ->
  _read_bytes fd size =
    Ok (take (Z.to_nat size) (unread fd),
        {| content := content fd; pos := pos fd + size |}).
Proof.
  intros Hp Hs Hav. unfold _read_bytes.
  destruct (decide (size <= 4096)) as [Hsmall|Hbig].
  - rewrite Z.min_l by lia. simpl.
    unfold size_t_div. rewrite decide_False by lia. simpl.
    rewrite Z.div_same by lia.
    rewrite fread_enough by lia.
    rewrite decide_True by lia.
    rewrite decide_True by lia.
    rewrite Z.mul_1_l, Z.mul_1_r, take_take, Nat.min_id. done.
  - rewrite Z.min_r by lia.
    destruct (Z.to_nat size) as [|fuel] eqn:Hfuel; [lia|].
    cbn [_read_bytes_loop]. unfold size_t_div. rewrite decide_False by lia.
    cbn [rbind].
    set (n := size / 4096).
    assert (Hn : 0 < n) by (subst n; apply Z.div_str_pos; lia).
    pose proof (Z.mul_div_le size 4096 ltac:(lia)) as Hle. fold n in Hle.
    pose proof (Z.mod_pos_bound size 4096 ltac:(lia)) as Hmod.
    pose proof (Z.div_mod size 4096 ltac:(lia)) as Hdm. fold n in Hdm.
    rewrite fread_enough by lia.
    rewrite decide_True by lia.
    rewrite (Z.mul_comm n 4096), take_take, Nat.min_id, app_nil_l.
    destruct (decide (size - 4096 * n = 0)) as [Hz|Hnz].
    + rewrite <- Hfuel. replace (4096 * n) with size by lia. done.
    + set (fd' := {| content := content fd; pos := pos fd + 4096 * n |}).
      assert (Hun : unread fd' = drop (Z.to_nat (4096 * n)) (unread fd)).
      { subst fd'. apply unread_advance; lia. }
      rewrite Z.min_l by lia.
      cbn [_read_bytes_loop]. unfold size_t_div. rewrite decide_False by lia.
      cbn [rbind]. rewrite Z.div_same by lia.
      rewrite fread_enough; [|lia|lia|].
      2:{ rewrite Hun, length_drop. lia. }
      rewrite decide_True by lia.
      rewrite decide_True by lia.
      rewrite Z.mul_1_l, Z.mul_1_r, take_take, Nat.min_id.
      rewrite Hun, take_take_drop, <- Hfuel.
      subst fd'. simpl. f_equal. f_equal.
      * f_equal. lia.
      * f_equal. lia.
Qed.

(* a size of zero divides by zero *)
Lemma _read_bytes_zero (fd : FILE) :
  _read_bytes fd 0 =
    match udiv_zero with
    | Some _ => Ok ([], fd)
    | None => Undefined
    end.
Proof.
  unfold _read_bytes. simpl. unfold size_t_div. simpl.
  by destruct udiv_zero as [q|].
Qed.

(** ** The index file *)

Definition INDEX_FILE_EXTENSION : string := ".vsf".
Definition IMAGE_FILE_EXTENSION : string := ".img".

Definition tile_format_jpeg : Z := 0.
Definition tile_format_jpeg2000 : Z := 1.
Definition tile_format_png : Z := 2.
Definition tile_format_bmp : Z := 3.

(* struct _index_file_content (packed); [header] holds the bytes of
   header[30] that were read, [z_range] the four bytes of the float *)
Record index_file_content := {
  header : list byte;
  level_count : Z;                (* uint8_t, offset 30 *)
  r : Z;                          (* uint8_t, offset 31 *)
  g : Z;                          (* uint8_t, offset 32 *)
  b : Z;                          (* uint8_t, offset 33 *)
  size_x : Z;                     (* int32_t, offset 34 *)
  size_y : Z;                     (* int32_t, offset 38 *)
  resolution_x : Z;               (* int32_t, offset 42 *)
  resolution_y : Z;               (* int32_t, offset 46 *)
  format : Z;                     (* uint8_t, offset 50 *)
  quality : Z;                    (* uint8_t, offset 51 *)
  tile_size_x : Z;                (* int32_t, offset 52 *)
  tile_size_y : Z;                (* int32_t, offset 56 *)
  lowest_focal_plane_index : Z;   (* int32_t, offset 60 *)
  highest_focal_plane_index : Z;  (* int32_t, offset 64 *)
  z_range : list byte;            (* float, offset 68 *)
  major_version : Z;              (* uint8_t, offset 72 *)
  minor_version : Z               (* uint8_t, offset 73 *)
}.

(* little-endian integers stored in a byte buffer *)
Definition uint8_at (bs : list byte) (off : nat) : Z :=
  le_combine (take 1 (drop off bs)).
Definition int32_at (bs : list byte) (off : nat) : Z :=
  to_signed 32 (le_combine (take 4 (drop off bs))).
Definition uint64_at (bs : list byte) (off : nat) : Z :=
  le_combine (take 8 (drop off bs)).

(* the defaults _read_index_file_content sets up first *)
Definition with_defaults (c : index_file_content) : index_file_content :=
  {| header := header c; level_count := 9; r := 255; g := 255; b := 255;
     size_x := size_x c; size_y := size_y c;
     resolution_x := 0; resolution_y := 0;
     format := tile_format_jpeg; quality := 0;
     tile_size_x := tile_size_x c; tile_size_y := tile_size_y c;
     lowest_focal_plane_index := 0; highest_focal_plane_index := 0;
     z_range := le_split 4 0;
     major_version := major_version c; minor_version := minor_version c |}.

(* the four fields a major-1 header stores *)
Definition with_sizes (sx sy tx ty : Z) (c : index_file_content)
  : index_file_content :=
  {| header := header c; level_count := level_count c;
     r := r c; g := g c; b := b c;
     size_x := sx; size_y := sy;
     resolution_x := resolution_x c; resolution_y := resolution_y c;
     format := format c; quality := quality c;
     tile_size_x := tx; tile_size_y := ty;
     lowest_focal_plane_index := lowest_focal_plane_index c;
     highest_focal_plane_index := highest_focal_plane_index c;
     z_range := z_range c;
     major_version := major_version c; minor_version := minor_version c |}.

(* the struct after its first [n] bytes (60 or 72) were overwritten by
   [bs]; the bytes from 60 on keep their value when only 60 are read *)
Definition overwrite_struct (n : Z) (bs : list byte) (c : index_file_content)
  : index_file_content :=
  {| header := take 30 bs;
     level_count := uint8_at bs 30;
     r := uint8_at bs 31; g := uint8_at bs 32; b := uint8_at bs 33;
     size_x := int32_at bs 34; size_y := int32_at bs 38;
     resolution_x := int32_at bs 42; resolution_y := int32_at bs 46;
     format := uint8_at bs 50; quality := uint8_at bs 51;
     tile_size_x := int32_at bs 52; tile_size_y := int32_at bs 56;
     lowest_focal_plane_index :=
       if decide (n = 60) then lowest_focal_plane_index c else int32_at bs 60;
     highest_focal_plane_index :=
       if decide (n = 60) then highest_focal_plane_index c else int32_at bs 64;
     z_range := if decide (n = 60) then z_range c else take 4 (drop 68 bs);
     major_version := major_version c; minor_version := minor_version c |}.

(* _read_bytes into an object of [size] bytes: the bytes when all of them
   arrived, else the error message of the caller *)
Definition read_exactly (fd : FILE) (size : Z) (msg : string)
  : result (list byte * FILE) :=
  res <- _read_bytes fd size ;;
  if decide (bytes_read_total res = size) then Ok res else Error msg.

(** ** _read_index_file_content *)

Definition _read_index_file_content (fd : FILE) (content : index_file_content)
  : result index_file_content :=
  (* Setup default values in the metadata struct *)
  let content := with_defaults content in
  if decide (major_version content = 1) then
    seek <- match minor_version content with
            | 0 => Ok 9
            | 1 => Ok 13
            | 2 => Ok 25
            | _ => Error "Unsupported product version"
            end ;;
    (* Seek to content start *)
    let fd := fseeko fd seek SEEK_SET in
    r1 <- read_exactly fd 4 "Failed parsing header data" ;;
    r2 <- read_exactly r1.2 4 "Failed parsing header data" ;;
    r3 <- read_exactly r2.2 4 "Failed parsing header data" ;;
    r4 <- read_exactly r3.2 4 "Failed parsing header data" ;;
    Ok (with_sizes (int32_at r1.1 0) (int32_at r2.1 0)
          (int32_at r3.1 0) (int32_at r4.1 0) content)
  else if decide (major_version content = 2) then
    (* Depending on the minor version is the available header information *)
    let fd := fseeko fd 0 SEEK_SET in
    let header_size := if decide (minor_version content = 0) then 60 else 72 in
    res <- read_exactly fd header_size "Failed parsing header data" ;;
    Ok (overwrite_struct header_size res.1 content)
  else Ok content.

(** ** Strings and file names *)

Definition strlen (s : string) : Z := Z.of_nat (String.length s).

(* conversion of an int to plain char *)
Definition to_char (z : Z) : Z :=
  if char_signed then to_signed 8 z else z mod 2 ^ 8.

Definition char_of_ascii (c : Ascii.ascii) : Z := char_of_byte (Ascii.byte_of_ascii c).

(* the loop of _read_index_file over the last characters of the name:
   lowercase the letter if required, match with the extension *)
Fixpoint extension_matches (extension expected : list Ascii.ascii) : bool :=
  match extension, expected with
  | c :: extension', e :: expected' =>
      let c := char_of_ascii c in
      let s := to_char (c + (if decide (65 <= c ∧ c <= 90) then 32 else 0)) in
      if decide (s ≠ char_of_ascii e) then false
      else extension_matches extension' expected'
  | _, _ => true
  end.

(* sprintf conversions "%1i", "%02i" and "%+02d" *)
Definition format_1i (n : Z) : string := pretty n.
Definition format_02i (n : Z) : string :=
  if decide (0 <= n < 10) then "0" +:+ pretty n else pretty n.
Definition format_plus_02d (n : Z) : string :=
  if decide (0 <= n) then "+" +:+ pretty n else pretty n.

(* _create_file_name_with_extension: the name without its last four
   characters, followed by [extension].  A name shorter than the index
   extension makes the unsigned length difference wrap.  The block of
   g_malloc0(result_length) is filled to its last byte by the two memcpy
   and the code stores no terminator: the result is the block, not a C
   string. *)
Definition _create_file_name_with_extension (filename extension : string)
  : result char_block :=
  let length := wrap32 (strlen filename) in
  let extension_length := wrap8 (strlen INDEX_FILE_EXTENSION) in
  if decide (length < extension_length) then Undefined
  else
    Ok {| stored :=
            String.string_of_list_ascii
              (take (Z.to_nat (length - extension_length))
                 (String.list_ascii_of_string filename))
            +:+ extension |}.

(* _create_file_name_for_layer; [layer] is a uint8_t, [focal_plane_index]
   an int32_t.  sprintf writes into an array of [extension_length]
   characters: a longer text overflows it. *)
Definition _create_file_name_for_layer (file_info : index_file_content)
    (filename : string) (layer focal_plane_index : Z) : result char_block :=
  let extension_length :=
    strlen IMAGE_FILE_EXTENSION + strlen "-levelXX" + 2
    + (if decide (focal_plane_index ≠ 0) then 3 else 0) in
  let extension :=
    if decide (major_version file_info = 1) then
      "-level" +:+ format_1i layer +:+ IMAGE_FILE_EXTENSION
    else if decide (focal_plane_index = 0) then
      "-level" +:+ format_02i layer +:+ IMAGE_FILE_EXTENSION
    else
      "-level" +:+ format_02i layer +:+ format_plus_02d focal_plane_index
      +:+ IMAGE_FILE_EXTENSION in
  if decide (strlen extension + 1 > extension_length) then Undefined
  else _create_file_name_with_extension filename extension.

Section Backend.

Variable fs : gmap string (list byte).

(* _has_file_name_for_layer: true iff the file opens whose path
   _openslide_fopen reads from the block *)
Definition _has_file_name_for_layer (file_info : index_file_content)
    (filename : string) (layer focal_plane_index : Z) : result bool :=
  image_filename <-
    _create_file_name_for_layer file_info filename layer focal_plane_index ;;
  image_path <- read_as_string image_filename ;;
  match _openslide_fopen fs image_path with
  | Some file_pointer => Ok true
  | None => Ok false
  end.

(** ** _read_index_file *)

Definition header_char (header : list byte) (i : nat) : Z :=
  match header !! i with
  | Some c => char_of_byte c
  | None => 0
  end.

(* the local struct [result] of _read_index_file once the header bytes
   and the version are stored in it; the other fields are not read before
   they are written *)
Definition with_version (hdr : list byte) (major minor : Z)
  : index_file_content :=
  {| header := hdr; level_count := 0; r := 0; g := 0; b := 0;
     size_x := 0; size_y := 0; resolution_x := 0; resolution_y := 0;
     format := 0; quality := 0; tile_size_x := 0; tile_size_y := 0;
     lowest_focal_plane_index := 0; highest_focal_plane_index := 0;
     z_range := []; major_version := major; minor_version := minor |}.

(* "Validate the product version": the (major, minor) pair, if valid *)
Definition product_version (header : list byte) : option (Z * Z) :=
  if decide (header_char header 1 = 49) then            (* '1' *)
    if decide (header_char header 3 = 48                (* '0' *)
               ∨ header_char header 3 = 49
               ∨ header_char header 3 = 50)
    then Some (1, wrap8 (header_char header 3 - 48))
    else None
  else if decide (header_char header 3 >= 50
                  ∧ header_char header 5 >= 48
                  ∧ header_char header 5 <= 57)
    then Some (2, wrap8 (header_char header 5 - 48))
    else None.

Definition _read_index_file (filename : string) : result index_file_content :=
  (* Validate file ending *)
  let length := wrap32 (strlen filename) in
  let extension_length := wrap8 (strlen INDEX_FILE_EXTENSION) in
  if decide (length <= extension_length) then Error "Inappropriate filename"
  else
    (* Validate extension *)
    let extension :=
      take (Z.to_nat extension_length)
        (drop (Z.to_nat (length - extension_length))
           (String.list_ascii_of_string filename)) in
    if extension_matches extension (String.list_ascii_of_string INDEX_FILE_EXTENSION)
    then
      (* Try to open the given filename *)
      match _openslide_fopen fs filename with
      | None => Error callee_error
      | Some vsf_file =>
          (* Try to read the header from the VSF file *)
          hdr <- read_exactly vsf_file 6 "Failed to read product version" ;;
          (* Validate the product version *)
          match product_version hdr.1 with
          | None => Error "Failed to read product version"
          | Some (major, minor) =>
              (* Read the header *)
              _read_index_file_content hdr.2 (with_version hdr.1 major minor)
          end
      end
    else Error "Inappropriate filename extension".

(** ** vsf_detect *)

Fixpoint detect_focal_planes (content : index_file_content) (filename : string)
    (level : Z) (focal_planes : list Z) : result bool :=
  match focal_planes with
  | [] => Ok true
  | focal_plane :: rest =>
      present <- _has_file_name_for_layer content filename level focal_plane ;;
      if present then detect_focal_planes content filename level rest
      else Error "Missing image chunk file"
  end.

Fixpoint detect_levels (content : index_file_content) (filename : string)
    (levels : list Z) : result bool :=
  match levels with
  | [] => Ok true
  | level :: rest =>
      _ <- detect_focal_planes content filename level
             (seqZ (lowest_focal_plane_index content)
                (highest_focal_plane_index content
                 - lowest_focal_plane_index content)) ;;
      detect_levels content filename rest
  end.

(* [tl] is the prefetched TIFF structure, NULL for a file that is not a
   TIFF; a true result is [Ok true], a false one carries its GError *)
Definition vsf_detect (filename : string) (tl : option unit) : result bool :=
  match tl with
  | Some _ => Error "Is a TIFF file"   (* reject TIFFs *)
  | None =>
      (* Try to open fetch the metadata *)
      content <- _read_index_file filename ;;
      (* Validate the presence of all required files *)
      detect_levels content filename (seqZ 0 (level_count content))
  end.

End Backend.

(** ** The tile locators *)

(* the C value of [a != b] *)
Definition c_neq (a b : Z) : Z := if decide (a ≠ b) then 1 else 0.

(* an object of [width] bytes holding [old] after _read_bytes stored
   [bytes] at its start (little-endian host) *)
Definition store_bytes (width : nat) (old : Z) (bytes : list byte) : Z :=
  le_combine (take width (bytes ++ drop (length bytes) (le_split width old))).

(* _get_tile_infomation_version1.  [layer] is a uint8_t and [tile_index]
   a uint32_t; the result is (offset, size). *)
Definition _get_tile_infomation_version1 (minor_version : Z) (fd : FILE)
    (layer tile_index : Z) : result (Z * Z) :=
  let tile_index := wrap32 tile_index in
  let offset := 0 in
  let size := 0 in
  params <- match minor_version with
            | 0 => Ok (25, 12, 16, 4)
            | 1 => Ok (29, 16, 16, 8)
            | 2 => Ok (41, 16, 28, 8)
            | _ => Error "Unsupported product version"
            end ;;
  let '(seek, tile_record_size, level_record_offset, offset_size) := params in
  (* Seek to the desired position and read the amount of tiles; the size
     argument of each read is [sizeof(tiles_x) != sizeof(tiles_x)] *)
  let fd := fseeko fd seek SEEK_SET in
  rx <- _read_bytes fd (c_neq 4 4) ;;
  let tiles_x := store_bytes 4 0 rx.1 in
  if decide (bytes_read_total rx ≠ 0) then Error "Failed reading tile layout"
  else
  ry <- _read_bytes rx.2 (c_neq 4 4) ;;
  let tiles_y := store_bytes 4 0 ry.1 in
  if decide (bytes_read_total ry ≠ 0) then Error "Failed reading tile layout"
  else
  (* Proceed the file pointer to the desired level *)
  let fd :=
    Nat.iter (Z.to_nat layer)
      (fun fd =>
         fseeko fd
           (wrap32 (tiles_x * tiles_y * tile_record_size + level_record_offset))
           SEEK_CUR)
      ry.2 in
  (* Validate data *)
  if decide (wrap32 (tiles_x * tiles_y) <= tile_index)
  then Error "Tile index is invalid"
  else
  (* Skip to the position of the tile *)
  let fd := fseeko fd (wrap32 (tile_index * tile_record_size)) SEEK_CUR in
  ro <- _read_bytes fd (c_neq offset_size 1) ;;
  let offset := store_bytes 8 offset ro.1 in
  if decide (bytes_read_total ro ≠ 0) then Error "Failed reading tile offset"
  else
  let offset := Z.shiftr offset ((8 - offset_size) * 8) in
  rs <- _read_bytes ro.2 (c_neq 4 4) ;;
  let size := store_bytes 8 size rs.1 in
  if decide (bytes_read_total rs ≠ 0) then Error "Failed reading tile size"
  else
  let size := Z.shiftr offset 32 in
  Ok (offset, size).

(* _get_tile_infomation_version2; [tile_index] is a uint32_t *)
Definition _get_tile_infomation_version2 (minor_version : Z) (fd : FILE)
    (tile_index : Z) : result (Z * Z) :=
  let tile_index := wrap32 tile_index in
  (* Validate data *)
  let fd := fseeko fd 8 SEEK_SET in
  (* g_prefix_error on this path: false is returned, no GError is set *)
  rc <- read_exactly fd 8 "Failed to read tile count from" ;;
  let tile_count := uint64_at rc.1 0 in
  if decide (tile_count <= tile_index) then Error "Tile index is invalid"
  else
  (* Read tile size *)
  let fd := fseeko rc.2 (tile_index * 8) SEEK_CUR in
  ro <- read_exactly fd 8 "Failed to read tile offset" ;;
  let offset := uint64_at ro.1 0 in
  (* Determine the tile size *)
  next_tile_offset <-
    (if decide (tile_index ≠ wrap64 (tile_count - 1)) then
       (* Determine the location of the next tile in the file *)
       rn <- read_exactly ro.2 8 "Failed to read follow up tile offset" ;;
       Ok (uint64_at rn.1 0)
     else
       let fd := fseeko ro.2 0 SEEK_END in
       Ok (wrap64 (ftello fd))) ;;
  Ok (offset, wrap64 (next_tile_offset - offset)).

Section Backend.

Variable fs : gmap string (list byte).

(* _get_tile_file_location; [layer] is a uint8_t, [tile_index] an
   int32_t *)
Definition _get_tile_file_location (file_info : index_file_content)
    (filename : string) (layer tile_index : Z) : result (Z * Z) :=
  let layer := wrap8 layer in
  let tile_index := to_signed 32 tile_index in
  (* Try to open the desired file *)
  match _openslide_fopen fs filename with
  | None => Error "Can't open associated image"
  | Some fd =>
      if decide (major_version file_info = 1) then
        _get_tile_infomation_version1 (minor_version file_info) fd layer tile_index
      else if decide (major_version file_info = 2) then
        _get_tile_infomation_version2 (minor_version file_info) fd tile_index
      else Error "Unsupported product version"
  end.

(** ** The tile decoders

    The codecs are collaborators outside these files: each is a function
    from what it is handed to whether it succeeded. *)

Variable _openslide_jpeg_read_dimensions :
  gmap string (list byte) -> string -> Z -> option (Z * Z).
(* buffer, length, width, height *)
Variable _openslide_jpeg_decode_buffer : list byte -> Z -> Z -> Z -> bool.
(* width, height, buffer, length *)
Variable _openslide_jp2k_decode_buffer : Z -> Z -> list byte -> Z -> bool.
(* filename, offset, width, height *)
Variable _openslide_png_read :
  gmap string (list byte) -> string -> Z -> Z -> Z -> bool.
(* filename, offset, length, width, height *)
Variable _openslide_gdkpixbuf_read :
  gmap string (list byte) -> string -> Z -> Z -> Z -> Z -> bool.

(* the bytes a block returned by g_slice_alloc holds before anything is
   stored in it *)
Variable uninitialized : nat -> byte.

Definition jpegHeader : list byte :=
  [byte.of_Z 0xff; byte.of_Z 0xd8; byte.of_Z 0xff; byte.of_Z 0xe0;
   byte.of_Z 0x00; byte.of_Z 0x10; byte.of_Z 0x4a; byte.of_Z 0x46;
   byte.of_Z 0x49; byte.of_Z 0x46].

(* The buffer of _get_tile_data_version1 once the tile bytes are read:
   sizeof(jpegHeader) + size bytes were allocated and the tile bytes
   stored at buffer + sizeof(jpegHeader); jpegHeader itself is never
   copied into the buffer. *)
Definition version1_buffer (tile_bytes : list byte) : list byte :=
  (uninitialized <$> seq 0 (length jpegHeader)) ++ tile_bytes.

(* what _openslide_jpeg_decode_buffer(buffer, size, ...) may read *)
Definition version1_jpeg_stream (tile_bytes : list byte) (size : Z) : list byte :=
  take (Z.to_nat size) (version1_buffer tile_bytes).

(* _get_tile_data_version1; [offset] and [size] are uint64_t *)
Definition _get_tile_data_version1 (layer_filename : string)
    (offset size width height : Z) : result unit :=
  match _openslide_fopen fs layer_filename with
  | None => Error "Unable to open source file"
  | Some fd =>
      (* Version 1 tiles are always jpeg encoded *)
      let fd := fseeko fd (to_signed 64 offset) SEEK_SET in
      res <- read_exactly fd size "Unable to read required amount of data" ;;
      let decode_result :=
        _openslide_jpeg_decode_buffer (version1_jpeg_stream res.1 size) size
          width height in
      if decode_result then Ok tt else Error "Failed to decode data"
  end.

(* _read_data; g_slice_alloc(0) is NULL *)
Definition _read_data (fd : FILE) (size offset : Z) : result (list byte) :=
  if decide (size = 0) then Error "Failed to create result buffer"
  else
    let fd := fseeko fd (to_signed 64 offset) SEEK_SET in
    res <- read_exactly fd size "Failed to read data from file" ;;
    Ok res.1.

(* _get_tile_data_version2 *)
Definition _get_tile_data_version2 (index_file_content : index_file_content)
    (layer_filename : string) (offset size width height : Z) : result unit :=
  match _openslide_fopen fs layer_filename with
  | None => Error "Unable to open source file"
  | Some fd =>
      let needs_prefetch :=
        bool_decide (format index_file_content = tile_format_jpeg
                     ∨ format index_file_content = tile_format_jpeg2000) in
      (* JPEG and JPEG2000 can read data from buffers *)
      buffer <- (if needs_prefetch then _read_data fd size offset else Ok []) ;;
      (* Decode input data based on the tile format *)
      decode_result <-
        match format index_file_content with
        | 0 => Ok (_openslide_jpeg_decode_buffer buffer size width height)
        | 1 => Ok (_openslide_jp2k_decode_buffer width height buffer size)
        | 2 => Ok (_openslide_png_read fs layer_filename offset width height)
        | 3 => Ok (_openslide_gdkpixbuf_read fs layer_filename offset size
                     width height)
        | _ => Error "Unknown tile data format"
        end ;;
      if decode_result : bool then Ok tt else Error callee_error
  end.

(** ** Levels, the slide handle and read_tile *)

Record level_tile_data := {
  offset : Z;  (* uint64_t *)
  size : Z;    (* uint64_t *)
  width : Z;   (* uint64_t *)
  height : Z   (* uint64_t *)
}.

(* struct level, with the fields of its [base] that this file reads;
   [filename] is the path that the pointer reads as (vsf_open stores a
   block of _create_file_name_for_layer there) *)
Record level := {
  base_w : Z;        (* base.w, int64_t *)
  base_h : Z;        (* base.h *)
  base_tile_w : Z;   (* base.tile_w *)
  base_tile_h : Z;   (* base.tile_h *)
  filename : string;
  tiles : list level_tile_data;
  layer : Z;         (* int8_t *)
  tiles_across : Z;  (* int64_t *)
  tiles_down : Z
}.

Definition set_tiles (ts : list level_tile_data) (l : level) : level :=
  {| base_w := base_w l; base_h := base_h l;
     base_tile_w := base_tile_w l; base_tile_h := base_tile_h l;
     filename := filename l; tiles := ts; layer := layer l;
     tiles_across := tiles_across l; tiles_down := tiles_down l |}.

(* what this file reads of an openslide_t: osr->data and the property
   "vsf.filename" of osr->properties (NULL when absent) *)
Record openslide_t := {
  data : index_file_content;
  vsf_filename : option string
}.

(* openslide_get_error is defined outside these files: it reads the
   error state of the slide handle, which nothing in this file writes *)
Variable openslide_get_error : openslide_t -> option string.

(* the address g_slice_alloc returns for a block that is not empty *)
Variable tile_buffer : Z.

Definition g_slice_alloc (block_size : Z) : Z :=
  if decide (block_size = 0) then 0 else tile_buffer.

(* level_data->tiles + tile_index; outside the array it is not an object *)
Definition tile_slot (level_data : level) (tile_index : Z)
  : result level_tile_data :=
  if decide (tile_index < 0) then Undefined
  else
    match tiles level_data !! Z.to_nat tile_index with
    | Some tile_data => Ok tile_data
    | None => Undefined
    end.

Definition store_tile_slot (level_data : level) (tile_index : Z)
    (tile_data : level_tile_data) : level :=
  set_tiles (<[Z.to_nat tile_index := tile_data]> (tiles level_data)) level_data.

(* _get_tile_dimension: (width, height) as stored in the uint64_t slots *)
Definition _get_tile_dimension (osr : openslide_t) (level_data : level)
    (tile_index tile_col tile_row : Z) : result (Z * Z) :=
  (* Determine the format of the tile *)
  if decide (format (data osr) = tile_format_jpeg) then
    tile_data <- tile_slot level_data tile_index ;;
    match _openslide_jpeg_read_dimensions fs (filename level_data)
            (offset tile_data) with
    | Some (tw, th) => Ok (wrap64 tw, wrap64 th)
    | None => Error callee_error
    end
  else
    (* Calculate the dimensions *)
    Ok (wrap64 (Z.min (base_tile_w level_data)
                  (base_w level_data - tile_col * base_tile_w level_data)),
        wrap64 (Z.min (base_tile_h level_data)
                  (base_h level_data - tile_row * base_tile_h level_data))).

(* _get_tile_data: [Ok true] when a tile was decoded, [Ok false] when it
   returned false without an error (a tile of size zero) *)
Definition _get_tile_data (osr : openslide_t) (level_data : level)
    (tile_index tile_width tile_height : Z) : result bool :=
  (* Try to determine basic properties of the tile *)
  match vsf_filename osr with
  | None => Undefined   (* strlen(NULL) *)
  | Some filename =>
      layer_block <-
        _create_file_name_for_layer (data osr) filename
          (wrap8 (layer level_data)) 0 ;;
      (* the callees open the path they read from the block *)
      layer_filename <- read_as_string layer_block ;;
      (* Determine the offset and size of the tile *)
      loc <- _get_tile_file_location (data osr) layer_filename
               (layer level_data) tile_index ;;
      let '(offset, size) := loc in
      if decide (size > 0) then
        if decide (major_version (data osr) = 1) then
          _ <- _get_tile_data_version1 layer_filename offset size
                 tile_width tile_height ;;
          Ok true
        else if decide (major_version (data osr) = 2) then
          _ <- _get_tile_data_version2 (data osr) layer_filename offset size
                 tile_width tile_height ;;
          Ok true
        else Error "Unsupported product version"
      else Ok false
  end.

(* the part of read_tile after the tile data is in hand and the width
   and height of the tile were read from its descriptor: draw it (cairo is
   outside the model), release the cache entry, return true *)
Definition paint_and_release (level_data : level) (cache_entry : option positive)
    (m : Cache.mem) : result (bool * level * Cache.mem) :=
  match cache_entry with
  | None => Undefined   (* _openslide_cache_entry_unref(NULL) *)
  | Some entry =>
      match Cache._openslide_cache_entry_unref entry m with
      | Ok (_, m) => Ok (true, level_data, m)
      | Error msg => Error msg
      | Abort => Abort
      | Undefined => Undefined
      | Timeout => Timeout
      end
  end.

(* read_tile.  [level_ptr] is the address of the level (the C parameter
   [level]), the plane cookie of the cache key; the result is the return
   value, the level with its tile descriptors and the memory of the
   cache. *)
Definition read_tile (osr : openslide_t) (level_ptr : Z) (level_data : level)
    (tile_col tile_row : Z) (m : Cache.mem)
  : result (bool * level * Cache.mem) :=
  (* Read the tile data *)
  let tile_index := to_signed 64 (tile_row * tiles_across level_data + tile_col) in
  (* Try to load data from cache *)
  match Cache._openslide_cache_get level_ptr tile_col tile_row m with
  | Ok ((tiledata, cache_entry), m) =>
      (* No cached record was found, we need to load the data from file *)
      if decide (tiledata = 0) then
        (* Determine the offset and size of the tile *)
        match _get_tile_file_location (data osr) (filename level_data)
                (layer level_data) tile_index with
        | Error _ =>
            (* what the failed locator stored in the descriptor of the
               tile is not modelled *)
            Ok (false, level_data, m)
        | Ok (tile_offset, tile_size) =>
            match tile_slot level_data tile_index with
            | Ok tile_data =>
                let tile_data :=
                  {| offset := tile_offset; size := tile_size;
                     width := width tile_data; height := height tile_data |} in
                let level_data := store_tile_slot level_data tile_index tile_data in
                (* Fetch tile dimensions *)
                match _get_tile_dimension osr level_data tile_index
                        tile_col tile_row with
                | Error _ => Ok (false, level_data, m)
                | Ok (tile_width, tile_height) =>
                    let tile_data :=
                      {| offset := tile_offset; size := tile_size;
                         width := tile_width; height := tile_height |} in
                    let level_data :=
                      store_tile_slot level_data tile_index tile_data in
                    (* Fetch file properties *)
                    let buffer_size := wrap64 (tile_width * tile_height * 4) in
                    let tiledata := g_slice_alloc buffer_size in
                    match _get_tile_data osr level_data tile_index
                            tile_width tile_height with
                    | Abort => Abort
                    | Undefined => Undefined
                    | Timeout => Timeout
                    | Ok _ | Error _ =>
                        (* the result of _get_tile_data is not looked at *)
                        match openslide_get_error osr with
                        | Some _ => Ok (false, level_data, m)
                        | None =>
                            (* put it in the cache *)
                            match Cache._openslide_cache_put level_ptr tile_col
                                    tile_row tiledata buffer_size m with
                            | Ok (entry, m) =>
                                paint_and_release level_data (Some entry) m
                            | Error msg => Error msg
                            | Abort => Abort
                            | Undefined => Undefined
                            | Timeout => Timeout
                            end
                        end
                    end
                | Abort => Abort
                | Undefined => Undefined
                | Timeout => Timeout
                end
            | _ => Undefined
            end
        | Abort => Abort
        | Undefined => Undefined
        | Timeout => Timeout
        end
      else
        (* the surface is created from tile_data->width and
           tile_data->height, read from level_data->tiles + tile_index *)
        match tile_slot level_data tile_index with
        | Ok _ => paint_and_release level_data cache_entry m
        | _ => Undefined
        end
  | Error msg => Error msg
  | Abort => Abort
  | Undefined => Undefined
  | Timeout => Timeout
  end.

End Backend.

End Platform.

End Vsf.

(** * Properties of the VSF backend *)

Module VsfProps.
Import Vsf.
Local Open Scope vsf_scope.

(** ** Little-endian fields *)

Lemma to_signed_small (w z : Z) :
  0 < w -> - 2 ^ (w - 1) <= z < 2 ^ (w - 1) -> to_signed w (z mod 2 ^ w) = z.
Proof.
  intros Hw Hz. unfold to_signed.
  assert (Hp : 2 ^ w = 2 * 2 ^ (w - 1)).
  { replace w with (Z.succ (w - 1)) at 1 by lia. apply Z.pow_succ_r. lia. }
  rewrite Z.mod_mod by lia.
  destruct (decide (0 <= z)) as [Hnn|Hneg].
  - rewrite Z.mod_small by lia. rewrite decide_True; lia.
  - assert (Hu : z mod 2 ^ w = z + 2 ^ w).
    { replace z with (z + 2 ^ w + (-1) * 2 ^ w) at 1 by lia.
      rewrite Z.mod_add by lia. apply Z.mod_small. lia. }
    rewrite Hu. rewrite decide_False; lia.
Qed.

Lemma int32_at_le_split (z : Z) (rest : list byte) :
  - 2 ^ 31 <= z < 2 ^ 31 -> int32_at (le_split 4 z ++ rest) 0 = z.
Proof.
  intros Hz. unfold int32_at. rewrite drop_0.
  rewrite take_app_length' by (by rewrite length_le_split).
  rewrite le_combine_split. by apply (to_signed_small 32).
Qed.

Lemma uint64_at_le_split (z : Z) (rest : list byte) :
  0 <= z < 2 ^ 64 -> uint64_at (le_split 8 z ++ rest) 0 = z.
Proof.
  intros Hz. unfold uint64_at. rewrite drop_0.
  rewrite take_app_length' by (by rewrite length_le_split).
  rewrite le_combine_split. apply Z.mod_small. lia.
Qed.

(** ** Reading a field that is there *)

Section Reads.

Variable udiv_zero : option Z.

Lemma read_exactly_enough (fd : FILE) (size : Z) (msg : string)
    (chunk rest : list byte) :
  0 <= pos fd -> 0 < size ->
  unread fd = chunk ++ rest ->
  length chunk = Z.to_nat size ->
  read_exactly udiv_zero fd size msg =
    Ok (chunk, {| content := content fd; pos := pos fd + size |}).
Proof.
  intros Hp Hs Hun Hlen. unfold read_exactly.
  rewrite _read_bytes_enough; try done.
  - simpl. rewrite Hun, <- Hlen, take_app_length.
    unfold bytes_read_total. simpl. rewrite decide_True; [done|lia].
  - rewrite Hun, length_app. lia.
Qed.

Lemma read_exactly_short (fd : FILE) (size : Z) (msg : string) :
  0 <= pos fd -> 0 < size ->
  Z.of_nat (length (unread fd)) < size ->
  read_exactly udiv_zero fd size msg = Error msg.
Proof.
  intros Hp Hs Hshort. unfold read_exactly.
  destruct (_read_bytes_short udiv_zero fd size Hp Hs Hshort) as (r & -> & Hr).
  simpl. rewrite decide_False; [done|lia].
Qed.

Lemma unread_seek_set (fd : FILE) (seek : Z) (pre rest : list byte) :
  0 <= seek < 2 ^ 63 ->
  content fd = pre ++ rest -> length pre = Z.to_nat seek ->
  unread (fseeko fd seek SEEK_SET) = rest
  ∧ pos (fseeko fd seek SEEK_SET) = seek
  ∧ content (fseeko fd seek SEEK_SET) = content fd.
Proof.
  intros Hs Hc Hlen. unfold fseeko.
  rewrite decide_True by lia. unfold unread. cbn [pos content].
  rewrite Z.add_0_l, Hc, <- Hlen, drop_app_length. done.
Qed.

Lemma unread_step (fd : FILE) (k : Z) (chunk rest : list byte) :
  0 <= pos fd -> 0 <= k ->
  unread fd = chunk ++ rest -> length chunk = Z.to_nat k ->
  unread {| content := content fd; pos := pos fd + k |} = rest.
Proof.
  intros Hp Hk Hun Hlen. rewrite unread_advance by done.
  by rewrite Hun, <- Hlen, drop_app_length.
Qed.

End Reads.

(** ** The claims about the index file *)

(* the four fields of a major-1 header, read in order from [seek] *)
Lemma read_four_fields (udiv_zero : option Z) (fd : FILE)
    (c : index_file_content) (seek sx sy tx ty : Z) (pre rest : list byte) :
  0 <= seek < 2 ^ 63 ->
  content fd
  = pre ++ le_split 4 sx ++ le_split 4 sy ++ le_split 4 tx ++ le_split 4 ty
    ++ rest ->
  length pre = Z.to_nat seek ->
  - 2 ^ 31 <= sx < 2 ^ 31 -> - 2 ^ 31 <= sy < 2 ^ 31 ->
  - 2 ^ 31 <= tx < 2 ^ 31 -> - 2 ^ 31 <= ty < 2 ^ 31 ->
  (r1 <- read_exactly udiv_zero (fseeko fd seek SEEK_SET) 4
           "Failed parsing header data" ;;
   r2 <- read_exactly udiv_zero r1.2 4 "Failed parsing header data" ;;
   r3 <- read_exactly udiv_zero r2.2 4 "Failed parsing header data" ;;
   r4 <- read_exactly udiv_zero r3.2 4 "Failed parsing header data" ;;
   Ok (with_sizes (int32_at r1.1 0) (int32_at r2.1 0)
         (int32_at r3.1 0) (int32_at r4.1 0) c))
  = Ok (with_sizes sx sy tx ty c).
Proof.
  intros Hseek Hc Hlen Hsx Hsy Htx Hty.
  destruct (unread_seek_set fd seek pre _ Hseek Hc Hlen) as (Hun & Hpos & Hcont).
  set (fd1 := fseeko fd seek SEEK_SET) in *.
  rewrite (read_exactly_enough udiv_zero fd1 4 _ (le_split 4 sx) _
             ltac:(lia) ltac:(lia) Hun (length_le_split 4 sx)).
  cbn [rbind fst snd].
  set (fd2 := {| content := content fd1; pos := pos fd1 + 4 |}).
  assert (Hun2 := unread_step fd1 4 _ _ ltac:(lia) ltac:(lia) Hun
                    (length_le_split 4 sx)). fold fd2 in Hun2.
  rewrite (read_exactly_enough udiv_zero fd2 4 _ (le_split 4 sy) _
             ltac:(simpl; lia) ltac:(lia) Hun2 (length_le_split 4 sy)).
  cbn [rbind fst snd].
  set (fd3 := {| content := content fd2; pos := pos fd2 + 4 |}).
  assert (Hun3 := unread_step fd2 4 _ _ ltac:(simpl; lia) ltac:(lia) Hun2
                    (length_le_split 4 sy)). fold fd3 in Hun3.
  rewrite (read_exactly_enough udiv_zero fd3 4 _ (le_split 4 tx) _
             ltac:(simpl; lia) ltac:(lia) Hun3 (length_le_split 4 tx)).
  cbn [rbind fst snd].
  set (fd4 := {| content := content fd3; pos := pos fd3 + 4 |}).
  assert (Hun4 := unread_step fd3 4 _ _ ltac:(simpl; lia) ltac:(lia) Hun3
                    (length_le_split 4 tx)). fold fd4 in Hun4.
  rewrite (read_exactly_enough udiv_zero fd4 4 _ (le_split 4 ty) _
             ltac:(simpl; lia) ltac:(lia) Hun4 (length_le_split 4 ty)).
  cbn [rbind fst snd].
  rewrite <- (app_nil_r (le_split 4 sx)), <- (app_nil_r (le_split 4 sy)),
    <- (app_nil_r (le_split 4 tx)), <- (app_nil_r (le_split 4 ty)).
  by rewrite !int32_at_le_split.
Qed.

(** C6.  Major-1 header parsing: for a header struct with major version 1
    and minor version 0, 1 or 2, [_read_index_file_content] seeks to the
    absolute offset 9, 13 or 25 and reads the four little-endian 32-bit
    fields size_x, size_y, tile_size_x, tile_size_y in this order: on a
    file that stores [sx], [sy], [tx], [ty] there it returns exactly these
    values (next to the defaults of the other fields).  With any other
    minor version it fails with the version error. *)
Theorem major1_header_parsing (udiv_zero : option Z) (fd : FILE)
    (content0 : index_file_content) :
  major_version content0 = 1 ->
  (forall seek sx sy tx ty pre rest,
     (minor_version content0 = 0 ∧ seek = 9)
     ∨ (minor_version content0 = 1 ∧ seek = 13)
     ∨ (minor_version content0 = 2 ∧ seek = 25) ->
     content fd
     = pre ++ le_split 4 sx ++ le_split 4 sy ++ le_split 4 tx
       ++ le_split 4 ty ++ rest ->
     length pre = Z.to_nat seek ->
     - 2 ^ 31 <= sx < 2 ^ 31 -> - 2 ^ 31 <= sy < 2 ^ 31 ->
     - 2 ^ 31 <= tx < 2 ^ 31 -> - 2 ^ 31 <= ty < 2 ^ 31 ->
     exists content',
       _read_index_file_content udiv_zero fd content0 = Ok content'
       ∧ size_x content' = sx ∧ size_y content' = sy
       ∧ tile_size_x content' = tx ∧ tile_size_y content' = ty
       ∧ content' = with_sizes sx sy tx ty (with_defaults content0))
  ∧ (minor_version content0 ≠ 0 -> minor_version content0 ≠ 1 ->
     minor_version content0 ≠ 2 ->
     _read_index_file_content udiv_zero fd content0
     = Error "Unsupported product version").
Proof.
  intros Hmajor. split.
  - intros seek sx sy tx ty pre rest Hminor Hc Hlen Hsx Hsy Htx Hty.
    exists (with_sizes sx sy tx ty (with_defaults content0)).
    split; [|done].
    unfold _read_index_file_content.
    rewrite decide_True by done.
    assert (Hseek : 0 <= seek < 2 ^ 63) by (destruct Hminor as [[_ ->]|[[_ ->]|[_ ->]]]; lia).
    assert (Hsel : match minor_version (with_defaults content0) with
                   | 0 => Ok 9
                   | 1 => Ok 13
                   | 2 => Ok 25
                   | _ => Error "Unsupported product version"
                   end = Ok seek).
    { simpl. by destruct Hminor as [[-> ->]|[[-> ->]|[-> ->]]]. }
    rewrite Hsel. cbn [rbind].
    by apply (read_four_fields udiv_zero fd _ seek sx sy tx ty pre rest).
  - intros H0 H1 H2. unfold _read_index_file_content.
    rewrite decide_True by done. simpl.
    destruct (minor_version content0) as [|[[]|[]|]|]; done.
Qed.

(** ** The major-2 tile directory *)

Lemma length_concat_le_split (l : list Z) :
  length (concat (le_split 8 <$> l)) = (8 * length l)%nat.
Proof.
  induction l as [|a l IH]; [done|].
  rewrite fmap_cons. cbn [concat]. rewrite length_app, length_le_split, IH.
  simpl. lia.
Qed.

(* the directory split around its [i]-th offset *)
Lemma directory_split (offsets : list Z) (i : nat) (o : Z) :
  offsets !! i = Some o ->
  concat (le_split 8 <$> offsets)
  = concat (le_split 8 <$> take i offsets) ++ le_split 8 o
    ++ concat (le_split 8 <$> drop (S i) offsets)
  ∧ length (concat (le_split 8 <$> take i offsets)) = (8 * i)%nat.
Proof.
  intros Hl. split.
  - rewrite <- (take_drop_middle offsets i o Hl) at 1.
    rewrite fmap_app, concat_app, fmap_cons. done.
  - rewrite length_concat_le_split, length_take.
    apply lookup_lt_Some in Hl. lia.
Qed.

(** C8.  Major-2 tile location: on a sidecar whose bytes 8..16 hold the
    unsigned 64-bit [tile_count], followed by [tile_count] 64-bit offsets,
    the locator fails (with the invalid-index error) exactly when
    [tile_index >= tile_count]; otherwise it returns the [tile_index]-th
    stored offset, and as size the next stored offset minus it, or for the
    last tile the file length minus it (64-bit unsigned subtraction). *)
Theorem major2_tile_location (udiv_zero : option Z) (minor_version : Z)
    (fd : FILE) (tile_index tile_count : Z) (offsets : list Z)
    (pre rest : list byte) :
  content fd
  = pre ++ le_split 8 tile_count ++ concat (le_split 8 <$> offsets) ++ rest ->
  length pre = 8%nat ->
  Z.of_nat (length offsets) = tile_count ->
  Forall (fun o => 0 <= o < 2 ^ 64) offsets ->
  0 <= tile_index < 2 ^ 32 ->
  Z.of_nat (length (content fd)) < 2 ^ 63 ->
  (tile_count <= tile_index ->
   _get_tile_infomation_version2 udiv_zero minor_version fd tile_index
   = Error "Tile index is invalid")
  ∧ (tile_index < tile_count ->
     exists offset next,
       offsets !! Z.to_nat tile_index = Some offset
       ∧ next = (if decide (tile_index = tile_count - 1)
                 then Z.of_nat (length (content fd))
                 else default 0 (offsets !! S (Z.to_nat tile_index)))
       ∧ _get_tile_infomation_version2 udiv_zero minor_version fd tile_index
         = Ok (offset, wrap64 (next - offset))).
Proof.
  intros Hc Hpre Hcount Hoffs Hidx Hlen.
  assert (Hcr : 0 <= tile_count < 2 ^ 64).
  { assert (8 * tile_count <= Z.of_nat (length (content fd)));  [|lia].
    rewrite Hc, !length_app, length_concat_le_split. lia. }
  assert (Hw : wrap32 tile_index = tile_index).
  { unfold wrap32. apply Z.mod_small. lia. }
  (* the seek past the first field and the read of the tile count *)
  destruct (unread_seek_set fd 8 pre _ ltac:(lia) Hc Hpre) as (Hun1 & Hp1 & Hc1).
  set (fd1 := fseeko fd 8 SEEK_SET) in *.
  assert (Hrc := read_exactly_enough udiv_zero fd1 8
                   "Failed to read tile count from" (le_split 8 tile_count) _
                   ltac:(lia) ltac:(lia) Hun1 (length_le_split 8 tile_count)).
  set (fd2 := {| content := content fd1; pos := pos fd1 + 8 |}) in *.
  assert (Hun2 := unread_step fd1 8 _ _ ltac:(lia) ltac:(lia) Hun1
                    (length_le_split 8 tile_count)). fold fd2 in Hun2.
  assert (Hcnt : uint64_at (le_split 8 tile_count) 0 = tile_count).
  { rewrite <- (app_nil_r (le_split 8 tile_count)).
    by apply uint64_at_le_split. }
  unfold _get_tile_infomation_version2. fold fd1.
  rewrite Hrc. cbn [rbind fst snd]. rewrite Hcnt, Hw.
  split.
  - intros Hge. by rewrite decide_True.
  - intros Hlt. rewrite (decide_False (P:=(tile_count <= tile_index))) by lia.
    destruct (lookup_lt_is_Some_2 offsets (Z.to_nat tile_index) ltac:(lia))
      as [offset Ho].
    assert (Hor : 0 <= offset < 2 ^ 64).
    { rewrite Forall_forall in Hoffs. apply Hoffs.
      by eapply list_elem_of_lookup_2. }
    destruct (directory_split offsets _ _ Ho) as [Hsplit Hlenp].
    (* the seek to the record and the read of the offset *)
    set (fd3 := fseeko fd2 (tile_index * 8) SEEK_CUR).
    assert (Hfd3 : fd3 = {| content := content fd2;
                            pos := pos fd2 + tile_index * 8 |}).
    { subst fd3. unfold fseeko. rewrite decide_True; [done|].
      subst fd2. simpl. lia. }
    assert (Hun3 : unread fd3
                   = le_split 8 offset
                     ++ concat (le_split 8 <$> drop (S (Z.to_nat tile_index)) offsets)
                     ++ rest).
    { rewrite Hfd3.
      rewrite (unread_step fd2 (tile_index * 8)
                 (concat (le_split 8 <$> take (Z.to_nat tile_index) offsets))
                 (le_split 8 offset
                  ++ concat (le_split 8 <$> drop (S (Z.to_nat tile_index)) offsets)
                  ++ rest)); [done|subst fd2; simpl; lia|lia| |].
      - rewrite Hun2, Hsplit. by rewrite <- !app_assoc.
      - rewrite Hlenp. lia. }
    assert (Hp3 : 0 <= pos fd3) by (rewrite Hfd3; subst fd2; simpl; lia).
    rewrite (read_exactly_enough udiv_zero fd3 8 _ (le_split 8 offset) _
               Hp3 ltac:(lia) Hun3 (length_le_split 8 offset)).
    cbn [rbind fst snd].
    assert (Hoff : uint64_at (le_split 8 offset) 0 = offset).
    { rewrite <- (app_nil_r (le_split 8 offset)). by apply uint64_at_le_split. }
    rewrite Hoff.
    assert (Hwc : wrap64 (tile_count - 1) = tile_count - 1).
    { unfold wrap64. apply Z.mod_small. lia. }
    rewrite Hwc.
    set (fd4 := {| content := content fd3; pos := pos fd3 + 8 |}).
    destruct (decide (tile_index = tile_count - 1)) as [Hlast|Hmid].
    + (* the last tile: the size reaches to the end of the file *)
      exists offset, (Z.of_nat (length (content fd))).
      split; [done|]. split; [done|].
      rewrite decide_False by lia.
      assert (Hend : ftello (fseeko fd4 0 SEEK_END)
                     = Z.of_nat (length (content fd))).
      { unfold ftello, fseeko. subst fd4. cbn [content pos].
        rewrite Hfd3. cbn [content]. subst fd2. cbn [content]. rewrite Hc1.
        rewrite decide_True by lia. simpl. lia. }
      rewrite Hend. cbn [rbind].
      assert (Hwl : wrap64 (Z.of_nat (length (content fd)))
                    = Z.of_nat (length (content fd))).
      { unfold wrap64. apply Z.mod_small. lia. }
      by rewrite Hwl.
    + (* another tile follows: its offset is read *)
      destruct (lookup_lt_is_Some_2 offsets (S (Z.to_nat tile_index)) ltac:(lia))
        as [next Hn].
      assert (Hnr : 0 <= next < 2 ^ 64).
      { rewrite Forall_forall in Hoffs. apply Hoffs.
        by eapply list_elem_of_lookup_2. }
      exists offset, next. split; [done|]. split; [by rewrite Hn|].
      rewrite decide_True by lia.
      assert (Hdrop : drop (S (Z.to_nat tile_index)) offsets
                      = next :: drop (S (S (Z.to_nat tile_index))) offsets).
      { by apply drop_S. }
      assert (Hun4 : unread fd4
                     = le_split 8 next
                       ++ concat (le_split 8
                                    <$> drop (S (S (Z.to_nat tile_index))) offsets)
                       ++ rest).
      { subst fd4.
        rewrite (unread_step fd3 8 _ _ Hp3 ltac:(lia) Hun3
                   (length_le_split 8 offset)).
        rewrite Hdrop, fmap_cons. cbn [concat]. by rewrite <- app_assoc. }
      rewrite (read_exactly_enough udiv_zero fd4 8 _ (le_split 8 next) _
                 ltac:(subst fd4; simpl; lia) ltac:(lia) Hun4
                 (length_le_split 8 next)).
      cbn [rbind fst snd].
      assert (Hnx : uint64_at (le_split 8 next) 0 = next).
      { rewrite <- (app_nil_r (le_split 8 next)). by apply uint64_at_le_split. }
      by rewrite Hnx.
Qed.

(** ** The major-1 tile locator *)

(* one of the three supported layouts: the reads that read nothing *)
Ltac v1_reads udiv_zero :=
  cbn [rbind]; change (c_neq 4 4) with 0; rewrite _read_bytes_zero;
  destruct udiv_zero as [q|]; [|reflexivity]; cbn [rbind fst snd];
  match goal with
  | |- context [decide (bytes_read_total ([], ?f) ≠ 0)] =>
      rewrite (decide_False (P:=(bytes_read_total ([], f) ≠ 0)))
        by (by intros H; apply H)
  end;
  rewrite _read_bytes_zero; cbn [rbind fst snd];
  match goal with
  | |- context [decide (bytes_read_total ([], ?f) ≠ 0)] =>
      rewrite (decide_False (P:=(bytes_read_total ([], f) ≠ 0)))
        by (by intros H; apply H)
  end;
  change (store_bytes 4 0 []) with 0; rewrite Z.mul_0_l;
  change (wrap32 0) with 0; rewrite decide_True by assumption; reflexivity.

(** C7.  The major-1 locator as written: every read of
    [_get_tile_infomation_version1] passes a comparison as its size
    argument ([sizeof(tiles_x) != sizeof(tiles_x)], which is 0), so the
    counts [tiles_x] and [tiles_y] are never read from the file.  For the
    minor versions 0, 1 and 2 the first read divides by zero; where that
    does not trap both counts stay 0 and the index test rejects every
    tile.  The function returns an (offset, size) pair for no file, layer
    and tile index. *)
Theorem version1_locator_never_succeeds (udiv_zero : option Z)
    (minor_version : Z) (fd : FILE) (layer tile_index : Z) :
  _get_tile_infomation_version1 udiv_zero minor_version fd layer tile_index
  = if decide (minor_version = 0 ∨ minor_version = 1 ∨ minor_version = 2)
    then match udiv_zero with
         | None => Undefined
         | Some _ => Error "Tile index is invalid"
         end
    else Error "Unsupported product version".
Proof.
  assert (Hidx : 0 <= wrap32 tile_index).
  { unfold wrap32. apply Z.mod_pos_bound. lia. }
  unfold _get_tile_infomation_version1.
  destruct (decide (minor_version = 0 ∨ minor_version = 1 ∨ minor_version = 2))
    as [[-> | [-> | ->]] | Hother];
    [v1_reads udiv_zero .. |].
  destruct minor_version as [|p|p]; [exfalso; apply Hother; auto | |reflexivity].
  destruct p as [p|[p|p|]|]; try reflexivity; exfalso; apply Hother; auto.
Qed.

(* a major-1 minor-0 sidecar: 25 bytes, the counts 2 x 2, then four
   records (offset, a second 32-bit field, size) of 12 bytes each; the
   record of tile 1 holds offset 1000 and size 500 *)
Definition example_sidecar_1_0 : FILE :=
  {| content :=
       replicate 25 (byte.of_Z 0) ++ le_split 4 2 ++ le_split 4 2
       ++ le_split 4 100 ++ le_split 4 0 ++ le_split 4 900
       ++ le_split 4 1000 ++ le_split 4 0 ++ le_split 4 500
       ++ le_split 4 1500 ++ le_split 4 0 ++ le_split 4 700
       ++ le_split 4 2200 ++ le_split 4 0 ++ le_split 4 300;
     pos := 0 |}.

Example version1_locator_example :
  _get_tile_infomation_version1 None 0 example_sidecar_1_0 0 1 = Undefined
  ∧ _get_tile_infomation_version1 (Some 0) 0 example_sidecar_1_0 0 1
    = Error "Tile index is invalid".
Proof. split; vm_compute; reflexivity. Qed.

(** ** The major-1 tile decoder *)

(* on a sidecar that holds the tile, the decoder is called on the stream
   [version1_jpeg_stream] with the length [size] *)
Lemma version1_decode_run (udiv_zero : option Z) (fs : gmap string (list byte))
    (decode : list byte -> Z -> Z -> Z -> bool) (uninitialized : nat -> byte)
    (layer_filename : string) (offset size width height : Z)
    (pre tile_bytes rest : list byte) :
  fs !! layer_filename = Some (pre ++ tile_bytes ++ rest) ->
  0 <= offset < 2 ^ 63 -> length pre = Z.to_nat offset ->
  0 < size -> length tile_bytes = Z.to_nat size ->
  _get_tile_data_version1 udiv_zero fs decode uninitialized layer_filename
    offset size width height
  = if decode (version1_jpeg_stream uninitialized tile_bytes size) size
         width height
    then Ok tt else Error "Failed to decode data".
Proof.
  intros Hfs Hoff Hpre Hsize Htile.
  unfold _get_tile_data_version1, _openslide_fopen. rewrite Hfs.
  assert (Hs : to_signed 64 offset = offset).
  { unfold to_signed. rewrite Z.mod_small by lia. rewrite decide_True; lia. }
  rewrite Hs.
  set (fd := {| content := pre ++ tile_bytes ++ rest; pos := 0 |}).
  destruct (unread_seek_set fd offset pre (tile_bytes ++ rest) Hoff eq_refl Hpre)
    as (Hun & Hpos & _).
  rewrite (read_exactly_enough udiv_zero (fseeko fd offset SEEK_SET) size _
             tile_bytes rest ltac:(lia) Hsize Hun Htile).
  reflexivity.
Qed.

(** C9.  What the major-1 decoder hands to the JPEG codec: the buffer is
    allocated with room for the 10-byte prefix and the tile bytes are
    stored behind that room, but [jpegHeader] is never copied into it and
    the length passed is [size], not [sizeof(jpegHeader) + size].  The
    stream the codec may read therefore has the length of the tile alone,
    starts with the 10 bytes the allocator left in the block and ends 10
    bytes before the end of the tile: it is never the prefix followed by
    the tile. *)
Theorem version1_stream_is_not_jfif (uninitialized : nat -> byte)
    (tile_bytes : list byte) :
  length (version1_jpeg_stream uninitialized tile_bytes
            (Z.of_nat (length tile_bytes)))
  = length tile_bytes
  ∧ version1_jpeg_stream uninitialized tile_bytes (Z.of_nat (length tile_bytes))
    = take (length tile_bytes)
        ((uninitialized <$> seq 0 10) ++ take (length tile_bytes - 10) tile_bytes)
  ∧ version1_jpeg_stream uninitialized tile_bytes (Z.of_nat (length tile_bytes))
    ≠ jpegHeader ++ tile_bytes.
Proof.
  unfold version1_jpeg_stream, version1_buffer. rewrite Nat2Z.id.
  change (length jpegHeader) with 10%nat.
  assert (Hlen : length (take (length tile_bytes)
                           ((uninitialized <$> seq 0 10) ++ tile_bytes))
                 = length tile_bytes).
  { rewrite length_take, length_app, length_fmap, length_seq. lia. }
  split; [exact Hlen|]. split.
  - rewrite !take_app, length_fmap, length_seq.
    rewrite take_take. f_equal. f_equal. lia.
  - intros Heq. apply (f_equal length) in Heq.
    rewrite Hlen, length_app in Heq. simpl in Heq. lia.
Qed.

(* a sidecar with one 12-byte tile at offset 4, a block that the
   allocator returns zeroed, and two codecs: one that accepts only the
   reassembled stream of 22 bytes, one that accepts only what it gets *)
Definition example_tile : list byte := byte.of_Z <$> seqZ 65 12.
Definition example_sidecar : gmap string (list byte) :=
  {[ "slide-level0.img" := (byte.of_Z <$> [1; 2; 3; 4]) ++ example_tile ]}.
Definition jfif_only (buffer : list byte) (length width height : Z) : bool :=
  bool_decide (byte.unsigned <$> buffer
               = byte.unsigned <$> (jpegHeader ++ example_tile)
               ∧ length = 22).
Definition unprefixed_only (buffer : list byte) (length width height : Z) : bool :=
  bool_decide (byte.unsigned <$> buffer
               = byte.unsigned
                   <$> (repeat (byte.of_Z 0) 10 ++ take 2 example_tile)
               ∧ length = 12).

Example version1_decode_example :
  _get_tile_data_version1 None example_sidecar jfif_only
    (fun _ => byte.of_Z 0) "slide-level0.img" 4 12 256 256
  = Error "Failed to decode data"
  ∧ _get_tile_data_version1 None example_sidecar unprefixed_only
      (fun _ => byte.of_Z 0) "slide-level0.img" 4 12 256 256
    = Ok tt.
Proof. split; vm_compute; reflexivity. Qed.

(** ** read_tile and the cache *)

Section ReadTile.

Variable udiv_zero : option Z.
Variable past_block : char_block -> option string.
Variable fs : gmap string (list byte).
Variable jpeg_read_dimensions :
  gmap string (list byte) -> string -> Z -> option (Z * Z).
Variable jpeg_decode_buffer : list byte -> Z -> Z -> Z -> bool.
Variable jp2k_decode_buffer : Z -> Z -> list byte -> Z -> bool.
Variable png_read : gmap string (list byte) -> string -> Z -> Z -> Z -> bool.
Variable gdkpixbuf_read :
  gmap string (list byte) -> string -> Z -> Z -> Z -> Z -> bool.
Variable uninitialized : nat -> byte.
Variable openslide_get_error : openslide_t -> option string.
Variable tile_buffer : Z.

Let read_tile' :=
  read_tile udiv_zero past_block fs jpeg_read_dimensions jpeg_decode_buffer
    jp2k_decode_buffer png_read gdkpixbuf_read uninitialized
    openslide_get_error tile_buffer.

(* a miss whose locator fails: read_tile returns false and the cache is
   as it was *)
Lemma read_tile_locator_failure (osr : openslide_t) (level_ptr : Z)
    (level_data : level) (tile_col tile_row : Z) (m : Cache.mem) (msg : string) :
  Cache.hashtable (Cache.cache m) !! (level_ptr, tile_col, tile_row) = None ->
  _get_tile_file_location udiv_zero fs (data osr) (filename level_data)
    (layer level_data)
    (to_signed 64 (tile_row * tiles_across level_data + tile_col))
  = Error msg ->
  read_tile' osr level_ptr level_data tile_col tile_row m
  = Ok (false, level_data, m).
Proof.
  intros Hmiss Hloc. unfold read_tile', read_tile.
  rewrite (CacheProps.get_miss_run m _ _ _ Hmiss). rewrite decide_True by done.
  by rewrite Hloc.
Qed.

(* a miss whose locator and dimensions succeed on a slide without a
   stored error: whatever _get_tile_data returns, failure included, the
   buffer is put into the cache and read_tile returns true *)
Lemma read_tile_after_failed_decode (osr : openslide_t) (level_ptr : Z)
    (level_data : level) (tile_col tile_row : Z) (m : Cache.mem)
    (tile_offset tile_size tile_width tile_height : Z)
    (tile_data : level_tile_data) (outcome : result bool) :
  let tile_index := to_signed 64 (tile_row * tiles_across level_data + tile_col) in
  let level1 :=
    store_tile_slot level_data tile_index
      {| offset := tile_offset; size := tile_size;
         width := width tile_data; height := height tile_data |} in
  let level2 :=
    store_tile_slot level1 tile_index
      {| offset := tile_offset; size := tile_size;
         width := tile_width; height := tile_height |} in
  let buffer_size := wrap64 (tile_width * tile_height * 4) in
  CacheProps.cache_inv m ->
  Cache.hashtable (Cache.cache m) !! (level_ptr, tile_col, tile_row) = None ->
  _get_tile_file_location udiv_zero fs (data osr) (filename level_data)
    (layer level_data) tile_index = Ok (tile_offset, tile_size) ->
  tile_slot level_data tile_index = Ok tile_data ->
  _get_tile_dimension fs jpeg_read_dimensions osr level1 tile_index
    tile_col tile_row = Ok (tile_width, tile_height) ->
  _get_tile_data udiv_zero past_block fs jpeg_decode_buffer jp2k_decode_buffer
    png_read gdkpixbuf_read uninitialized osr level2 tile_index tile_width
    tile_height
  = outcome ->
  (outcome = Ok false ∨ exists msg, outcome = Error msg) ->
  openslide_get_error osr = None ->
  0 < buffer_size <= Cache.capacity (Cache.cache m) ->
  Cache.total_size (Cache.cache m) + buffer_size < 2 ^ 64 ->
  exists m',
    read_tile' osr level_ptr level_data tile_col tile_row m
    = Ok (true, level2, m')
    ∧ is_Some (Cache.hashtable (Cache.cache m') !! (level_ptr, tile_col, tile_row)).
Proof.
  intros tile_index level1 level2 buffer_size Hinv Hmiss Hloc Hslot Hdim Hdata
    Hfail Herr Hsize Hno.
  destruct (CacheProps.put_fits_run m level_ptr tile_col tile_row
              (g_slice_alloc tile_buffer buffer_size) buffer_size Hinv
              ltac:(lia))
    as [[_ [?|?]]|(_ & _ & m1 & evicted & Hinv1 & Hev & Hput)]; [lia|lia|].
  destruct (CacheProps.put_fits_inv m level_ptr tile_col tile_row
              (g_slice_alloc tile_buffer buffer_size) buffer_size Hinv
              ltac:(lia))
    as [[_ [?|?]]|(_ & _ & m2 & Hput2 & Hinv2 & _)]; [lia|lia|].
  rewrite Hput in Hput2. injection Hput2 as Hm2.
  set (k := (level_ptr, tile_col, tile_row)) in *.
  (* the new value is indexed under the key and holds the returned entry *)
  assert (Hk2 : Cache.hashtable (Cache.cache m2) !! k = Some (Cache.next (CacheProps.drop_key k m1))).
  { rewrite <- Hm2. simpl. apply lookup_insert_eq. }
  assert (Hv2 : Cache.values m2 !! Cache.next (CacheProps.drop_key k m1)
                = Some {| Cache.key := k; Cache.entry := Cache.next m |}).
  { rewrite <- Hm2. simpl. apply lookup_insert_eq. }
  destruct (CacheProps.inv_table m2 Hinv2 _ _ Hk2) as (Hin2 & _).
  destruct (CacheProps.inv_queue m2 Hinv2 _ Hin2) as (v & e & Hv & _ & He & _).
  rewrite Hv2 in Hv. injection Hv as <-. simpl in He.
  eexists. split.
  - unfold read_tile', read_tile.
    rewrite (CacheProps.get_miss_run m _ _ _ Hmiss). rewrite decide_True by done.
    fold tile_index. rewrite Hloc, Hslot. fold level1. rewrite Hdim.
    fold level2. rewrite Hdata. fold buffer_size.
    assert (Hcont :
      match outcome with
      | Ok _ | Error _ =>
          match openslide_get_error osr with
          | Some _ => Ok (false, level2, m)
          | None =>
              match Cache._openslide_cache_put level_ptr tile_col tile_row
                      (g_slice_alloc tile_buffer buffer_size) buffer_size m with
              | Ok (entry, m0) => paint_and_release level2 (Some entry) m0
              | Error msg => Error msg
              | Abort => Abort
              | Undefined => Undefined
              | Timeout => Timeout
              end
          end
      | Abort => Abort
      | Undefined => Undefined
      | Timeout => Timeout
      end = paint_and_release level2 (Some (Cache.next m)) m2).
    { rewrite Herr, Hput, Hm2. by destruct Hfail as [->|[msg ->]]. }
    rewrite Hcont. unfold paint_and_release.
    rewrite (CacheProps.entry_unref_run (Cache.next m) m2 e He). reflexivity.
  - simpl. rewrite Hk2. done.
Qed.

End ReadTile.

(** ** A slide whose only tile does not decode *)

(* a major-2 PNG slide of one level with one tile of 2 x 2 pixels *)
Definition example_header : index_file_content :=
  {| header := []; level_count := 1; r := 255; g := 255; b := 255;
     size_x := 2; size_y := 2; resolution_x := 96; resolution_y := 96;
     format := tile_format_png; quality := 0;
     tile_size_x := 2; tile_size_y := 2;
     lowest_focal_plane_index := 0; highest_focal_plane_index := 0;
     z_range := []; major_version := 2; minor_version := 0 |}.

Definition example_osr : openslide_t :=
  {| data := example_header; vsf_filename := Some "slide.vsf" |}.

(* a directory of one tile at offset 24, of [tile_size] bytes *)
Definition example_level_file (tile_size : nat) : gmap string (list byte) :=
  {[ "slide-level00.img" :=
       le_split 8 0 ++ le_split 8 1 ++ le_split 8 24
       ++ repeat (byte.of_Z 7) tile_size ]}.

Definition example_level : level :=
  {| base_w := 2; base_h := 2; base_tile_w := 2; base_tile_h := 2;
     filename := "slide-level00.img";
     tiles := [ {| offset := 0; size := 0; width := 0; height := 0 |} ];
     layer := 0; tiles_across := 1; tiles_down := 1 |}.

Definition example_read_tile (tile_size : nat)
  : result (bool * level * Cache.mem) :=
  read_tile None zero_behind (example_level_file tile_size)
    (fun _ _ _ => None) (fun _ _ _ _ => false) (fun _ _ _ _ => false)
    (fun _ _ _ _ _ => false) (fun _ _ _ _ _ _ => false)
    (fun _ => byte.of_Z 0) (fun _ => None) 4096
    example_osr 77 example_level 0 0
    (Cache.initial_mem Cache.DEFAULT_CACHE_SIZE).

(** C4.  No cache poisoning on tile failure does not hold when the
    failure is the one of [_get_tile_data]: on a major-2 PNG slide with
    one tile of 4 bytes that the codec rejects, [_get_tile_data] fails
    with the error of the codec, but [read_tile] does not look at its result (it
    asks the slide handle for a stored error instead), puts the undecoded
    buffer of 2 * 2 * 4 bytes into the empty cache under the key of the
    tile and returns true.  The same happens for a tile of size zero. *)
Example read_tile_failed_decode_example :
  _get_tile_data None zero_behind (example_level_file 4)
    (fun _ _ _ _ => false) (fun _ _ _ _ => false)
    (fun _ _ _ _ _ => false) (fun _ _ _ _ _ _ => false)
    (fun _ => byte.of_Z 0) example_osr example_level 0 2 2
  = Error callee_error
  ∧ (exists level' m',
       example_read_tile 4 = Ok (true, level', m')
       ∧ Cache.hashtable (Cache.cache m') !! (77, 0, 0) = Some 2%positive
       ∧ Cache.total_size (Cache.cache m') = 16)
  ∧ (exists level' m',
       example_read_tile 0 = Ok (true, level', m')
       ∧ Cache.hashtable (Cache.cache m') !! (77, 0, 0) = Some 2%positive).
Proof.
  split; [vm_compute; reflexivity|]. split.
  - eexists _, _. split; [vm_compute; reflexivity|]. split; reflexivity.
  - eexists _, _. split; [vm_compute; reflexivity|]. reflexivity.
Qed.

(** ** vsf_detect *)

Section Detect.

Variable udiv_zero : option Z.
Variable char_signed : bool.
Variable past_block : char_block -> option string.
Variable fs : gmap string (list byte).

(* a read of a field either finds all its bytes or fails *)
Lemma read_exactly_spec (fd : FILE) (n : nat) (msg : string) :
  0 <= pos fd -> (0 < n)%nat ->
  read_exactly udiv_zero fd (Z.of_nat n) msg
  = if decide (n <= length (unread fd))%nat
    then Ok (take n (unread fd),
             {| content := content fd; pos := pos fd + Z.of_nat n |})
    else Error msg.
Proof.
  intros Hp Hn. destruct (decide (n <= length (unread fd))%nat) as [Hle|Hgt].
  - rewrite (read_exactly_enough udiv_zero fd (Z.of_nat n) msg
               (take n (unread fd)) (drop n (unread fd))); try done; try lia.
    + by rewrite take_drop.
    + rewrite length_take. lia.
  - apply read_exactly_short; lia.
Qed.

(* the loops of vsf_detect *)
Lemma detect_focal_planes_spec (content : index_file_content)
    (filename : string) (level : Z) (focal_planes : list Z) :
  detect_focal_planes past_block fs content filename level focal_planes = Ok true
  <-> forall focal_plane, focal_plane ∈ focal_planes ->
        _has_file_name_for_layer past_block fs content filename level focal_plane
        = Ok true.
Proof.
  induction focal_planes as [|f rest IH]; simpl.
  - split; [|done]. intros _ f Hf. by apply elem_of_nil in Hf.
  - split.
    + intros Hrun f' Hf'.
      destruct (_has_file_name_for_layer past_block fs content filename level f)
        as [[]| | | |] eqn:Hhas; simpl in Hrun; try done.
      apply elem_of_cons in Hf' as [->|Hf']; [done|]. by apply IH.
    + intros Hall. rewrite (Hall f) by apply list_elem_of_here. simpl.
      apply IH. intros f' Hf'. apply Hall. by apply list_elem_of_further.
Qed.

Lemma detect_levels_spec (content : index_file_content) (filename : string)
    (levels : list Z) :
  detect_levels past_block fs content filename levels = Ok true
  <-> forall level focal_plane,
        level ∈ levels ->
        lowest_focal_plane_index content <= focal_plane
                                         < highest_focal_plane_index content ->
        _has_file_name_for_layer past_block fs content filename level focal_plane
        = Ok true.
Proof.
  induction levels as [|l rest IH]; simpl.
  - split; [|done]. intros _ l f Hl. by apply elem_of_nil in Hl.
  - split.
    + intros Hrun l' f Hl' Hf.
      destruct (detect_focal_planes past_block fs content filename l _)
        as [[]| | | |] eqn:Hplanes; simpl in Hrun; try done.
      * apply elem_of_cons in Hl' as [->|Hl'].
        -- apply (proj1 (detect_focal_planes_spec _ _ _ _) Hplanes).
           apply elem_of_seqZ. lia.
        -- by apply IH.
      * (* the inner loop never returns false without an error *)
        exfalso. clear -Hplanes.
        induction (seqZ _ _) as [|f fs' IHf]; simpl in Hplanes; [done|].
        destruct (_has_file_name_for_layer past_block fs content filename l f)
          as [[]| | | |]; simpl in Hplanes; done.
    + intros Hall.
      assert (Hplanes : detect_focal_planes past_block fs content filename l
                (seqZ (lowest_focal_plane_index content)
                   (highest_focal_plane_index content
                    - lowest_focal_plane_index content)) = Ok true).
      { apply detect_focal_planes_spec. intros f Hf.
        apply elem_of_seqZ in Hf. apply Hall; [apply list_elem_of_here|lia]. }
      rewrite Hplanes. simpl. apply IH. intros l' f Hl' Hf.
      apply Hall; [by apply list_elem_of_further|done].
Qed.


End Detect.

(** ** The header fields as a function of the bytes of the index file *)

Definition major1_seek (minor : Z) : option nat :=
  match minor with
  | 0 => Some 9%nat
  | 1 => Some 13%nat
  | 2 => Some 25%nat
  | _ => None
  end.

(* The header of an index file with the bytes [bytes] and the accepted
   version (major, minor): for major 1 the four 32-bit fields at offset 9,
   13 or 25 next to the defaults, for major 2 the first 60 (minor 0) or 72
   bytes laid over the packed struct; [None] when the file is too short or
   the minor version of a major-1 file is not 0, 1 or 2. *)
Definition header_fields (bytes : list byte) (major minor : Z)
  : option index_file_content :=
  let c := with_defaults (with_version (take 6 bytes) major minor) in
  if decide (major = 1) then
    match major1_seek minor with
    | Some seek =>
        if decide (seek + 16 <= length bytes)%nat then
          Some (with_sizes (int32_at bytes seek) (int32_at bytes (seek + 4))
                  (int32_at bytes (seek + 8)) (int32_at bytes (seek + 12)) c)
        else None
    | None => None
    end
  else if decide (major = 2) then
    let n := if decide (minor = 0) then 60%nat else 72%nat in
    if decide (n <= length bytes)%nat
    then Some (overwrite_struct (Z.of_nat n) (take n bytes) c)
    else None
  else Some c.

Section Header.

Variable udiv_zero : option Z.

Lemma int32_at_take_drop (bytes : list byte) (k : nat) :
  int32_at (take 4 (drop k bytes)) 0 = int32_at bytes k.
Proof. unfold int32_at. by rewrite drop_0, take_take. Qed.

Lemma unread_at (bytes : list byte) (k : nat) :
  unread {| content := bytes; pos := Z.of_nat k |} = drop k bytes.
Proof. unfold unread. simpl. by rewrite Nat2Z.id. Qed.

(* the four reads of a major-1 header, from the position [seek] *)
Lemma four_fields_spec (bytes : list byte) (seek : nat)
    (c : index_file_content) :
  (r1 <- read_exactly udiv_zero {| content := bytes; pos := Z.of_nat seek |} 4
           "Failed parsing header data" ;;
   r2 <- read_exactly udiv_zero r1.2 4 "Failed parsing header data" ;;
   r3 <- read_exactly udiv_zero r2.2 4 "Failed parsing header data" ;;
   r4 <- read_exactly udiv_zero r3.2 4 "Failed parsing header data" ;;
   Ok (with_sizes (int32_at r1.1 0) (int32_at r2.1 0)
         (int32_at r3.1 0) (int32_at r4.1 0) c))
  = if decide (seek + 16 <= length bytes)%nat
    then Ok (with_sizes (int32_at bytes seek) (int32_at bytes (seek + 4))
               (int32_at bytes (seek + 8)) (int32_at bytes (seek + 12)) c)
    else Error "Failed parsing header data".
Proof.
  change 4 with (Z.of_nat 4).
  rewrite read_exactly_spec by (simpl; lia).
  rewrite unread_at, length_drop. cbn [pos content].
  destruct (decide (4 <= length bytes - seek)%nat) as [H1|H1];
    [|by rewrite decide_False by lia].
  cbn [rbind fst snd]. rewrite <- Nat2Z.inj_add.
  rewrite read_exactly_spec by (simpl; lia).
  rewrite unread_at, length_drop. cbn [pos content].
  destruct (decide (4 <= length bytes - (seek + 4))%nat) as [H2|H2];
    [|by rewrite decide_False by lia].
  cbn [rbind fst snd]. rewrite <- Nat2Z.inj_add.
  rewrite read_exactly_spec by (simpl; lia).
  rewrite unread_at, length_drop. cbn [pos content].
  destruct (decide (4 <= length bytes - (seek + 4 + 4))%nat) as [H3|H3];
    [|by rewrite decide_False by lia].
  cbn [rbind fst snd]. rewrite <- Nat2Z.inj_add.
  rewrite read_exactly_spec by (simpl; lia).
  rewrite unread_at, length_drop. cbn [pos content].
  destruct (decide (4 <= length bytes - (seek + 4 + 4 + 4))%nat) as [H4|H4];
    [|by rewrite decide_False by lia].
  cbn [rbind fst snd]. rewrite decide_True by lia.
  rewrite !int32_at_take_drop.
  by replace (seek + 4 + 4)%nat with (seek + 8)%nat by lia;
     replace (seek + 8 + 4)%nat with (seek + 12)%nat by lia.
Qed.

Lemma fseeko_set (fd : FILE) (k : nat) :
  Z.of_nat k < 2 ^ 63 ->
  fseeko fd (Z.of_nat k) SEEK_SET
  = {| content := content fd; pos := Z.of_nat k |}.
Proof. intros Hk. unfold fseeko. rewrite decide_True; [done|lia]. Qed.

(* _read_index_file_content returns the header that [header_fields]
   describes, and fails where it describes none *)
Lemma read_index_file_content_spec (fd : FILE) (major minor : Z)
    (c : index_file_content) :
  major = 1 ∨ major = 2 ->
  _read_index_file_content udiv_zero fd
    (with_version (take 6 (content fd)) major minor) = Ok c
  <-> header_fields (content fd) major minor = Some c.
Proof.
  intros Hmajor. unfold _read_index_file_content, header_fields.
  cbn [with_defaults with_version major_version minor_version].
  destruct (decide (major = 1)) as [->|Hne1].
  - unfold major1_seek.
    set (c0 := with_defaults (with_version (take 6 (content fd)) 1 minor)).
    assert (Hcase : forall seek : nat, Z.of_nat seek < 2 ^ 63 ->
      (seek' <- Ok (Z.of_nat seek) ;;
       r1 <- read_exactly udiv_zero (fseeko fd seek' SEEK_SET) 4
               "Failed parsing header data" ;;
       r2 <- read_exactly udiv_zero r1.2 4 "Failed parsing header data" ;;
       r3 <- read_exactly udiv_zero r2.2 4 "Failed parsing header data" ;;
       r4 <- read_exactly udiv_zero r3.2 4 "Failed parsing header data" ;;
       Ok (with_sizes (int32_at r1.1 0) (int32_at r2.1 0)
             (int32_at r3.1 0) (int32_at r4.1 0) c0)) = Ok c
      <-> (if decide (seek + 16 <= length (content fd))%nat
           then Some (with_sizes (int32_at (content fd) seek)
                        (int32_at (content fd) (seek + 4))
                        (int32_at (content fd) (seek + 8))
                        (int32_at (content fd) (seek + 12)) c0)
           else None) = Some c).
    { intros seek Hseek. cbn [rbind]. rewrite fseeko_set by done.
      rewrite four_fields_spec.
      destruct (decide (seek + 16 <= length (content fd))%nat);
        split; intros H; by simplify_eq. }
    destruct minor as [|p|p].
    + apply (Hcase 9%nat). lia.
    + destruct p as [p|[p|p|]|]; try (split; [by intros H|by intros H]).
      * apply (Hcase 25%nat). lia.
      * apply (Hcase 13%nat). lia.
    + split; [by intros H|by intros H].
  - destruct Hmajor as [?| ->]; [done|].
    rewrite !(decide_True (P:=(2 = 2))) by done.
    set (c0 := with_defaults (with_version (take 6 (content fd)) 2 minor)).
    change (fseeko fd 0 SEEK_SET) with (fseeko fd (Z.of_nat 0) SEEK_SET).
    rewrite fseeko_set by lia.
    destruct (decide (minor = 0)) as [Hm|Hm].
    + change 60 with (Z.of_nat 60).
      rewrite read_exactly_spec by (simpl; lia).
      rewrite unread_at, drop_0.
      destruct (decide (60 <= length (content fd))%nat);
        cbn [rbind fst snd]; split; intros H; by simplify_eq.
    + change 72 with (Z.of_nat 72).
      rewrite read_exactly_spec by (simpl; lia).
      rewrite unread_at, drop_0.
      destruct (decide (72 <= length (content fd))%nat);
        cbn [rbind fst snd]; split; intros H; by simplify_eq.
Qed.

End Header.

(** ** The file name test of _read_index_file *)

Import Stdlib.Strings.Ascii.

(* the comparison of the loop for one character *)
Definition extension_char_matches (char_signed : bool) (c e : Ascii.ascii)
  : Prop :=
  to_char char_signed
    (char_of_ascii char_signed c
     + (if decide (65 <= char_of_ascii char_signed c
                   ∧ char_of_ascii char_signed c <= 90) then 32 else 0))
  = char_of_ascii char_signed e.

#[local] Instance extension_char_matches_dec (char_signed : bool)
    (c e : Ascii.ascii) : Decision (extension_char_matches char_signed c e).
Proof. unfold extension_char_matches. apply _. Defined.

Definition all_ascii : list Ascii.ascii := Ascii.ascii_of_nat <$> seq 0 256.

Lemma all_ascii_complete (c : Ascii.ascii) : c ∈ all_ascii.
Proof.
  unfold all_ascii. apply list_elem_of_fmap.
  exists (Ascii.nat_of_ascii c). split.
  - symmetry. apply Ascii.ascii_nat_embedding.
  - apply elem_of_seq. pose proof (Ascii.nat_ascii_bounded c). lia.
Qed.

(* the letters of the extension with their capitals; the dot has none *)
Definition extension_letters : list (Ascii.ascii * Ascii.ascii) :=
  [("."%char, "."%char); ("v"%char, "V"%char);
   ("s"%char, "S"%char); ("f"%char, "F"%char)].

Definition extension_char_check (char_signed : bool)
    (p : Ascii.ascii * Ascii.ascii) (c : Ascii.ascii) : bool :=
  Bool.eqb (bool_decide (extension_char_matches char_signed c p.1))
           (bool_decide (c = p.1 ∨ c = p.2)).

Lemma extension_char_checked :
  forallb (fun char_signed =>
    forallb (fun p => forallb (extension_char_check char_signed p) all_ascii)
      extension_letters) [true; false] = true.
Proof. vm_compute. reflexivity. Qed.

Lemma extension_char_spec (char_signed : bool) (c e u : Ascii.ascii) :
  (e, u) ∈ extension_letters ->
  extension_char_matches char_signed c e <-> c = e ∨ c = u.
Proof.
  intros Hp. pose proof extension_char_checked as Hall.
  rewrite forallb_forall in Hall.
  assert (Hcs : In char_signed [true; false]) by (destruct char_signed; simpl; auto).
  specialize (Hall _ Hcs). rewrite forallb_forall in Hall.
  apply list_elem_of_In in Hp. specialize (Hall _ Hp).
  rewrite forallb_forall in Hall.
  specialize (Hall c (proj1 (list_elem_of_In _ _) (all_ascii_complete c))).
  unfold extension_char_check in Hall. apply Bool.eqb_prop in Hall.
  cbn [fst snd] in Hall.
  rewrite <- (bool_decide_spec (extension_char_matches char_signed c e)).
  rewrite <- (bool_decide_spec (c = e ∨ c = u)). by rewrite Hall.
Qed.

(* the last four characters of an accepted name *)
Definition vsf_extension_chars (ext : list Ascii.ascii) : Prop :=
  exists e1 e2 e3,
    ext = ["."%char; e1; e2; e3]
    ∧ (e1 = "v"%char ∨ e1 = "V"%char)
    ∧ (e2 = "s"%char ∨ e2 = "S"%char)
    ∧ (e3 = "f"%char ∨ e3 = "F"%char).

Lemma extension_matches_spec (char_signed : bool) (ext : list Ascii.ascii) :
  length ext = 4%nat ->
  extension_matches char_signed ext
    (String.list_ascii_of_string INDEX_FILE_EXTENSION) = true
  <-> vsf_extension_chars ext.
Proof.
  intros Hlen.
  destruct ext as [|a [|b [|c [|d [|? ?]]]]]; try done.
  change (String.list_ascii_of_string INDEX_FILE_EXTENSION)
    with ["."%char; "v"%char; "s"%char; "f"%char].
  pose proof (extension_char_spec char_signed a "."%char "."%char
                ltac:(repeat constructor)) as Ha.
  pose proof (extension_char_spec char_signed b "v"%char "V"%char
                ltac:(repeat constructor)) as Hb.
  pose proof (extension_char_spec char_signed c "s"%char "S"%char
                ltac:(repeat constructor)) as Hc.
  pose proof (extension_char_spec char_signed d "f"%char "F"%char
                ltac:(repeat constructor)) as Hd.
  unfold extension_char_matches in *.
  cbn [extension_matches].
  split.
  - intros Hrun.
    destruct (decide (_ ≠ char_of_ascii char_signed "."%char)) as [|Ea];
      [done|].
    destruct (decide (_ ≠ char_of_ascii char_signed "v"%char)) as [|Eb];
      [done|].
    destruct (decide (_ ≠ char_of_ascii char_signed "s"%char)) as [|Ec];
      [done|].
    destruct (decide (_ ≠ char_of_ascii char_signed "f"%char)) as [|Ed];
      [done|].
    apply dec_stable in Ea, Eb, Ec, Ed.
    apply Ha in Ea. apply Hb in Eb. apply Hc in Ec. apply Hd in Ed.
    exists b, c, d. split; [|done]. f_equal. by destruct Ea.
  - intros (e1 & e2 & e3 & [= -> -> -> ->] & H1 & H2 & H3).
    rewrite decide_False by (intros Hn; apply Hn, Ha; by left).
    rewrite decide_False by (intros Hn; by apply Hn, Hb).
    rewrite decide_False by (intros Hn; by apply Hn, Hc).
    rewrite decide_False by (intros Hn; by apply Hn, Hd).
    done.
Qed.

Lemma strlen_length (s : string) :
  strlen s = Z.of_nat (length (String.list_ascii_of_string s)).
Proof.
  unfold strlen. f_equal. induction s as [|c s IH]; simpl; [done|]. by rewrite IH.
Qed.

(* the name is longer than its extension, which reads .vsf in any case
   of the letters *)
Definition vsf_extension (filename : string) : Prop :=
  exists stem ext,
    String.list_ascii_of_string filename = stem ++ ext
    ∧ stem ≠ [] ∧ vsf_extension_chars ext.

Lemma product_version_major (char_signed : bool) (hdr : list byte)
    (major minor : Z) :
  product_version char_signed hdr = Some (major, minor) ->
  major = 1 ∨ major = 2.
Proof.
  unfold product_version. intros H.
  repeat case_decide; simplify_eq; auto.
Qed.

Section ReadIndex.

Variable udiv_zero : option Z.
Variable char_signed : bool.
Variable past_block : char_block -> option string.
Variable fs : gmap string (list byte).

Lemma read_index_file_spec (filename : string) (c : index_file_content) :
  strlen filename < 2 ^ 32 ->
  _read_index_file udiv_zero char_signed fs filename = Ok c
  <-> vsf_extension filename
      ∧ exists bytes major minor,
          fs !! filename = Some bytes
          ∧ (6 <= length bytes)%nat
          ∧ product_version char_signed (take 6 bytes) = Some (major, minor)
          ∧ header_fields bytes major minor = Some c.
Proof.
  intros Hlen. unfold _read_index_file.
  set (chars := String.list_ascii_of_string filename).
  assert (Hn : wrap32 (strlen filename) = Z.of_nat (length chars)).
  { rewrite strlen_length in *. unfold wrap32. apply Z.mod_small.
    fold chars in Hlen. lia. }
  rewrite Hn. change (wrap8 (strlen INDEX_FILE_EXTENSION)) with 4.
  change (Z.to_nat 4) with 4%nat.
  (* the test on the name *)
  assert (Hname :
    (¬ Z.of_nat (length chars) <= 4
     ∧ extension_matches char_signed
         (take 4 (drop (Z.to_nat (Z.of_nat (length chars) - 4)) chars))
         (String.list_ascii_of_string INDEX_FILE_EXTENSION) = true)
    <-> vsf_extension filename).
  { unfold vsf_extension. fold chars. split.
    - intros [Hgt Hm].
      exists (take (Z.to_nat (Z.of_nat (length chars) - 4)) chars),
             (drop (Z.to_nat (Z.of_nat (length chars) - 4)) chars).
      split; [by rewrite take_drop|]. split.
      + intros Hnil. apply (f_equal length) in Hnil.
        rewrite length_take in Hnil. simpl in Hnil. lia.
      + rewrite take_ge in Hm by (rewrite length_drop; lia).
        apply (extension_matches_spec char_signed); [|done].
        rewrite length_drop. lia.
    - intros (stem & ext & Heq & Hstem & Hext).
      assert (Hl4 : length ext = 4%nat).
      { destruct Hext as (? & ? & ? & -> & _). done. }
      assert (Hls : (0 < length stem)%nat).
      { destruct stem; [done|simpl; lia]. }
      rewrite Heq, length_app, Hl4.
      replace (Z.to_nat (Z.of_nat (length stem + 4) - 4)) with (length stem)
        by lia.
      rewrite drop_app_length, take_ge by lia.
      split; [lia|]. by apply extension_matches_spec. }
  destruct (decide (Z.of_nat (length chars) <= 4)) as [Hshort|Hlong].
  { split; [done|]. intros [Hext _]. apply Hname in Hext as [? _]. done. }
  destruct (extension_matches char_signed _ _) eqn:Hm.
  2:{ split; [done|]. intros [Hext _]. apply Hname in Hext as [_ ?].
      congruence. }
  assert (Hext : vsf_extension filename) by (apply Hname; done).
  (* the file and its first six bytes *)
  unfold _openslide_fopen. destruct (fs !! filename) as [bytes|] eqn:Hfs.
  2:{ split; [done|]. by intros (_ & ? & ? & ? & ? & _). }
  change 6 with (Z.of_nat 6).
  change {| content := bytes; pos := 0 |}
    with {| content := bytes; pos := Z.of_nat 0 |}.
  rewrite read_exactly_spec by (simpl; lia).
  rewrite unread_at, drop_0. cbn [pos content].
  destruct (decide (6 <= length bytes)%nat) as [H6|H6].
  2:{ split; [done|]. intros (_ & ? & ? & ? & [= <-] & ? & _). done. }
  cbn [rbind fst snd].
  destruct (product_version char_signed (take 6 bytes)) as [[major minor]|]
    eqn:Hv.
  2:{ split; [done|]. intros (_ & ? & ? & ? & [= <-] & _ & ? & _). congruence. }
  pose proof (product_version_major _ _ _ _ Hv) as Hmajor.
  pose proof (read_index_file_content_spec udiv_zero
                {| content := bytes; pos := Z.of_nat 0 + Z.of_nat 6 |} major minor c
                Hmajor) as Hcontent.
  cbn [content] in Hcontent. rewrite Hcontent. split.
  - intros Hh. split; [done|]. by exists bytes, major, minor.
  - intros (_ & bytes' & major' & minor' & [= <-] & _ & Hv' & Hh).
    rewrite Hv in Hv'. by simplify_eq.
Qed.


End ReadIndex.

(** ** Examples of index files and sidecars *)

Definition bytes_of_string (s : string) : list byte :=
  Ascii.byte_of_ascii <$> String.list_ascii_of_string s.

(* a major-2 minor-0 header of 60 bytes: one level, 4096 x 2048 pixels,
   tiles of 256 x 256, PNG *)
Definition example_index_2_0 : list byte :=
  bytes_of_string "VSF2.0 VMscope GmbH (Germany) "
  ++ (byte.of_Z <$> [1; 255; 255; 255])
  ++ le_split 4 4096 ++ le_split 4 2048 ++ le_split 4 96 ++ le_split 4 96
  ++ (byte.of_Z <$> [2; 80])
  ++ le_split 4 256 ++ le_split 4 256.

(* the same slide as minor 1, with the focal planes -1, 0 and 1 *)
Definition example_index_2_1 : list byte :=
  bytes_of_string "VSF2.1 VMscope GmbH (Germany) "
  ++ (byte.of_Z <$> [1; 255; 255; 255])
  ++ le_split 4 4096 ++ le_split 4 2048 ++ le_split 4 96 ++ le_split 4 96
  ++ (byte.of_Z <$> [2; 80])
  ++ le_split 4 256 ++ le_split 4 256
  ++ le_split 4 (-1) ++ le_split 4 2 ++ le_split 4 0.


(* scenario S5: a major-1 minor-1 index file *)
Definition example_index_1_1 : list byte :=
  bytes_of_string "V1.1 VMscope "
  ++ le_split 4 4096 ++ le_split 4 2048 ++ le_split 4 256 ++ le_split 4 256
  ++ [].

Lemma major1_header_parsing_witness :
  major_version (with_version (take 6 example_index_1_1) 1 1) = 1
  ∧ exists content',
      _read_index_file_content None
        {| content := example_index_1_1; pos := 6 |}
        (with_version (take 6 example_index_1_1) 1 1) = Ok content'
      ∧ size_x content' = 4096 ∧ size_y content' = 2048
      ∧ tile_size_x content' = 256 ∧ tile_size_y content' = 256
      ∧ level_count content' = 9.
Proof.
  split; [reflexivity|].
  destruct (major1_header_parsing None
              {| content := example_index_1_1; pos := 6 |}
              (with_version (take 6 example_index_1_1) 1 1) eq_refl)
    as [Hfields _].
  destruct (Hfields 13 4096 2048 256 256
              (bytes_of_string "V1.1 VMscope ") [])
    as (content' & Hrun & Hx & Hy & Htx & Hty & Heq);
    [right; left; split; reflexivity | reflexivity | reflexivity
    | lia | lia | lia | lia |].
  exists content'. repeat (split; [assumption|]). by rewrite Heq.
Defined.

(* scenario S6: a major-2 sidecar of 1000000 bytes with three tiles *)
Definition example_sidecar_S6 : FILE :=
  {| content :=
       le_split 8 0 ++ le_split 8 3
       ++ concat (le_split 8 <$> [16; 300016; 700016])
       ++ repeat (byte.of_Z 0) (Z.to_nat 999960);
     pos := 0 |}.

Lemma example_sidecar_S6_length :
  Z.of_nat (length (content example_sidecar_S6)) = 1000000.
Proof.
  unfold example_sidecar_S6. cbn [content].
  rewrite !length_app, List.repeat_length, length_concat_le_split, !length_le_split.
  cbn [length]. lia.
Qed.

Lemma major2_tile_location_witness :
  content example_sidecar_S6
  = le_split 8 0 ++ le_split 8 3
    ++ concat (le_split 8 <$> [16; 300016; 700016])
    ++ repeat (byte.of_Z 0) (Z.to_nat 999960)
  ∧ length (le_split 8 0) = 8%nat
  ∧ Z.of_nat (length [16; 300016; 700016]) = 3
  ∧ Forall (fun o => 0 <= o < 2 ^ 64) [16; 300016; 700016]
  ∧ 0 <= 2 < 2 ^ 32
  ∧ Z.of_nat (length (content example_sidecar_S6)) < 2 ^ 63
  ∧ _get_tile_infomation_version2 None 0 example_sidecar_S6 2
    = Ok (700016, 299984)
  ∧ _get_tile_infomation_version2 None 0 example_sidecar_S6 3
    = Error "Tile index is invalid".
Proof.
  assert (Hoffs : Forall (fun o => 0 <= o < 2 ^ 64) [16; 300016; 700016])
    by (repeat constructor; lia).
  assert (Hlen : Z.of_nat (length (content example_sidecar_S6)) < 2 ^ 63)
    by (rewrite example_sidecar_S6_length; lia).
  split; [reflexivity|]. split; [reflexivity|]. split; [reflexivity|].
  split; [exact Hoffs|]. split; [lia|]. split; [exact Hlen|].
  split.
  - destruct (major2_tile_location None 0 example_sidecar_S6 2 3
                [16; 300016; 700016] (le_split 8 0)
                (repeat (byte.of_Z 0) (Z.to_nat 999960))
                eq_refl eq_refl eq_refl Hoffs ltac:(lia) Hlen)
      as [_ Hin].
    destruct (Hin ltac:(lia)) as (offset & next & Ho & Hn & Hrun).
    injection Ho as <-. rewrite Hrun, Hn.
    rewrite decide_True by reflexivity.
    rewrite example_sidecar_S6_length. reflexivity.
  - destruct (major2_tile_location None 0 example_sidecar_S6 3 3
                [16; 300016; 700016] (le_split 8 0)
                (repeat (byte.of_Z 0) (Z.to_nat 999960))
                eq_refl eq_refl eq_refl Hoffs ltac:(lia) Hlen)
      as [Hout _].
    apply Hout. lia.
Defined.

End VsfProps.

(** * Using the cache: what a put leaves behind, references, round trips *)

Module CacheUse.
Import Cache CacheProps.
Local Open Scope cache_scope.

(* the entry after one of its references was released: [None] when that
   was the last one and the entry was freed *)
Definition released (e : _openslide_cache_entry)
  : option _openslide_cache_entry :=
  if decide (g_atomic_int_dec (refcount e) = 0) then None
  else Some {| refcount := g_atomic_int_dec (refcount e);
               data := data e; size := size e |}.

Lemma lookup_unref_entries_eq (p : ptr) es e :
  es !! p = Some e -> unref_entries p es !! p = released e.
Proof.
  intros He. unfold unref_entries, released. rewrite He.
  destruct (decide _).
  - apply lookup_delete_eq.
  - apply lookup_insert_eq.
Qed.

(* [residue m gone m']: [m'] is [m] without the resident values [gone]:
   they left the recency list, the index and the value heap, each released
   its reference to its entry, and nothing else changed *)
Definition residue (m : mem) (gone : list ptr) (m' : mem) : Prop :=
  (forall vp, vp ∈ gone -> vp ∈ queue (cache m))
  ∧ (forall vp, vp ∈ queue (cache m') <-> vp ∈ queue (cache m) ∧ vp ∉ gone)
  ∧ (forall vp, values m' !! vp
       = if decide (vp ∈ gone) then None else values m !! vp)
  ∧ (forall k, hashtable (cache m') !! k
       = match hashtable (cache m) !! k with
         | Some vp => if decide (vp ∈ gone) then None else Some vp
         | None => None
         end)
  ∧ (forall vp v e, vp ∈ gone -> values m !! vp = Some v ->
       entries m !! entry v = Some e ->
       entries m' !! entry v = released e)
  ∧ (forall p,
       (forall vp v, vp ∈ gone -> values m !! vp = Some v -> entry v ≠ p) ->
       entries m' !! p = entries m !! p)
  ∧ next m' = next m.

Lemma residue_nil (m : mem) : residue m [] m.
Proof.
  split; [intros vp H; by apply elem_of_nil in H|].
  split; [intros vp; split; [intros H; split; [done|apply not_elem_of_nil]|by intros [? _]]|].
  split; [done|].
  split; [intros k; by destruct (hashtable (cache m) !! k)|].
  split; [intros vp v e H; by apply elem_of_nil in H|].
  split; [done|done].
Qed.

Lemma removed_residue (m : mem) value v e :
  cache_inv m ->
  value ∈ queue (cache m) ->
  values m !! value = Some v ->
  entries m !! entry v = Some e ->
  residue m [value] (removed value v e m).
Proof.
  intros Hinv Hin Hv He.
  pose proof (inv_nodup m Hinv) as Hnd.
  destruct (inv_queue m Hinv value Hin) as (v0 & e0 & Hv0 & Hk & _).
  assert (v0 = v) as -> by congruence.
  split; [intros vp H; apply list_elem_of_singleton in H; by subst|].
  split.
  { intros vp. simpl. rewrite elem_of_delete_link by done.
    by rewrite list_elem_of_singleton. }
  split.
  { intros vp. simpl. destruct (decide (vp ∈ [value])) as [H|H].
    - apply list_elem_of_singleton in H as ->. apply lookup_delete_eq.
    - rewrite list_elem_of_singleton in H. by rewrite lookup_delete_ne. }
  split.
  { intros k. simpl. destruct (decide (k = key v)) as [->|Hne].
    - rewrite lookup_delete_eq, Hk. rewrite decide_True; [done|].
      by apply list_elem_of_singleton.
    - rewrite lookup_delete_ne by done.
      destruct (hashtable (cache m) !! k) as [vp|] eqn:Hl; [|done].
      rewrite decide_False; [done|]. rewrite list_elem_of_singleton. intros ->.
      destruct (inv_table m Hinv _ _ Hl) as (_ & v' & Hv' & Hkv').
      congruence. }
  split.
  { intros vp v' e' H Hv' He'. apply list_elem_of_singleton in H as ->.
    assert (v' = v) as -> by congruence. simpl.
    by apply lookup_unref_entries_eq. }
  split; [|done].
  intros p Hp. simpl. apply lookup_unref_entries_ne. intros <-.
  apply (Hp value v); [by apply list_elem_of_singleton|done|done].
Qed.

Lemma residue_trans (m m1 m2 : mem) (g1 g2 : list ptr) :
  cache_inv m ->
  residue m g1 m1 -> residue m1 g2 m2 -> residue m (g1 ++ g2) m2.
Proof.
  intros Hinv (Hin1 & Hq1 & Hv1 & Hh1 & He1 & Hf1 & Hn1)
              (Hin2 & Hq2 & Hv2 & Hh2 & He2 & Hf2 & Hn2).
  assert (Hsep : forall vp, vp ∈ g2 -> vp ∈ queue (cache m) ∧ vp ∉ g1).
  { intros vp H. by apply Hq1, Hin2. }
  assert (Hval2 : forall vp, vp ∈ g2 -> values m1 !! vp = values m !! vp).
  { intros vp H. rewrite Hv1. destruct (Hsep vp H) as [_ Hn].
    by rewrite decide_False. }
  (* entries of values that leave in different rounds are different *)
  assert (Hdiff : forall vp1 vp2 v1 v2, vp1 ∈ g1 -> vp2 ∈ g2 ->
            values m !! vp1 = Some v1 -> values m !! vp2 = Some v2 ->
            entry v1 ≠ entry v2).
  { intros vp1 vp2 v1 v2 H1 H2 Hva Hvb Heq.
    destruct (Hsep vp2 H2) as [Hq Hn]. apply Hn.
    rewrite <- (inv_entry_inj m Hinv vp1 vp2 v1 v2); auto. }
  split.
  { intros vp H. apply elem_of_app in H as [H|H]; [auto|by apply Hsep]. }
  split.
  { intros vp. rewrite Hq2, Hq1, elem_of_app. tauto. }
  split.
  { intros vp. rewrite Hv2, Hv1.
    destruct (decide (vp ∈ g2)) as [H2|H2].
    - rewrite decide_True; [done|]. apply elem_of_app. by right.
    - destruct (decide (vp ∈ g1)) as [H1|H1].
      + rewrite decide_True; [done|]. apply elem_of_app. by left.
      + rewrite decide_False; [done|]. rewrite elem_of_app. tauto. }
  split.
  { intros k. rewrite Hh2, Hh1.
    destruct (hashtable (cache m) !! k) as [vp|]; [|done].
    destruct (decide (vp ∈ g1)) as [H1|H1].
    - rewrite decide_True; [done|]. apply elem_of_app. by left.
    - destruct (decide (vp ∈ g2)) as [H2|H2].
      + rewrite decide_True; [done|]. apply elem_of_app. by right.
      + rewrite decide_False; [done|]. rewrite elem_of_app. tauto. }
  split.
  { intros vp v e H Hv He. apply elem_of_app in H as [H|H].
    - rewrite Hf2; [by apply (He1 vp v e)|].
      intros vp2 v2 H2 Hvb. rewrite (Hval2 vp2 H2) in Hvb.
      intros Heq. by apply (Hdiff vp vp2 v v2).
    - apply (He2 vp v e H); [by rewrite Hval2|].
      rewrite Hf1; [done|].
      intros vp1 v1 H1 Hva. by apply (Hdiff vp1 vp v1 v). }
  split; [|congruence].
  intros p Hp. rewrite Hf2, Hf1; [done| |].
  - intros vp v H Hv. apply (Hp vp v); [|done]. apply elem_of_app. by left.
  - intros vp v H Hv. rewrite (Hval2 vp H) in Hv.
    apply (Hp vp v); [|done]. apply elem_of_app. by right.
Qed.

(* the eviction loop, with everything it leaves behind *)
Lemma possibly_evict_loop_residue (fuel : nat) :
  forall (m : mem) (incoming : Z),
  cache_inv m ->
  0 <= incoming <= capacity (cache m) ->
  total_size (cache m) + incoming < 2 ^ 64 ->
  (length (queue (cache m)) < fuel)%nat ->
  exists m' gone,
    possibly_evict_loop fuel (total_size (cache m) + incoming)
      (capacity (cache m)) m = Ok (tt, m')
    ∧ cache_inv m'
    ∧ residue m gone m'
    ∧ queue (cache m) = queue (cache m') ++ reverse gone
    ∧ total_size (cache m') + incoming <= capacity (cache m')
    ∧ capacity (cache m') = capacity (cache m)
    ∧ warned_overlarge_entry (cache m') = warned_overlarge_entry (cache m)
    ∧ warnings m' = warnings m.
Proof.
  induction fuel as [|fuel IH]; intros m incoming Hinv Hinc Hno Hfuel; [lia|].
  simpl. destruct (decide (total_size (cache m) + incoming > capacity (cache m)))
    as [Hgt|Hle].
  - unfold bind at 1. unfold get_cache at 1.
    destruct (g_queue_peek_tail (queue (cache m))) as [value|] eqn:Htail.
    + unfold g_queue_peek_tail in Htail.
      apply last_Some in Htail as [q0 Hq].
      assert (Hin : value ∈ queue (cache m)).
      { rewrite Hq. apply elem_of_app. right. apply list_elem_of_here. }
      destruct (inv_queue m Hinv value Hin) as (v & e & Hv & Hk & He & Hs).
      pose proof (resident_size_ge m value Hinv Hin) as Hge.
      rewrite (entry_size_of_eq m value v e Hv He) in Hge.
      rewrite <- (inv_total m Hinv) in Hge.
      unfold bind at 1. unfold load_value at 1. rewrite Hv.
      unfold bind at 1. unfold load_entry at 1. rewrite He.
      unfold bind at 1.
      rewrite (g_hash_table_remove_run value m v e Hk Hv He Hge).
      unfold bind at 1. unfold g_assert at 1.
      destruct (removed_inv m value v e Hinv Hin Hv He) as [Hinv1 Htot1].
      pose proof (removed_residue m value v e Hinv Hin Hv He) as Hres1.
      set (m1 := removed value v e m) in *.
      assert (Hnd : NoDup (q0 ++ [value])) by (rewrite <- Hq; by apply inv_nodup).
      assert (Hnotin : value ∉ q0).
      { apply NoDup_app in Hnd as (_ & Hd & _). intros Hq0.
        apply (Hd value Hq0). apply list_elem_of_here. }
      assert (Hq1 : queue (cache m1) = q0).
      { subst m1. simpl. rewrite Hq. by apply delete_link_app_last. }
      assert (Hcap1 : capacity (cache m1) = capacity (cache m)) by done.
      assert (Hsz : wrap64 (total_size (cache m) + incoming - size e)
                    = total_size (cache m1) + incoming).
      { rewrite Htot1. unfold wrap64. rewrite Z.mod_small; lia. }
      rewrite Hsz.
      destruct (IH m1 incoming)
        as (m' & g & Hrun & Hinv' & Hres & Hqq & Hfit & Hcap & Hw & Hws);
        try done.
      { rewrite Htot1. lia. }
      { rewrite Hq1. rewrite Hq, length_app in Hfuel. simpl in Hfuel. lia. }
      exists m', ([value] ++ g). split; [exact Hrun|]. split; [done|].
      split; [by apply (residue_trans m m1 m')|].
      split.
      { rewrite Hq, <- Hq1, Hqq, reverse_app, reverse_singleton.
        by rewrite app_assoc. }
      split; [done|]. split; [by rewrite Hcap|]. split; [by rewrite Hw|].
      by rewrite Hws.
    + unfold g_queue_peek_tail in Htail. apply last_None in Htail.
      pose proof (inv_total m Hinv) as Ht. unfold resident_size in Ht.
      rewrite Htail in Ht. simpl in Ht. unfold Zsum in Ht. simpl in Ht. lia.
  - exists m, []. split; [done|]. split; [done|].
    split; [apply residue_nil|]. split; [by rewrite app_nil_r|].
    split; [lia|]. done.
Qed.

Lemma possibly_evict_residue (m : mem) (incoming : Z) :
  cache_inv m ->
  0 < incoming <= capacity (cache m) ->
  total_size (cache m) + incoming < 2 ^ 64 ->
  exists m' gone,
    possibly_evict incoming m = Ok (tt, m')
    ∧ cache_inv m'
    ∧ residue m gone m'
    ∧ queue (cache m) = queue (cache m') ++ reverse gone
    ∧ total_size (cache m') + incoming <= capacity (cache m')
    ∧ capacity (cache m') = capacity (cache m)
    ∧ warned_overlarge_entry (cache m') = warned_overlarge_entry (cache m)
    ∧ warnings m' = warnings m.
Proof.
  intros Hinv Hinc Hno.
  pose proof (resident_size_nonneg m Hinv) as Hnn.
  rewrite <- (inv_total m Hinv) in Hnn.
  assert (Hrun : possibly_evict incoming m =
            if bool_decide (wrap64 (total_size (cache m) + incoming)
                            > total_size (cache m))
            then possibly_evict_loop (S (length (queue (cache m))))
                   (wrap64 (total_size (cache m) + incoming))
                   (capacity (cache m)) m
            else Abort).
  { unfold possibly_evict. unfold_monad. by destruct (bool_decide _). }
  rewrite Hrun. clear Hrun.
  assert (Hw : wrap64 (total_size (cache m) + incoming)
               = total_size (cache m) + incoming).
  { unfold wrap64. rewrite Z.mod_small; lia. }
  rewrite Hw. rewrite bool_decide_eq_true_2 by lia.
  apply possibly_evict_loop_residue; try done; lia.
Qed.

(* the value indexed under a key, as the list of values that
   g_hash_table_replace destroys *)
Definition indexed_under (k : cache_key) (m : mem) : list ptr :=
  match hashtable (cache m) !! k with
  | Some old => [old]
  | None => []
  end.

Lemma drop_key_residue (k : cache_key) (m : mem) :
  cache_inv m -> residue m (indexed_under k m) (drop_key k m).
Proof.
  intros Hinv. unfold drop_key, indexed_under.
  destruct (hashtable (cache m) !! k) as [old|] eqn:Hk; [|apply residue_nil].
  destruct (inv_table m Hinv k old Hk) as (Hin & v & Hv & Hkv).
  destruct (inv_queue m Hinv old Hin) as (v' & e & Hv' & _ & He & Hs).
  assert (v' = v) as -> by congruence.
  rewrite Hv, He. by apply removed_residue.
Qed.

(* a put that fits, with everything it leaves behind: [gone] are the
   values evicted from the tail followed by the value replaced under the
   key, [m2] is the memory before the new value is inserted *)
Lemma put_fits_residue (m : mem) plane x y data sz :
  cache_inv m ->
  0 < sz <= capacity (cache m) ->
  total_size (cache m) + sz < 2 ^ 64 ->
  exists m2 gone,
    _openslide_cache_put plane x y data sz m =
      Ok (next m, inserted (plane, x, y) (next m) sz m2)
    ∧ cache_inv m2
    ∧ cache_inv (inserted (plane, x, y) (next m) sz m2)
    ∧ residue (with_entry (new_entry data sz) m) gone m2
    ∧ hashtable (cache m2) !! (plane, x, y) = None
    ∧ entries m2 !! next m = Some (new_entry data sz)
    ∧ total_size (cache m2) + sz <= capacity (cache m)
    ∧ capacity (cache m2) = capacity (cache m).
Proof.
  intros Hinv Hsz Hno.
  set (m0 := with_entry (new_entry data sz) m).
  assert (Hinv0 : cache_inv m0) by by apply with_entry_inv.
  destruct (possibly_evict_residue m0 sz Hinv0)
    as (m1 & g1 & Hev & Hinv1 & Hres1 & Hq1 & Hfit1 & Hcap1 & _); [done|done|].
  assert (Hput : _openslide_cache_put plane x y data sz m =
     match possibly_evict sz m0 with
     | Ok (_, m1) =>
        (value <- g_slice_new_value {| key := (plane, x, y); entry := next m |} ;;
         modify_cache (fun c => set_queue (g_queue_push_head (queue c) value) c) ;;
         g_hash_table_replace (plane, x, y) value ;;
         modify_cache (fun c => set_total_size (wrap64 (total_size c + sz)) c) ;;
         e <- load_entry (next m) ;;
         store_entry (next m) (ref_entry e) ;;
         ret (next m)) m1
     | Error msg => Error msg
     | Abort => Abort
     | Undefined => Undefined
     | Timeout => Timeout
     end).
  { unfold _openslide_cache_put. unfold bind at 1. unfold g_slice_new_entry at 1.
    unfold bind at 1. unfold get_cache at 1. cbn [cache].
    rewrite decide_False by lia.
    unfold bind at 1. reflexivity. }
  rewrite Hev in Hput.
  assert (Hunref0 : unreferenced m0 (next m)).
  { intros vp v Hvp Hv. by apply (fresh_entry_unreferenced m vp v). }
  pose proof Hres1 as (Hin1 & Hqq1 & Hv1 & Hh1 & He1 & Hf1 & Hn1).
  assert (He1n : entries m1 !! next m = Some (new_entry data sz)).
  { rewrite Hf1.
    - subst m0. simpl. by rewrite lookup_insert_eq.
    - intros vp v Hvp Hv. apply (Hunref0 vp v); [by apply Hin1|done]. }
  assert (Hunref1 : unreferenced m1 (next m)).
  { intros vp v Hvp Hv. apply Hqq1 in Hvp as [Hvp Hng].
    apply (Hunref0 vp v Hvp). rewrite Hv1 in Hv. by rewrite decide_False in Hv. }
  pose proof (fresh_value_None m1 Hinv1) as Hfv1.
  destruct (drop_key_spec (plane, x, y) m1 Hinv1)
    as (Hinv2 & Hk2 & Htot2 & Hcap2 & Hnext2 & Hframe2).
  destruct (Hframe2 _ Hunref1) as [Hunref2 He2].
  rewrite He1n in He2.
  pose proof (drop_key_residue (plane, x, y) m1 Hinv1) as Hres2.
  assert (Hrun2 : _openslide_cache_put plane x y data sz m =
            Ok (next m, inserted (plane, x, y) (next m) sz
                          (drop_key (plane, x, y) m1))).
  { rewrite Hput. unfold drop_key.
    destruct (hashtable (cache m1) !! (plane, x, y)) as [old|] eqn:Hk.
    - destruct (inv_table m1 Hinv1 _ old Hk) as (Hin & v & Hv & Hkv).
      destruct (inv_queue m1 Hinv1 old Hin) as (v' & e & Hv' & _ & He & Hs).
      assert (v' = v) as -> by congruence.
      rewrite Hv, He.
      pose proof (resident_size_ge m1 old Hinv1 Hin) as Hge.
      rewrite (entry_size_of_eq m1 old v e Hv He) in Hge.
      rewrite <- (inv_total m1 Hinv1) in Hge.
      assert (Hne : next m1 ≠ old) by (intros <-; congruence).
      assert (Hene : entry v ≠ next m) by by apply (Hunref1 old v).
      unfold bind at 1. unfold g_slice_new_value at 1.
      unfold bind at 1. unfold modify_cache at 1. unfold_monad.
      unfold g_hash_table_replace. unfold_monad. rewrite Hk.
      erewrite hash_destroy_value_run;
        [| simpl; rewrite lookup_insert_ne by done; exact Hv
         | simpl; exact He | simpl; exact Hge ].
      simpl. rewrite lookup_unref_entries_ne by done. rewrite He1n.
      unfold inserted. simpl.
      rewrite lookup_unref_entries_ne by done. rewrite He1n.
      rewrite decide_False by done.
      rewrite <- Hkv, insert_delete_eq, delete_insert_ne by done.
      reflexivity.
    - unfold bind at 1. unfold g_slice_new_value at 1.
      unfold bind at 1. unfold modify_cache at 1. unfold_monad.
      unfold g_hash_table_replace. unfold_monad. rewrite Hk. simpl.
      rewrite He1n. unfold inserted. rewrite He1n. reflexivity. }
  exists (drop_key (plane, x, y) m1), (g1 ++ indexed_under (plane, x, y) m1).
  split; [exact Hrun2|]. split; [done|].
  assert (Hcap0 : capacity (cache m0) = capacity (cache m)) by done.
  split.
  { apply (inserted_inv _ _ _ _ (new_entry data sz)); try done; lia. }
  split.
  { by apply (residue_trans m0 m1). }
  split; [done|]. split; [done|].
  split; [lia|]. by rewrite Hcap2, Hcap1.
Qed.

(** ** Round trips and references *)

(** X1.  Put then get: after a put that fits (not over-large, size at
    least 1, no 64-bit wrap), a get of the same key hits: it returns the
    data pointer that was put and the entry the put returned, whose count
    is then 3 (the cache, the caller of put, the caller of get); the value
    already was at the head of the recency list and stays there, and
    [total_size] is unchanged by the get. *)
Theorem put_then_get_hits (m : mem) (plane x y data sz : Z) :
  cache_inv m ->
  0 < sz <= capacity (cache m) ->
  total_size (cache m) + sz < 2 ^ 64 ->
  exists m1 m2 value,
    _openslide_cache_put plane x y data sz m = Ok (next m, m1)
    ∧ _openslide_cache_get plane x y m1 = Ok ((data, Some (next m)), m2)
    ∧ hashtable (cache m1) !! (plane, x, y) = Some value
    ∧ head (queue (cache m1)) = Some value
    ∧ entries m1 !! next m = Some {| refcount := 2; data := data; size := sz |}
    ∧ entries m2 !! next m = Some {| refcount := 3; data := data; size := sz |}
    ∧ queue (cache m2) = queue (cache m1)
    ∧ total_size (cache m2) = total_size (cache m1).
Proof.
  intros Hinv Hsz Hno.
  destruct (put_fits_residue m plane x y data sz Hinv Hsz Hno)
    as (m2 & gone & Hput & Hinv2 & Hinv' & _ & Hk2 & He2 & _).
  set (m1 := inserted (plane, x, y) (next m) sz m2) in *.
  assert (Hk1 : hashtable (cache m1) !! (plane, x, y) = Some (next m2)).
  { subst m1. simpl. apply lookup_insert_eq. }
  assert (Hv1 : values m1 !! next m2
                = Some {| key := (plane, x, y); entry := next m |}).
  { subst m1. simpl. apply lookup_insert_eq. }
  assert (He1 : entries m1 !! next m
                = Some {| refcount := 2; data := data; size := sz |}).
  { subst m1. unfold inserted. cbn [entries]. rewrite He2.
    rewrite lookup_insert_eq. reflexivity. }
  exists m1, (touched (next m2) {| key := (plane, x, y); entry := next m |}
                {| refcount := 2; data := data; size := sz |} m1), (next m2).
  split; [exact Hput|]. split.
  { by rewrite (get_hit_run m1 plane x y _ _ _ Hk1 Hv1 He1). }
  split; [done|]. split; [done|]. split; [done|]. split.
  { simpl. rewrite lookup_insert_eq. reflexivity. }
  split; [|done].
  simpl. unfold g_queue_push_head. by rewrite decide_True.
Qed.

Lemma put_then_get_hits_witness :
  cache_inv two_tiles
  ∧ 0 < 30 <= capacity (cache two_tiles)
  ∧ total_size (cache two_tiles) + 30 < 2 ^ 64
  ∧ exists m1 m2 value,
      _openslide_cache_put 7 2 0 1002 30 two_tiles = Ok (5%positive, m1)
      ∧ _openslide_cache_get 7 2 0 m1 = Ok ((1002, Some 5%positive), m2)
      ∧ hashtable (cache m1) !! (7, 2, 0) = Some value
      ∧ head (queue (cache m1)) = Some value
      ∧ entries m1 !! 5%positive
        = Some {| refcount := 2; data := 1002; size := 30 |}
      ∧ entries m2 !! 5%positive
        = Some {| refcount := 3; data := 1002; size := 30 |}
      ∧ queue (cache m2) = queue (cache m1)
      ∧ total_size (cache m2) = total_size (cache m1).
Proof.
  assert (H1 : 0 < 30 <= capacity (cache two_tiles)) by (simpl; lia).
  assert (H2 : total_size (cache two_tiles) + 30 < 2 ^ 64) by (vm_compute; reflexivity).
  split; [exact two_tiles_inv|]. split; [exact H1|]. split; [exact H2|].
  exact (put_then_get_hits two_tiles 7 2 0 1002 30 two_tiles_inv H1 H2).
Defined.

(** X2.  A put releases each value it drops exactly once.  After a put
    that fits, every value that was resident before either is still
    resident, with its entry untouched, or is gone from the recency list
    and freed, and its entry has lost exactly one reference: the entry is
    freed when that was its last reference and otherwise stays live with
    its data and size, for the callers that still hold it. *)
Theorem put_releases_once (m : mem) (plane x y data sz : Z) :
  cache_inv m ->
  0 < sz <= capacity (cache m) ->
  total_size (cache m) + sz < 2 ^ 64 ->
  exists m',
    _openslide_cache_put plane x y data sz m = Ok (next m, m')
    ∧ forall vp v e,
        vp ∈ queue (cache m) ->
        values m !! vp = Some v ->
        entries m !! entry v = Some e ->
        (vp ∈ queue (cache m') ∧ values m' !! vp = Some v
         ∧ entries m' !! entry v = Some e)
        ∨ ((vp ∉ queue (cache m')) ∧ values m' !! vp = None
           ∧ entries m' !! entry v = released e).
Proof.
  intros Hinv Hsz Hno.
  destruct (put_fits_residue m plane x y data sz Hinv Hsz Hno)
    as (m2 & gone & Hput & Hinv2 & Hinv' & Hres & Hk2 & He2 & _).
  exists (inserted (plane, x, y) (next m) sz m2). split; [exact Hput|].
  intros vp v e Hvp Hv He.
  destruct Hres as (Hin & Hq & Hvals & Hh & Hrel & Hframe & Hnext).
  simpl in Hnext.
  assert (Hlt : (vp < next m)%positive).
  { apply (inv_fresh_values m Hinv). by rewrite Hv. }
  assert (Hne : next m2 ≠ vp) by (rewrite Hnext; lia).
  assert (Hene : entry v ≠ next m).
  { by apply (fresh_entry_unreferenced m vp v). }
  assert (He0 : entries (with_entry (new_entry data sz) m) !! entry v = Some e).
  { simpl. by rewrite lookup_insert_ne. }
  assert (Hev : entries (inserted (plane, x, y) (next m) sz m2) !! entry v
                = entries m2 !! entry v).
  { unfold inserted. cbn [entries]. rewrite He2. by rewrite lookup_insert_ne. }
  assert (Hvv : values (inserted (plane, x, y) (next m) sz m2) !! vp
                = values m2 !! vp).
  { simpl. by rewrite lookup_insert_ne. }
  assert (Hqq : vp ∈ queue (cache (inserted (plane, x, y) (next m) sz m2))
                <-> vp ∈ queue (cache m2)).
  { simpl. unfold g_queue_push_head. rewrite elem_of_cons.
    split; [intros [Heq|?]; [congruence|done]|by right]. }
  rewrite Hev, Hvv, Hqq, Hvals, (Hq vp).
  destruct (decide (vp ∈ gone)) as [Hg|Hg].
  - right. split; [tauto|]. split; [done|].
    by apply (Hrel vp v e).
  - left. split; [done|]. split; [done|].
    rewrite Hframe; [done|].
    intros vp' v' Hg' Hv' Heq. simpl in Hv'.
    apply Hg. assert (vp' ∈ queue (cache m)) by (by apply Hin in Hg').
    by rewrite (inv_entry_inj m Hinv vp vp' v v').
Qed.

Lemma put_releases_once_witness :
  cache_inv two_tiles
  ∧ 0 < 85 <= capacity (cache two_tiles)
  ∧ total_size (cache two_tiles) + 85 < 2 ^ 64
  ∧ exists m',
      _openslide_cache_put 7 2 0 1002 85 two_tiles = Ok (5%positive, m')
      ∧ forall vp v e,
          vp ∈ queue (cache two_tiles) ->
          values two_tiles !! vp = Some v ->
          entries two_tiles !! entry v = Some e ->
          (vp ∈ queue (cache m') ∧ values m' !! vp = Some v
           ∧ entries m' !! entry v = Some e)
          ∨ ((vp ∉ queue (cache m')) ∧ values m' !! vp = None
             ∧ entries m' !! entry v = released e).
Proof.
  assert (H1 : 0 < 85 <= capacity (cache two_tiles)) by (simpl; lia).
  assert (H2 : total_size (cache two_tiles) + 85 < 2 ^ 64) by (vm_compute; reflexivity).
  split; [exact two_tiles_inv|]. split; [exact H1|]. split; [exact H2|].
  exact (put_releases_once two_tiles 7 2 0 1002 85 two_tiles_inv H1 H2).
Defined.

(** X3.  A put and the other keys: after a put that fits under key [k],
    the index maps every other key either to the value it mapped it to
    before, when that value is still resident, or to nothing.  A put never
    makes another key resident and never rebinds one. *)
Theorem put_other_keys (m : mem) (plane x y data sz : Z) (k' : cache_key) :
  cache_inv m ->
  0 < sz <= capacity (cache m) ->
  total_size (cache m) + sz < 2 ^ 64 ->
  k' ≠ (plane, x, y) ->
  exists m',
    _openslide_cache_put plane x y data sz m = Ok (next m, m')
    ∧ hashtable (cache m') !! k'
      = match hashtable (cache m) !! k' with
        | Some vp =>
            if decide (vp ∈ queue (cache m')) then Some vp else None
        | None => None
        end.
Proof.
  intros Hinv Hsz Hno Hk'.
  destruct (put_fits_residue m plane x y data sz Hinv Hsz Hno)
    as (m2 & gone & Hput & Hinv2 & Hinv' & Hres & Hk2 & He2 & _).
  exists (inserted (plane, x, y) (next m) sz m2). split; [exact Hput|].
  destruct Hres as (Hin & Hq & Hvals & Hh & Hrel & Hframe & Hnext).
  simpl in Hnext. simpl. rewrite lookup_insert_ne by done.
  rewrite Hh. simpl.
  destruct (hashtable (cache m) !! k') as [vp|] eqn:Hl; [|done].
  destruct (inv_table m Hinv _ _ Hl) as (Hvp & v & Hv & _).
  assert (Hlt : (vp < next m)%positive).
  { apply (inv_fresh_values m Hinv). by rewrite Hv. }
  unfold g_queue_push_head.
  destruct (decide (vp ∈ gone)) as [Hg|Hg].
  - rewrite decide_False; [done|]. rewrite elem_of_cons, (Hq vp).
    intros [->|[_ ?]]; [lia|done].
  - rewrite decide_True; [done|]. apply elem_of_cons. right.
    apply Hq. by split.
Qed.

Lemma put_other_keys_witness :
  cache_inv two_tiles
  ∧ 0 < 75 <= capacity (cache two_tiles)
  ∧ total_size (cache two_tiles) + 75 < 2 ^ 64
  ∧ (7, 0, 0) ≠ (7, 2, 0)
  ∧ exists m',
      _openslide_cache_put 7 2 0 1002 75 two_tiles = Ok (5%positive, m')
      ∧ hashtable (cache m') !! (7, 0, 0)
        = match hashtable (cache two_tiles) !! (7, 0, 0) with
          | Some vp =>
              if decide (vp ∈ queue (cache m')) then Some vp else None
          | None => None
          end.
Proof.
  assert (H1 : 0 < 75 <= capacity (cache two_tiles)) by (simpl; lia).
  assert (H2 : total_size (cache two_tiles) + 75 < 2 ^ 64) by (vm_compute; reflexivity).
  assert (H3 : (7, 0, 0) ≠ (7, 2, 0)) by discriminate.
  split; [exact two_tiles_inv|]. split; [exact H1|]. split; [exact H2|].
  split; [exact H3|].
  exact (put_other_keys two_tiles 7 2 0 1002 75 (7, 0, 0) two_tiles_inv H1 H2 H3).
Defined.

(** X4.  An over-large put leaks nothing: when the caller releases the
    entry that an over-large put returned, the entry is freed and the
    heaps, the recency list, the index and [total_size] are exactly what
    they were before the put. *)
Theorem overlarge_put_then_unref (m : mem) (plane x y data sz : Z) :
  cache_inv m ->
  sz > capacity (cache m) ->
  exists m1 m2,
    _openslide_cache_put plane x y data sz m = Ok (next m, m1)
    ∧ _openslide_cache_entry_unref (next m) m1 = Ok (tt, m2)
    ∧ entries m2 = entries m
    ∧ values m2 = values m
    ∧ queue (cache m2) = queue (cache m)
    ∧ hashtable (cache m2) = hashtable (cache m)
    ∧ total_size (cache m2) = total_size (cache m).
Proof.
  intros Hinv Hgt. eexists. eexists.
  split; [by apply put_overlarge_run|].
  split.
  { apply (entry_unref_run _ _ (new_entry data sz)). simpl.
    apply lookup_insert_eq. }
  simpl. split; [|done].
  unfold unref_entries. rewrite lookup_insert_eq. simpl.
  rewrite delete_insert_eq. apply delete_id. by apply fresh_entry_None.
Qed.

Lemma overlarge_put_then_unref_witness :
  cache_inv two_tiles
  ∧ 101 > capacity (cache two_tiles)
  ∧ exists m1 m2,
      _openslide_cache_put 7 2 0 1002 101 two_tiles = Ok (5%positive, m1)
      ∧ _openslide_cache_entry_unref 5%positive m1 = Ok (tt, m2)
      ∧ entries m2 = entries two_tiles
      ∧ values m2 = values two_tiles
      ∧ queue (cache m2) = queue (cache two_tiles)
      ∧ hashtable (cache m2) = hashtable (cache two_tiles)
      ∧ total_size (cache m2) = total_size (cache two_tiles).
Proof.
  assert (H1 : 101 > capacity (cache two_tiles)) by (simpl; lia).
  split; [exact two_tiles_inv|]. split; [exact H1|].
  exact (overlarge_put_then_unref two_tiles 7 2 0 1002 101 two_tiles_inv H1).
Defined.

(* taking a reference and giving it back leaves the entry heap as it was *)
Lemma ref_unref_entries (es : gmap ptr _openslide_cache_entry) (p : ptr)
    (e : _openslide_cache_entry) :
  es !! p = Some e ->
  0 < refcount e < gint_max ->
  unref_entries p (<[p := ref_entry e]> es) = es.
Proof.
  intros He Hr.
  assert (Hinc : g_atomic_int_inc (refcount e) = refcount e + 1).
  { apply g_atomic_int_inc_no_wrap. unfold gint_max in *. lia. }
  assert (Hdec : g_atomic_int_dec (refcount e + 1) = refcount e).
  { unfold g_atomic_int_dec, to_signed, gint_max in *.
    replace (refcount e + 1 - 1) with (refcount e) by lia.
    rewrite Z.mod_small by lia. rewrite decide_True; lia. }
  unfold unref_entries. rewrite lookup_insert_eq. simpl.
  rewrite Hinc, Hdec. rewrite decide_False by lia.
  rewrite insert_insert_eq. apply insert_id. rewrite He. by destruct e.
Qed.

(** X5.  Get and unref are balanced: on a resident key whose entry has a
    count between 1 and G_MAXINT - 1, a get followed by the caller's unref
    of the entry it was handed leaves the entry heap, the value heap, the
    index and [total_size] as they were; what remains of the get is that
    the value now is at the head of the recency list. *)
Theorem get_then_unref_restores (m : mem) (plane x y : Z) (value : ptr)
    (v : _openslide_cache_value) (e : _openslide_cache_entry) :
  hashtable (cache m) !! (plane, x, y) = Some value ->
  values m !! value = Some v ->
  entries m !! entry v = Some e ->
  0 < refcount e < gint_max ->
  exists m1 m2,
    _openslide_cache_get plane x y m = Ok ((data e, Some (entry v)), m1)
    ∧ _openslide_cache_entry_unref (entry v) m1 = Ok (tt, m2)
    ∧ entries m2 = entries m
    ∧ values m2 = values m
    ∧ hashtable (cache m2) = hashtable (cache m)
    ∧ total_size (cache m2) = total_size (cache m)
    ∧ queue (cache m2) = value :: g_queue_delete_link (queue (cache m)) value.
Proof.
  intros Hk Hv He Hr. eexists. eexists.
  split; [by apply get_hit_run|].
  split.
  { apply (entry_unref_run _ _ (ref_entry e)). simpl. apply lookup_insert_eq. }
  simpl. split; [|done].
  by apply ref_unref_entries.
Qed.

Lemma get_then_unref_restores_witness :
  hashtable (cache two_tiles) !! (7, 0, 0) = Some 2%positive
  ∧ values two_tiles !! 2%positive
    = Some {| key := (7, 0, 0); entry := 1%positive |}
  ∧ entries two_tiles !! 1%positive
    = Some {| refcount := 2; data := 1000; size := 10 |}
  ∧ 0 < 2 < gint_max
  ∧ exists m1 m2,
      _openslide_cache_get 7 0 0 two_tiles = Ok ((1000, Some 1%positive), m1)
      ∧ _openslide_cache_entry_unref 1%positive m1 = Ok (tt, m2)
      ∧ entries m2 = entries two_tiles
      ∧ queue (cache m2) = [2%positive; 4%positive].
Proof.
  assert (H1 : hashtable (cache two_tiles) !! (7, 0, 0) = Some 2%positive)
    by reflexivity.
  assert (H2 : values two_tiles !! 2%positive
               = Some {| key := (7, 0, 0); entry := 1%positive |})
    by reflexivity.
  assert (H3 : entries two_tiles !! 1%positive
               = Some {| refcount := 2; data := 1000; size := 10 |})
    by reflexivity.
  assert (H4 : 0 < 2 < gint_max) by (unfold gint_max; lia).
  split; [exact H1|]. split; [exact H2|]. split; [exact H3|].
  split; [exact H4|].
  destruct (get_then_unref_restores two_tiles 7 0 0 2%positive _ _ H1 H2 H3 H4)
    as (m1 & m2 & Hget & Hun & He & _ & _ & _ & Hq).
  exists m1, m2. split; [exact Hget|]. split; [exact Hun|].
  split; [exact He|]. rewrite Hq. reflexivity.
Defined.

(** X6.  The wrap-around check of possibly_evict: a put of a size that
    fits the capacity but makes [total_size + size] reach 2^64 fails the
    assertion of [possibly_evict] and aborts the process; the check comes
    before any eviction, so it fires although evicting would make room. *)
Theorem put_wraparound_aborts (m : mem) (plane x y data sz : Z) :
  cache_inv m ->
  0 < sz <= capacity (cache m) ->
  2 ^ 64 <= total_size (cache m) + sz ->
  _openslide_cache_put plane x y data sz m = Abort.
Proof.
  intros Hinv Hsz Hov.
  destruct (put_fits_run m plane x y data sz Hinv) as [[Hab _]|(_ & Hno & _)];
    [lia|exact Hab|lia].
Qed.

(* a cache that can hold 2^64 - 1 bytes, with one tile of 2^63 bytes *)
Definition huge_tile : mem :=
  inserted (7, 0, 0) 1%positive (2 ^ 63)
    (with_entry (new_entry 1000 (2 ^ 63)) (initial_mem (2 ^ 64 - 1))).

Lemma huge_tile_reachable :
  run [Put 7 0 0 1000 (2 ^ 63)] (initial_mem (2 ^ 64 - 1)) = Ok (tt, huge_tile).
Proof. vm_compute. reflexivity. Qed.

Lemma huge_tile_inv : cache_inv huge_tile.
Proof.
  apply (reachable_inv (2 ^ 64 - 1) [Put 7 0 0 1000 (2 ^ 63)]).
  - lia.
  - apply (@bool_decide_unpack _ (disciplined_dec _ _)). vm_compute. exact I.
  - exact huge_tile_reachable.
Qed.

Lemma put_wraparound_aborts_witness :
  cache_inv huge_tile
  ∧ 0 < 2 ^ 63 <= capacity (cache huge_tile)
  ∧ 2 ^ 64 <= total_size (cache huge_tile) + 2 ^ 63
  ∧ _openslide_cache_put 7 1 0 1001 (2 ^ 63) huge_tile = Abort.
Proof.
  assert (H1 : 0 < 2 ^ 63 <= capacity (cache huge_tile)) by (simpl; lia).
  assert (H2 : 2 ^ 64 <= total_size (cache huge_tile) + 2 ^ 63)
    by (vm_compute; discriminate).
  split; [exact huge_tile_inv|]. split; [exact H1|]. split; [exact H2|].
  exact (put_wraparound_aborts huge_tile 7 1 0 1001 (2 ^ 63) huge_tile_inv H1 H2).
Defined.

End CacheUse.

(** * Caches and bindings: the rest of openslide-cache.c

    A slide handle reaches its cache through a binding; several bindings
    may share one cache, which is reference-counted.  The heap below holds
    the live caches and bindings next to the values and entries that the
    caches share with their callers. *)

Module Binding.
Import Cache.
Local Open Scope cache_scope.

Record heap := {
  caches : gmap ptr _openslide_cache;   (* live struct _openslide_cache *)
  bindings : gmap ptr ptr;              (* live bindings: cb->cache *)
  hvalues : gmap ptr _openslide_cache_value;
  hentries : gmap ptr _openslide_cache_entry;
  hnext : ptr;
  hwarnings : nat
}.

Definition empty_heap : heap :=
  {| caches := ∅; bindings := ∅; hvalues := ∅; hentries := ∅;
     hnext := 1%positive; hwarnings := 0%nat |}.

Definition H (A : Type) : Type := heap -> result (A * heap).

(* the memory a function of one cache works on *)
Definition view (h : heap) (c : _openslide_cache) : mem :=
  {| cache := c; values := hvalues h; entries := hentries h;
     next := hnext h; warnings := hwarnings h |}.

(* the heap once the function of cache [cp] has returned in [m] *)
Definition commit (h : heap) (cp : ptr) (m : mem) : heap :=
  {| caches := <[cp := cache m]> (caches h); bindings := bindings h;
     hvalues := values m; hentries := entries m;
     hnext := next m; hwarnings := warnings m |}.

(* run the critical section [f] on the cache a binding points to; a
   binding or cache that is not live is a dangling pointer *)
Definition with_binding {A} (cb : ptr) (f : M A) : H A := fun h =>
  match bindings h !! cb with
  | None => Undefined
  | Some cp =>
      match caches h !! cp with
      | None => Undefined
      | Some c =>
          match f (view h c) with
          | Ok (a, m) => Ok (a, commit h cp m)
          | Error msg => Error msg
          | Abort => Abort
          | Undefined => Undefined
          | Timeout => Timeout
          end
      end
  end.

(* _openslide_cache_put and _openslide_cache_get with their first
   parameter, the binding *)
Definition _openslide_cache_put (cb : ptr) (plane x y data size_in_bytes : Z)
  : H ptr :=
  with_binding cb (Cache._openslide_cache_put plane x y data size_in_bytes).

Definition _openslide_cache_get (cb : ptr) (plane x y : Z)
  : H (Z * option ptr) :=
  with_binding cb (Cache._openslide_cache_get plane x y).

(* _openslide_cache_create: the new cache object *)
Definition _openslide_cache_create (capacity_in_bytes : Z) : H ptr := fun h =>
  Ok (hnext h,
      {| caches := <[hnext h := Cache._openslide_cache_create capacity_in_bytes]>
                     (caches h);
         bindings := bindings h; hvalues := hvalues h; hentries := hentries h;
         hnext := Pos.succ (hnext h); hwarnings := hwarnings h |}).

Definition set_cache_refcount (r : Z) (c : _openslide_cache) : _openslide_cache :=
  {| queue := queue c; hashtable := hashtable c; cache_refcount := r;
     capacity := capacity c; total_size := total_size c;
     warned_overlarge_entry := warned_overlarge_entry c |}.

Definition INT_MAX : Z := 2 ^ 31 - 1.
Definition INT_MIN : Z := - 2 ^ 31.

(* cache_ref: cache->refcount++ on an int *)
Definition cache_ref (cp : ptr) : H unit := fun h =>
  match caches h !! cp with
  | None => Undefined
  | Some c =>
      if decide (cache_refcount c = INT_MAX) then Undefined
      else Ok (tt, {| caches := <[cp := set_cache_refcount (cache_refcount c + 1) c]>
                                  (caches h);
                      bindings := bindings h; hvalues := hvalues h;
                      hentries := hentries h; hnext := hnext h;
                      hwarnings := hwarnings h |})
  end.

(* the value destructor run on each value of a table that is destroyed *)
Fixpoint destroy_all (vs : list ptr) : M unit :=
  match vs with
  | [] => ret tt
  | value :: vs' => hash_destroy_value value ;; destroy_all vs'
  end.

Section TableOrder.

(* The order in which g_hash_table_unref visits the values of the table
   it destroys is GLib's business. *)
Variable table_order : gmap cache_key ptr -> list ptr.

(* g_hash_table_unref on the one reference to the table: every pair is
   destroyed (hash_destroy_key frees the key, hash_destroy_value runs on
   the value) *)
Definition g_hash_table_unref : M unit := fun m =>
  destroy_all (table_order (hashtable (cache m))) m.

(* cache_unref *)
Definition cache_unref (cp : ptr) : H unit := fun h =>
  match caches h !! cp with
  | None => Undefined
  | Some c =>
      if decide (cache_refcount c = INT_MIN) then Undefined
      else
        let c := set_cache_refcount (cache_refcount c - 1) c in
        (* decrement refcount, return if references remain *)
        if decide (cache_refcount c ≠ 0) then
          Ok (tt, {| caches := <[cp := c]> (caches h);
                     bindings := bindings h; hvalues := hvalues h;
                     hentries := hentries h; hnext := hnext h;
                     hwarnings := hwarnings h |})
        else
          (* clear hashtable (auto-deletes all data) *)
          match g_hash_table_unref (view h c) with
          | Ok (_, m) =>
              (* clear list, destroy struct *)
              Ok (tt, {| caches := delete cp (caches h);
                         bindings := bindings h;
                         hvalues := values m; hentries := entries m;
                         hnext := next m; hwarnings := warnings m |})
          | Error msg => Error msg
          | Abort => Abort
          | Undefined => Undefined
          | Timeout => Timeout
          end
  end.

Definition hbind {A B} (c : H A) (k : A -> H B) : H B := fun h =>
  match c h with
  | Ok (a, h') => k a h'
  | Error msg => Error msg
  | Abort => Abort
  | Undefined => Undefined
  | Timeout => Timeout
  end.

(* _openslide_cache_binding_create *)
Definition _openslide_cache_binding_create : H ptr := fun h =>
  let cb := hnext h in
  let h := {| caches := caches h; bindings := bindings h;
              hvalues := hvalues h; hentries := hentries h;
              hnext := Pos.succ (hnext h); hwarnings := hwarnings h |} in
  match _openslide_cache_create DEFAULT_CACHE_SIZE h with
  | Ok (cp, h) =>
      Ok (cb, {| caches := caches h; bindings := <[cb := cp]> (bindings h);
                 hvalues := hvalues h; hentries := hentries h;
                 hnext := hnext h; hwarnings := hwarnings h |})
  | Error msg => Error msg
  | Abort => Abort
  | Undefined => Undefined
  | Timeout => Timeout
  end.

(* _openslide_cache_binding_set *)
Definition _openslide_cache_binding_set (cb cp : ptr) : H unit :=
  hbind (cache_ref cp) (fun _ => fun h =>
    match bindings h !! cb with
    | None => Undefined
    | Some old =>
        cache_unref old
          {| caches := caches h; bindings := <[cb := cp]> (bindings h);
             hvalues := hvalues h; hentries := hentries h;
             hnext := hnext h; hwarnings := hwarnings h |}
    end).

(* _openslide_cache_binding_destroy *)
Definition _openslide_cache_binding_destroy (cb : ptr) : H unit := fun h =>
  match bindings h !! cb with
  | None => Undefined
  | Some cp =>
      match cache_unref cp h with
      | Ok (_, h) =>
          Ok (tt, {| caches := caches h; bindings := delete cb (bindings h);
                     hvalues := hvalues h; hentries := hentries h;
                     hnext := hnext h; hwarnings := hwarnings h |})
      | Error msg => Error msg
      | Abort => Abort
      | Undefined => Undefined
      | Timeout => Timeout
      end
  end.

End TableOrder.

End Binding.

Module BindingProps.
Import Cache CacheProps CacheUse Binding.
Local Open Scope cache_scope.

(* the memory with another index: hash_destroy_value does not look at the
   index *)
Definition retable (ht : gmap cache_key ptr) (m : mem) : mem :=
  {| cache := set_hashtable ht (cache m); values := values m;
     entries := entries m; next := next m; warnings := warnings m |}.

Lemma destroy_all_spec (ht : gmap cache_key ptr) (vs : list ptr) :
  forall g : mem,
  cache_inv g ->
  NoDup vs ->
  (forall vp, vp ∈ vs -> vp ∈ queue (cache g)) ->
  exists g',
    destroy_all vs (retable ht g) = Ok (tt, retable ht g')
    ∧ cache_inv g'
    ∧ residue g vs g'
    ∧ capacity (cache g') = capacity (cache g)
    ∧ cache_refcount (cache g') = cache_refcount (cache g)
    ∧ warned_overlarge_entry (cache g') = warned_overlarge_entry (cache g)
    ∧ warnings g' = warnings g.
Proof.
  induction vs as [|value vs IH]; intros g Hinv Hnd Hin.
  - exists g. split; [done|]. split; [done|]. split; [apply residue_nil|done].
  - apply NoDup_cons in Hnd as [Hnotin Hnd].
    assert (Hvq : value ∈ queue (cache g)) by (apply Hin, list_elem_of_here).
    destruct (inv_queue g Hinv value Hvq) as (v & e & Hv & Hk & He & Hs).
    pose proof (resident_size_ge g value Hinv Hvq) as Hge.
    rewrite (entry_size_of_eq g value v e Hv He) in Hge.
    rewrite <- (inv_total g Hinv) in Hge.
    destruct (removed_inv g value v e Hinv Hvq Hv He) as [Hinv1 _].
    pose proof (removed_residue g value v e Hinv Hvq Hv He) as Hres1.
    destruct (IH (removed value v e g) Hinv1 Hnd)
      as (g' & Hrun & Hinv' & Hres & Hcap & Hrc & Hw & Hws).
    { intros vp Hvp. destruct Hres1 as (_ & Hq & _). apply Hq.
      split; [apply Hin; by apply list_elem_of_further|].
      rewrite list_elem_of_singleton. intros ->. done. }
    exists g'. split.
    { cbn [destroy_all]. unfold bind at 1.
      rewrite (hash_destroy_value_run value (retable ht g) v e Hv He Hge).
      exact Hrun. }
    split; [done|]. split; [|done].
    change (value :: vs) with ([value] ++ vs).
    by apply (residue_trans g (removed value v e g)).
Qed.

Section TableOrder.

Variable table_order : gmap cache_key ptr -> list ptr.
Hypothesis table_order_perm :
  forall ht, table_order ht ≡ₚ (map_to_list ht).*2.

(* destroying the table of a cache that satisfies the invariant *)
Lemma g_hash_table_unref_spec (m : mem) :
  cache_inv m ->
  exists g',
    g_hash_table_unref table_order m = Ok (tt, retable (hashtable (cache m)) g')
    ∧ residue m (queue (cache m)) g'
    ∧ queue (cache g') = []
    ∧ total_size (cache g') = 0.
Proof.
  intros Hinv.
  assert (Hperm : table_order (hashtable (cache m)) ≡ₚ queue (cache m)).
  { rewrite table_order_perm. by apply hashtable_values_perm. }
  destruct (destroy_all_spec (hashtable (cache m))
              (table_order (hashtable (cache m))) m Hinv)
    as (g' & Hrun & Hinv' & Hres & _).
  { rewrite Hperm. by apply inv_nodup. }
  { intros vp Hvp. by rewrite <- Hperm. }
  assert (Hm : retable (hashtable (cache m)) m = m).
  { destruct m as [[] ? ? ? ?]. reflexivity. }
  rewrite Hm in Hrun.
  assert (Hq : queue (cache g') = []).
  { apply elem_of_nil_inv. intros vp Hvp.
    destruct Hres as (_ & Hq & _). apply Hq in Hvp as [Hvp Hn].
    apply Hn. by rewrite Hperm. }
  exists g'. split; [exact Hrun|]. split.
  { destruct Hres as (H1 & H2 & H3 & H4 & H5 & H6 & H7).
    split; [done|].
    split; [intros vp; rewrite H2, Hperm; done|].
    split; [intros vp; rewrite H3;
            destruct (decide (vp ∈ table_order (hashtable (cache m))));
            destruct (decide (vp ∈ queue (cache m))); try done;
            exfalso; rewrite Hperm in *; done|].
    split; [intros k; rewrite H4; destruct (hashtable (cache m) !! k); [|done];
            destruct (decide (_ ∈ table_order (hashtable (cache m))));
            destruct (decide (_ ∈ queue (cache m))); try done;
            exfalso; rewrite Hperm in *; done|].
    split; [intros vp v e Hvp; apply H5; by rewrite Hperm|].
    split; [|done].
    intros p Hp. apply H6. intros vp v Hvp. apply Hp. by rewrite <- Hperm. }
  split; [done|].
  rewrite (inv_total g' Hinv'). unfold resident_size. by rewrite Hq.
Qed.

(* the run of cache_unref on the last reference *)
Lemma cache_unref_last_run (h : heap) (cp : ptr) (c : _openslide_cache) :
  caches h !! cp = Some c ->
  cache_refcount c = 1 ->
  cache_inv (view h c) ->
  exists h',
    cache_unref table_order cp h = Ok (tt, h')
    ∧ caches h' = delete cp (caches h)
    ∧ bindings h' = bindings h
    ∧ (forall vp, hvalues h' !! vp
         = if decide (vp ∈ queue c) then None else hvalues h !! vp)
    ∧ (forall vp v e, vp ∈ queue c -> hvalues h !! vp = Some v ->
         hentries h !! entry v = Some e ->
         hentries h' !! entry v = released e)
    ∧ (forall p,
         (forall vp v, vp ∈ queue c -> hvalues h !! vp = Some v ->
                       entry v ≠ p) ->
         hentries h' !! p = hentries h !! p).
Proof.
  intros Hc Hr Hinv.
  set (c0 := set_cache_refcount (cache_refcount c - 1) c).
  assert (Hinv0 : cache_inv (view h c0)).
  { apply (cache_inv_same (view h c)); done. }
  destruct (g_hash_table_unref_spec (view h c0) Hinv0)
    as (g' & Hrun & Hres & _).
  unfold cache_unref. rewrite Hc.
  rewrite decide_False by (rewrite Hr; unfold INT_MIN; lia).
  fold c0. rewrite decide_False by (subst c0; simpl; lia).
  rewrite Hrun. eexists. split; [reflexivity|].
  destruct Hres as (H1 & H2 & H3 & H4 & H5 & H6 & H7).
  simpl. split; [done|]. split; [done|]. split; [exact H3|].
  split; [exact H5|exact H6].
Qed.

(** X7.  Dropping the last reference to a cache tears it down: when
    cache_unref takes the count of a cache that satisfies the
    representation invariant from 1 to 0, the cache is freed, every value
    that was resident is freed, and the entry of each of them loses
    exactly one reference: an entry that a caller still holds stays live,
    with its data and size, and any other entry is freed.  Other caches,
    the bindings and all other entries are untouched.  This holds for
    every order in which the hash table visits its values. *)
Theorem cache_unref_last (h : heap) (cp : ptr) (c : _openslide_cache) :
  caches h !! cp = Some c ->
  cache_refcount c = 1 ->
  cache_inv (view h c) ->
  exists h',
    cache_unref table_order cp h = Ok (tt, h')
    ∧ caches h' = delete cp (caches h)
    ∧ bindings h' = bindings h
    ∧ (forall vp, hvalues h' !! vp
         = if decide (vp ∈ queue c) then None else hvalues h !! vp)
    ∧ (forall vp v e, vp ∈ queue c -> hvalues h !! vp = Some v ->
         hentries h !! entry v = Some e ->
         hentries h' !! entry v = released e)
    ∧ (forall p,
         (forall vp v, vp ∈ queue c -> hvalues h !! vp = Some v ->
                       entry v ≠ p) ->
         hentries h' !! p = hentries h !! p).
Proof. exact (cache_unref_last_run h cp c). Qed.

(** X8.  Rebinding a binding to the cache it already points to changes
    nothing: [_openslide_cache_binding_set] takes its reference to the new
    cache before it drops the one to the old cache, so the count goes up
    and down again and the cache is not torn down in between, even when
    the binding holds the only reference. *)
Theorem binding_set_same_cache (h : heap) (cb cp : ptr) (c : _openslide_cache) :
  bindings h !! cb = Some cp ->
  caches h !! cp = Some c ->
  0 < cache_refcount c < INT_MAX ->
  _openslide_cache_binding_set table_order cb cp h = Ok (tt, h).
Proof.
  intros Hb Hc Hr.
  unfold _openslide_cache_binding_set, hbind, cache_ref. rewrite Hc.
  rewrite decide_False by lia. cbn [bindings]. rewrite Hb.
  unfold cache_unref. cbn [caches]. rewrite lookup_insert_eq.
  cbn [cache_refcount set_cache_refcount].
  rewrite decide_False by (unfold INT_MIN; lia).
  rewrite decide_True by lia.
  cbn [caches bindings hvalues hentries hnext hwarnings].
  rewrite insert_insert_eq.
  replace (cache_refcount c + 1 - 1) with (cache_refcount c) by lia.
  assert (Hsame : set_cache_refcount (cache_refcount c)
                    (set_cache_refcount (cache_refcount c + 1) c) = c)
    by (by destruct c).
  rewrite Hsame, (insert_id (caches h) cp c Hc), (insert_id (bindings h) cb cp Hb).
  by destruct h.
Qed.

(** X9.  Switching a binding to a fresh cache: when the binding holds the
    only reference to its old cache, [_openslide_cache_binding_set] to a
    cache that [_openslide_cache_create] has just returned tears the old
    cache down, gives the new cache its second reference, and from then
    on every get through the binding misses and changes nothing, whatever
    was resident in the old cache. *)
Theorem binding_set_fresh_cache (h : heap) (cb old : ptr)
    (c : _openslide_cache) (capacity_in_bytes : Z) :
  bindings h !! cb = Some old ->
  caches h !! old = Some c ->
  cache_refcount c = 1 ->
  cache_inv (view h c) ->
  caches h !! hnext h = None ->
  exists h1 h2,
    _openslide_cache_create capacity_in_bytes h = Ok (hnext h, h1)
    ∧ _openslide_cache_binding_set table_order cb (hnext h) h1 = Ok (tt, h2)
    ∧ caches h2 !! old = None
    ∧ bindings h2 !! cb = Some (hnext h)
    ∧ caches h2 !! hnext h
      = Some (set_cache_refcount 2
                (Cache._openslide_cache_create capacity_in_bytes))
    ∧ forall plane x y,
        _openslide_cache_get cb plane x y h2 = Ok ((0, None), h2).
Proof.
  intros Hb Hc Hr Hinv Hfresh.
  assert (Hne : hnext h ≠ old) by (intros Heq; rewrite Heq in Hfresh; congruence).
  set (cnew := Cache._openslide_cache_create capacity_in_bytes).
  set (h1 := {| caches := <[hnext h := cnew]> (caches h);
                bindings := bindings h; hvalues := hvalues h;
                hentries := hentries h; hnext := Pos.succ (hnext h);
                hwarnings := hwarnings h |}).
  set (hB := {| caches := <[hnext h := set_cache_refcount 2 cnew]> (caches h);
                bindings := <[cb := hnext h]> (bindings h);
                hvalues := hvalues h; hentries := hentries h;
                hnext := Pos.succ (hnext h); hwarnings := hwarnings h |}).
  assert (Hstep : _openslide_cache_binding_set table_order cb (hnext h) h1
                  = cache_unref table_order old hB).
  { unfold _openslide_cache_binding_set, hbind, cache_ref.
    subst h1. cbn [caches]. rewrite lookup_insert_eq.
    rewrite decide_False by (simpl; unfold INT_MAX; lia).
    cbn [bindings]. rewrite Hb. subst hB.
    cbn [caches bindings hvalues hentries hnext hwarnings].
    by rewrite insert_insert_eq. }
  assert (Hc1 : caches hB !! old = Some c).
  { subst hB. cbn [caches]. by rewrite lookup_insert_ne. }
  assert (Hinv1 : cache_inv (view hB c)).
  { subst hB. constructor; simpl; try apply Hinv.
    - intros p Hp. pose proof (inv_fresh_values _ Hinv p Hp). simpl in *. lia.
    - intros p Hp. pose proof (inv_fresh_entries _ Hinv p Hp). simpl in *. lia. }
  destruct (cache_unref_last_run hB old c Hc1 Hr Hinv1)
    as (h2 & Hun & Hcaches & Hbind & _).
  exists h1, h2. split; [reflexivity|].
  split; [by rewrite Hstep|].
  split; [rewrite Hcaches; apply lookup_delete_eq|].
  split; [rewrite Hbind; subst hB; cbn [bindings]; apply lookup_insert_eq|].
  assert (Hnew : caches h2 !! hnext h = Some (set_cache_refcount 2 cnew)).
  { rewrite Hcaches, lookup_delete_ne by done. subst hB. cbn [caches].
    by rewrite lookup_insert_eq. }
  split; [exact Hnew|].
  intros plane x y. unfold _openslide_cache_get, with_binding.
  rewrite Hbind. subst hB. cbn [bindings]. rewrite lookup_insert_eq, Hnew.
  rewrite get_miss_run by done.
  unfold commit, view. cbn [cache values entries next warnings].
  rewrite (insert_id _ _ _ Hnew). by destruct h2.
Qed.

End TableOrder.

(** ** A binding with one tile in its cache *)

Definition fresh_binding : heap :=
  {| caches := {[ 2%positive := Cache._openslide_cache_create DEFAULT_CACHE_SIZE ]};
     bindings := {[ 1%positive := 2%positive ]};
     hvalues := ∅; hentries := ∅; hnext := 3%positive; hwarnings := 0%nat |}.

Lemma fresh_binding_created :
  _openslide_cache_binding_create empty_heap = Ok (1%positive, fresh_binding).
Proof. reflexivity. Qed.

(* the cache of the binding after put(7, 0, 0) of 10 bytes *)
Definition one_tile_cache : _openslide_cache :=
  {| queue := [4%positive]; hashtable := {[ (7, 0, 0) := 4%positive ]};
     cache_refcount := 1; capacity := DEFAULT_CACHE_SIZE; total_size := 10;
     warned_overlarge_entry := 0 |}.

Definition one_tile : heap :=
  {| caches := {[ 2%positive := one_tile_cache ]};
     bindings := {[ 1%positive := 2%positive ]};
     hvalues := {[ 4%positive := {| key := (7, 0, 0); entry := 3%positive |} ]};
     hentries := {[ 3%positive := {| refcount := 2; data := 1000; size := 10 |} ]};
     hnext := 5%positive; hwarnings := 0%nat |}.

Lemma one_tile_put :
  Cache._openslide_cache_put 7 0 0 1000 10
    (view fresh_binding (Cache._openslide_cache_create DEFAULT_CACHE_SIZE))
  = Ok (3%positive, view one_tile one_tile_cache).
Proof. vm_compute. reflexivity. Qed.

Lemma one_tile_inv : cache_inv (view one_tile one_tile_cache).
Proof.
  assert (Hinv0 : cache_inv (view fresh_binding
                    (Cache._openslide_cache_create DEFAULT_CACHE_SIZE))).
  { constructor; simpl; try done.
    - apply NoDup_nil_2.
    - intros vp H. by apply elem_of_nil in H.
    - intros p [? H]. by rewrite lookup_empty in H.
    - intros p [? H]. by rewrite lookup_empty in H. }
  destruct (put_fits_inv _ 7 0 0 1000 10 Hinv0)
    as [[Hab _]|(_ & _ & m' & Hrun & Hinv' & _)].
  - simpl. unfold DEFAULT_CACHE_SIZE. lia.
  - rewrite one_tile_put in Hab. discriminate.
  - rewrite one_tile_put in Hrun. by injection Hrun as <-.
Qed.

Lemma cache_unref_last_witness :
  (forall ht : gmap (Z * Z * Z) positive,
     (map_to_list ht).*2 ≡ₚ (map_to_list ht).*2)
  ∧ caches one_tile !! 2%positive = Some one_tile_cache
  ∧ cache_refcount one_tile_cache = 1
  ∧ cache_inv (view one_tile one_tile_cache)
  ∧ exists h',
      cache_unref (fun ht => (map_to_list ht).*2) 2%positive one_tile
      = Ok (tt, h')
      ∧ caches h' = delete 2%positive (caches one_tile)
      ∧ hvalues h' !! 4%positive = None
      ∧ hentries h' !! 3%positive
        = Some {| refcount := 1; data := 1000; size := 10 |}.
Proof.
  assert (H0 : forall ht : gmap (Z * Z * Z) positive,
                 (map_to_list ht).*2 ≡ₚ (map_to_list ht).*2) by done.
  assert (H1 : caches one_tile !! 2%positive = Some one_tile_cache)
    by reflexivity.
  assert (H2 : cache_refcount one_tile_cache = 1) by reflexivity.
  split; [exact H0|]. split; [exact H1|]. split; [exact H2|].
  split; [exact one_tile_inv|].
  destruct (cache_unref_last _ H0 one_tile 2%positive one_tile_cache
              H1 H2 one_tile_inv)
    as (h' & Hrun & Hc & _ & Hv & He & _).
  exists h'. split; [exact Hrun|]. split; [exact Hc|].
  split.
  - rewrite Hv. apply decide_True. apply list_elem_of_here.
  - apply (He 4%positive {| key := (7, 0, 0); entry := 3%positive |}
             {| refcount := 2; data := 1000; size := 10 |}).
    + apply list_elem_of_here.
    + reflexivity.
    + reflexivity.
Defined.

Lemma binding_set_same_cache_witness :
  bindings one_tile !! 1%positive = Some 2%positive
  ∧ caches one_tile !! 2%positive = Some one_tile_cache
  ∧ 0 < cache_refcount one_tile_cache < INT_MAX
  ∧ _openslide_cache_binding_set (fun ht => (map_to_list ht).*2)
      1%positive 2%positive one_tile
    = Ok (tt, one_tile).
Proof.
  assert (H1 : bindings one_tile !! 1%positive = Some 2%positive)
    by reflexivity.
  assert (H2 : caches one_tile !! 2%positive = Some one_tile_cache)
    by reflexivity.
  assert (H3 : 0 < cache_refcount one_tile_cache < INT_MAX)
    by (unfold INT_MAX; simpl; lia).
  split; [exact H1|]. split; [exact H2|]. split; [exact H3|].
  exact (binding_set_same_cache _ one_tile 1%positive 2%positive
           one_tile_cache H1 H2 H3).
Defined.

Lemma binding_set_fresh_cache_witness :
  (forall ht : gmap (Z * Z * Z) positive,
     (map_to_list ht).*2 ≡ₚ (map_to_list ht).*2)
  ∧ bindings one_tile !! 1%positive = Some 2%positive
  ∧ caches one_tile !! 2%positive = Some one_tile_cache
  ∧ cache_refcount one_tile_cache = 1
  ∧ cache_inv (view one_tile one_tile_cache)
  ∧ caches one_tile !! hnext one_tile = None
  ∧ exists h1 h2,
      _openslide_cache_create 100 one_tile = Ok (5%positive, h1)
      ∧ _openslide_cache_binding_set (fun ht => (map_to_list ht).*2)
          1%positive 5%positive h1 = Ok (tt, h2)
      ∧ caches h2 !! 2%positive = None
      ∧ bindings h2 !! 1%positive = Some 5%positive
      ∧ _openslide_cache_get 1%positive 7 0 0 h2 = Ok ((0, None), h2).
Proof.
  assert (H0 : forall ht : gmap (Z * Z * Z) positive,
                 (map_to_list ht).*2 ≡ₚ (map_to_list ht).*2) by done.
  assert (H1 : bindings one_tile !! 1%positive = Some 2%positive)
    by reflexivity.
  assert (H2 : caches one_tile !! 2%positive = Some one_tile_cache)
    by reflexivity.
  assert (H3 : cache_refcount one_tile_cache = 1) by reflexivity.
  assert (H4 : caches one_tile !! hnext one_tile = None) by reflexivity.
  split; [exact H0|]. split; [exact H1|]. split; [exact H2|].
  split; [exact H3|]. split; [exact one_tile_inv|]. split; [exact H4|].
  destruct (binding_set_fresh_cache _ H0 one_tile 1%positive 2%positive
              one_tile_cache 100 H1 H2 H3 one_tile_inv H4)
    as (h1 & h2 & Hc & Hs & Hold & Hb & _ & Hget).
  exists h1, h2. split; [exact Hc|]. split; [exact Hs|].
  split; [exact Hold|]. split; [exact Hb|]. exact (Hget 7 0 0).
Defined.

End BindingProps.

(** * Reading files: what the readers of the VSF backend deliver *)

Module VsfReads.
Import Vsf VsfProps.
Local Open Scope vsf_scope.

(** X10.  [_read_bytes] with a size of at least 1 always returns, never
    reports more bytes than it was asked for, and reports exactly [size]
    if and only if the file holds [size] more bytes from the read
    position; it has then stored exactly these bytes and advanced the
    position by [size], whatever the number of 4096-byte blocks. *)
Theorem read_bytes_complete (udiv_zero : option Z) (fd : FILE) (size : Z) :
  0 <= pos fd -> 0 < size ->
  exists r,
    _read_bytes udiv_zero fd size = Ok r
    ∧ bytes_read_total r <= size
    ∧ (bytes_read_total r = size <-> size <= Z.of_nat (length (unread fd)))
    ∧ (size <= Z.of_nat (length (unread fd)) ->
       r = (take (Z.to_nat size) (unread fd),
            {| content := content fd; pos := pos fd + size |})).
Proof.
  intros Hp Hs.
  destruct (decide (size <= Z.of_nat (length (unread fd)))) as [Hle|Hgt].
  - eexists. split; [by apply _read_bytes_enough|].
    unfold bytes_read_total. simpl. rewrite length_take.
    split; [lia|]. split; [|done]. split; [done|lia].
  - destruct (_read_bytes_returns udiv_zero fd size Hp Hs) as (r & Hrun & H1 & H2).
    exists r. split; [done|]. split; [done|]. split; [|done].
    split; lia.
Qed.

Lemma read_bytes_complete_witness :
  0 <= pos {| content := byte.of_Z <$> seqZ 0 5000; pos := 10 |}
  ∧ 0 < 4100
  ∧ exists r,
      _read_bytes None {| content := byte.of_Z <$> seqZ 0 5000; pos := 10 |} 4100
      = Ok r
      ∧ bytes_read_total r = 4100.
Proof.
  assert (H1 : 0 <= pos {| content := byte.of_Z <$> seqZ 0 5000; pos := 10 |})
    by (simpl; lia).
  assert (H2 : 0 < 4100) by lia.
  split; [exact H1|]. split; [exact H2|].
  destruct (read_bytes_complete None
              {| content := byte.of_Z <$> seqZ 0 5000; pos := 10 |} 4100 H1 H2)
    as (r & Hrun & _ & Hiff & _).
  exists r. split; [exact Hrun|]. apply Hiff.
  unfold unread. cbn [pos content].
  rewrite length_drop, length_fmap, length_seqZ. lia.
Defined.

(* the run of _read_data for an offset inside the file *)
Lemma read_data_run (udiv_zero : option Z) (fd : FILE) (size offset : Z) :
  0 <= size -> 0 <= offset < 2 ^ 63 ->
  offset <= Z.of_nat (length (content fd)) ->
  _read_data udiv_zero fd size offset
  = if decide (size = 0) then Error "Failed to create result buffer"
    else if decide (offset + size <= Z.of_nat (length (content fd)))
    then Ok (take (Z.to_nat size) (drop (Z.to_nat offset) (content fd)))
    else Error "Failed to read data from file".
Proof.
  intros Hs Ho _. unfold _read_data.
  destruct (decide (size = 0)) as [|Hnz]; [done|].
  assert (Hsig : to_signed 64 offset = offset).
  { rewrite <- (to_signed_small 64 offset) at 2 by lia.
    unfold to_signed. by rewrite Z.mod_mod by lia. }
  rewrite Hsig.
  rewrite <- (Z2Nat.id offset) at 1 by lia.
  rewrite fseeko_set by lia.
  rewrite <- (Z2Nat.id size) at 1 by lia.
  rewrite read_exactly_spec by (simpl; lia).
  rewrite unread_at, length_drop.
  destruct (decide (Z.to_nat size <= length (content fd) - Z.to_nat offset)%nat)
    as [Hle|Hgt].
  - rewrite decide_True by lia. reflexivity.
  - rewrite decide_False by lia. reflexivity.
Qed.



Section Decoders.

Variable udiv_zero : option Z.
Variable fs : gmap string (list byte).
Variable jpeg_decode_buffer : list byte -> Z -> Z -> Z -> bool.
Variable jp2k_decode_buffer : Z -> Z -> list byte -> Z -> bool.
Variable png_read : gmap string (list byte) -> string -> Z -> Z -> Z -> bool.
Variable gdkpixbuf_read :
  gmap string (list byte) -> string -> Z -> Z -> Z -> Z -> bool.

(** X12.  The major-2 decoder hands the JPEG codec the tile and nothing
    else: for a JPEG slide and a tile of [size] bytes at [offset] that the
    sidecar holds, [_get_tile_data_version2] succeeds exactly when
    [_openslide_jpeg_decode_buffer] accepts these [size] bytes with the
    length [size]; no other codec is consulted. *)
Theorem version2_jpeg_gets_the_tile (c : index_file_content)
    (layer_filename : string) (bytes : list byte)
    (offset size width height : Z) :
  format c = tile_format_jpeg ->
  fs !! layer_filename = Some bytes ->
  0 < size -> 0 <= offset < 2 ^ 63 ->
  offset + size <= Z.of_nat (length bytes) ->
  _get_tile_data_version2 udiv_zero fs jpeg_decode_buffer jp2k_decode_buffer
    png_read gdkpixbuf_read c layer_filename offset size width height
  = if jpeg_decode_buffer
         (take (Z.to_nat size) (drop (Z.to_nat offset) bytes)) size width height
    then Ok tt else Error callee_error.
Proof.
  intros Hf Hfs Hs Ho Hin.
  unfold _get_tile_data_version2, _openslide_fopen. rewrite Hfs, Hf.
  rewrite bool_decide_eq_true_2 by (by left).
  rewrite read_data_run by (simpl; lia).
  rewrite decide_False by lia. cbn [content].
  rewrite decide_True by lia. reflexivity.
Qed.

End Decoders.

Lemma version2_jpeg_gets_the_tile_witness :
  format (with_defaults (with_version [] 2 0)) = tile_format_jpeg
  ∧ ({[ "slide-3.img" := byte.of_Z <$> [1; 2; 3; 4; 5; 6] ]}
       : gmap string (list byte)) !! "slide-3.img"
    = Some (byte.of_Z <$> [1; 2; 3; 4; 5; 6])
  ∧ 0 < 3 ∧ 0 <= 2 < 2 ^ 63
  ∧ 2 + 3 <= Z.of_nat (length (byte.of_Z <$> [1; 2; 3; 4; 5; 6]))
  ∧ _get_tile_data_version2 None
      {[ "slide-3.img" := byte.of_Z <$> [1; 2; 3; 4; 5; 6] ]}
      (fun buf len _ _ =>
         bool_decide (byte.unsigned <$> buf = [3; 4; 5]) && bool_decide (len = 3))
      (fun _ _ _ _ => false) (fun _ _ _ _ _ => false)
      (fun _ _ _ _ _ _ => false)
      (with_defaults (with_version [] 2 0)) "slide-3.img" 2 3 256 256
    = Ok tt.
Proof.
  assert (H1 : format (with_defaults (with_version [] 2 0)) = tile_format_jpeg)
    by reflexivity.
  assert (H2 : ({[ "slide-3.img" := byte.of_Z <$> [1; 2; 3; 4; 5; 6] ]}
                  : gmap string (list byte)) !! "slide-3.img"
               = Some (byte.of_Z <$> [1; 2; 3; 4; 5; 6]))
    by apply lookup_singleton_eq.
  assert (H3 : 0 < 3) by lia.
  assert (H4 : 0 <= 2 < 2 ^ 63) by lia.
  assert (H5 : 2 + 3 <= Z.of_nat (length (byte.of_Z <$> [1; 2; 3; 4; 5; 6])))
    by (simpl; lia).
  split; [exact H1|]. split; [exact H2|]. split; [exact H3|].
  split; [exact H4|]. split; [exact H5|].
  rewrite (version2_jpeg_gets_the_tile None _ _ _ _ _ _ "slide-3.img" _
             2 3 256 256 H1 H2 H3 H4 H5).
  reflexivity.
Defined.

End VsfReads.

(** * The index file: versions, defaults, the packed header *)

Module VsfIndex.
Import Vsf VsfProps.
Local Open Scope vsf_scope.

(* what header_fields leaves in the fields the header of the version does
   not store *)
Lemma header_fields_shape (bytes : list byte) (major minor : Z)
    (c : index_file_content) :
  header_fields bytes major minor = Some c ->
  major_version c = major ∧ minor_version c = minor
  ∧ (major = 1 ->
     0 <= minor <= 2
     ∧ level_count c = 9 ∧ format c = tile_format_jpeg ∧ quality c = 0
     ∧ r c = 255 ∧ g c = 255 ∧ b c = 255
     ∧ resolution_x c = 0 ∧ resolution_y c = 0
     ∧ lowest_focal_plane_index c = 0 ∧ highest_focal_plane_index c = 0)
  ∧ (major = 2 -> minor = 0 ->
     lowest_focal_plane_index c = 0 ∧ highest_focal_plane_index c = 0).
Proof.
  unfold header_fields. intros H.
  destruct (decide (major = 1)) as [->|Hne1].
  - unfold major1_seek in H.
    destruct minor as [|[[|[]|]|[|[]|]|]|]; try done;
      (case_decide; [|done]); injection H as <-;
      (split; [done|]); (split; [done|]);
      (split; [intros _; repeat split; simpl; lia|done]).
  - destruct (decide (major = 2)) as [->|Hne2].
    + case_decide; [|done]. injection H as <-.
      split; [done|]. split; [done|]. split; [done|].
      intros _ ->. rewrite decide_True by done. done.
    + injection H as <-. split; [done|]. split; [done|]. split; done.
Qed.

(* the versions the test of _read_index_file lets through *)
Lemma product_version_range (char_signed : bool) (hdr : list byte)
    (major minor : Z) :
  product_version char_signed hdr = Some (major, minor) ->
  (major = 1 ∧ 0 <= minor <= 2) ∨ (major = 2 ∧ 0 <= minor <= 9).
Proof.
  unfold product_version. intros H.
  destruct (decide (header_char char_signed hdr 1 = 49)).
  - case_decide as Hd; [|done]. injection H as <- <-. left. split; [done|].
    unfold wrap8. destruct Hd as [-> |[-> | ->]]; vm_compute; split; discriminate.
  - case_decide as Hd; [|done]. injection H as <- <-. right. split; [done|].
    destruct Hd as (_ & H1 & H2). unfold wrap8.
    rewrite Z.mod_small by lia. lia.
Qed.

Section Index.

Variable udiv_zero : option Z.
Variable char_signed : bool.
Variable past_block : char_block -> option string.
Variable fs : gmap string (list byte).

Lemma read_index_file_shape (filename : string) (c : index_file_content) :
  strlen filename < 2 ^ 32 ->
  _read_index_file udiv_zero char_signed fs filename = Ok c ->
  (major_version c = 1 ∧ 0 <= minor_version c <= 2
   ∧ level_count c = 9 ∧ format c = tile_format_jpeg ∧ quality c = 0
   ∧ r c = 255 ∧ g c = 255 ∧ b c = 255
   ∧ resolution_x c = 0 ∧ resolution_y c = 0
   ∧ lowest_focal_plane_index c = 0 ∧ highest_focal_plane_index c = 0)
  ∨ (major_version c = 2 ∧ 0 <= minor_version c <= 9
     ∧ (minor_version c = 0 ->
        lowest_focal_plane_index c = 0 ∧ highest_focal_plane_index c = 0)).
Proof.
  intros Hlen Hrun.
  apply (read_index_file_spec udiv_zero char_signed fs filename c Hlen) in Hrun
    as (_ & bytes & major & minor & _ & _ & Hv & Hh).
  apply header_fields_shape in Hh as (Hmaj & Hmin & H1 & H2).
  destruct (product_version_range _ _ _ _ Hv) as [[-> Hr]|[-> Hr]].
  - left. rewrite Hmaj, Hmin. split; [done|]. split; [done|].
    destruct (H1 eq_refl) as (_ & H). exact H.
  - right. rewrite Hmaj, Hmin. split; [done|]. split; [done|].
    intros ->. by apply H2.
Qed.

(** X13.  What [_read_index_file] can return: the version of an accepted
    index file is major 1 with minor 0, 1 or 2, or major 2 with minor 0
    to 9 (the error "Unsupported product version" of
    [_read_index_file_content] cannot arise from here).  A major-1 slide
    always has 9 levels, JPEG tiles, a white background, resolution 0 and
    no focal planes, whatever its file holds; a 2.0 slide has no focal
    planes. *)
Theorem read_index_file_versions (filename : string) (c : index_file_content) :
  strlen filename < 2 ^ 32 ->
  _read_index_file udiv_zero char_signed fs filename = Ok c ->
  (major_version c = 1 ∧ 0 <= minor_version c <= 2
   ∧ level_count c = 9 ∧ format c = tile_format_jpeg ∧ quality c = 0
   ∧ r c = 255 ∧ g c = 255 ∧ b c = 255
   ∧ resolution_x c = 0 ∧ resolution_y c = 0
   ∧ lowest_focal_plane_index c = 0 ∧ highest_focal_plane_index c = 0)
  ∨ (major_version c = 2 ∧ 0 <= minor_version c <= 9
     ∧ (minor_version c = 0 ->
        lowest_focal_plane_index c = 0 ∧ highest_focal_plane_index c = 0)).
Proof. apply read_index_file_shape. Qed.

(** X14.  Detection of a major-1 or a 2.0 slide looks for no sidecar:
    the range of focal planes of such a header is empty, so the loops of
    [vsf_detect] check nothing and every index file of these versions
    that [_read_index_file] reads is accepted, also when no image file
    exists next to it, and whatever lies behind the heap blocks of the
    sidecar names (none is built). *)
Theorem vsf_detect_needs_no_sidecar (filename : string)
    (c : index_file_content) :
  strlen filename < 2 ^ 32 ->
  _read_index_file udiv_zero char_signed fs filename = Ok c ->
  major_version c = 1 ∨ minor_version c = 0 ->
  vsf_detect udiv_zero char_signed past_block fs filename None = Ok true.
Proof.
  intros Hlen Hrun Hv. unfold vsf_detect. rewrite Hrun. cbn [rbind].
  apply detect_levels_spec. intros level focal _ Hf.
  destruct (read_index_file_shape filename c Hlen Hrun)
    as [(_ & _ & _ & _ & _ & _ & _ & _ & _ & _ & Hlo & Hhi)|(Hm & _ & H0)].
  - lia.
  - destruct Hv as [Hv|Hv]; [congruence|].
    destruct (H0 Hv) as [Hlo Hhi]. lia.
Qed.

End Index.

Lemma read_index_file_versions_witness :
  strlen "slide.vsf" < 2 ^ 32
  ∧ exists c,
      _read_index_file None true {[ "slide.vsf" := example_index_1_1 ]}
        "slide.vsf" = Ok c
      ∧ minor_version c = 1
      ∧ ((major_version c = 1 ∧ 0 <= minor_version c <= 2
          ∧ level_count c = 9 ∧ format c = tile_format_jpeg ∧ quality c = 0
          ∧ r c = 255 ∧ g c = 255 ∧ b c = 255
          ∧ resolution_x c = 0 ∧ resolution_y c = 0
          ∧ lowest_focal_plane_index c = 0 ∧ highest_focal_plane_index c = 0)
         ∨ (major_version c = 2 ∧ 0 <= minor_version c <= 9
            ∧ (minor_version c = 0 ->
               lowest_focal_plane_index c = 0
               ∧ highest_focal_plane_index c = 0))).
Proof.
  assert (H1 : strlen "slide.vsf" < 2 ^ 32) by reflexivity.
  split; [exact H1|].
  assert (Hrun : exists c,
            _read_index_file None true {[ "slide.vsf" := example_index_1_1 ]}
              "slide.vsf" = Ok c ∧ minor_version c = 1).
  { eexists. split; [vm_compute; reflexivity|reflexivity]. }
  destruct Hrun as (c & Hrun & Hminor).
  exists c. split; [exact Hrun|]. split; [exact Hminor|].
  exact (read_index_file_versions None true _ "slide.vsf" c H1 Hrun).
Defined.

Lemma vsf_detect_needs_no_sidecar_witness :
  strlen "slide.vsf" < 2 ^ 32
  ∧ (exists c,
       _read_index_file None true {[ "slide.vsf" := example_index_2_0 ]}
         "slide.vsf" = Ok c
       ∧ (major_version c = 1 ∨ minor_version c = 0))
  ∧ vsf_detect None true (fun _ => None)
      {[ "slide.vsf" := example_index_2_0 ]} "slide.vsf" None
    = Ok true.
Proof.
  assert (H1 : strlen "slide.vsf" < 2 ^ 32) by reflexivity.
  assert (Hrun : exists c,
            _read_index_file None true {[ "slide.vsf" := example_index_2_0 ]}
              "slide.vsf" = Ok c
            ∧ (major_version c = 1 ∨ minor_version c = 0)).
  { eexists. split; [vm_compute; reflexivity|right; reflexivity]. }
  split; [exact H1|]. split; [exact Hrun|].
  destruct Hrun as (c & Hrun & Hv).
  exact (vsf_detect_needs_no_sidecar None true (fun _ => None) _ "slide.vsf" c
           H1 Hrun Hv).
Defined.

(** ** The packed header of major 2, there and back *)

(* the first 72 bytes of struct _index_file_content, as the compiler lays
   the packed struct out on a little-endian machine *)
Definition header_bytes (c : index_file_content) : list byte :=
  header c
  ++ [byte.of_Z (level_count c); byte.of_Z (r c); byte.of_Z (g c);
      byte.of_Z (b c)]
  ++ le_split 4 (size_x c) ++ le_split 4 (size_y c)
  ++ le_split 4 (resolution_x c) ++ le_split 4 (resolution_y c)
  ++ [byte.of_Z (format c); byte.of_Z (quality c)]
  ++ le_split 4 (tile_size_x c) ++ le_split 4 (tile_size_y c)
  ++ le_split 4 (lowest_focal_plane_index c)
  ++ le_split 4 (highest_focal_plane_index c)
  ++ z_range c.

Definition uint8_range (z : Z) : Prop := 0 <= z < 2 ^ 8.
Definition int32_range (z : Z) : Prop := - 2 ^ 31 <= z < 2 ^ 31.

(* the fields hold values of their C types *)
Definition header_wf (c : index_file_content) : Prop :=
  length (header c) = 30%nat
  ∧ uint8_range (level_count c) ∧ uint8_range (r c) ∧ uint8_range (g c)
  ∧ uint8_range (b c)
  ∧ int32_range (size_x c) ∧ int32_range (size_y c)
  ∧ int32_range (resolution_x c) ∧ int32_range (resolution_y c)
  ∧ uint8_range (format c) ∧ uint8_range (quality c)
  ∧ int32_range (tile_size_x c) ∧ int32_range (tile_size_y c)
  ∧ int32_range (lowest_focal_plane_index c)
  ∧ int32_range (highest_focal_plane_index c)
  ∧ length (z_range c) = 4%nat.

Lemma chunk_at (pre chunk post : list byte) (off k : nat) :
  length pre = off -> length chunk = k ->
  take k (drop off (pre ++ chunk ++ post)) = chunk.
Proof.
  intros <- <-. by rewrite drop_app_length, take_app_length.
Qed.

Lemma uint8_chunk (z : Z) : uint8_range z -> le_combine [byte.of_Z z] = z.
Proof.
  unfold uint8_range. intros Hz.
  change [byte.of_Z z] with (le_split 1 z).
  rewrite le_combine_split. apply Z.mod_small. lia.
Qed.

Lemma int32_chunk (z : Z) :
  int32_range z -> to_signed 32 (le_combine (le_split 4 z)) = z.
Proof.
  unfold int32_range. intros Hz. rewrite le_combine_split.
  by apply (to_signed_small 32).
Qed.

Lemma length_header_bytes (c : index_file_content) :
  header_wf c -> length (header_bytes c) = 72%nat.
Proof.
  intros (Hh & _ & _ & _ & _ & _ & _ & _ & _ & _ & _ & _ & _ & _ & _ & Hz).
  unfold header_bytes. rewrite !length_app, !length_le_split, Hh, Hz. done.
Qed.

(* the struct read back from its own bytes *)
Lemma overwrite_struct_header_bytes (c c0 : index_file_content) :
  header_wf c ->
  major_version c0 = major_version c ->
  minor_version c0 = minor_version c ->
  overwrite_struct 72 (header_bytes c) c0 = c.
Proof.
  intros (Hh & Hlc & Hr & Hg & Hb & Hsx & Hsy & Hrx & Hry & Hf & Hq & Htx
          & Hty & Hlo & Hhi & Hz) Hmaj Hmin.
  unfold overwrite_struct, uint8_at, int32_at.
  rewrite !(decide_False (P := 72 = 60)) by done.
  assert (E0 : take 30 (header_bytes c) = header c).
  { unfold header_bytes. rewrite <- Hh. apply take_app_length. }
  set (f1 := [byte.of_Z (level_count c)]).
  set (f2 := [byte.of_Z (r c)]). set (f3 := [byte.of_Z (g c)]).
  set (f4 := [byte.of_Z (b c)]).
  set (f9 := [byte.of_Z (format c)]). set (f10 := [byte.of_Z (quality c)]).
  assert (E : header_bytes c
    = header c ++ f1 ++ f2 ++ f3 ++ f4
      ++ le_split 4 (size_x c) ++ le_split 4 (size_y c)
      ++ le_split 4 (resolution_x c) ++ le_split 4 (resolution_y c)
      ++ f9 ++ f10
      ++ le_split 4 (tile_size_x c) ++ le_split 4 (tile_size_y c)
      ++ le_split 4 (lowest_focal_plane_index c)
      ++ le_split 4 (highest_focal_plane_index c)
      ++ z_range c) by reflexivity.
  assert (L4 : forall z, length (le_split 4 z) = 4%nat)
    by (intros z; apply length_le_split).
  assert (E1 : take 1 (drop 30 (header_bytes c)) = f1).
  { rewrite E. apply (chunk_at (header c)); done. }
  assert (E2 : take 1 (drop 31 (header_bytes c)) = f2).
  { rewrite E. rewrite (app_assoc (header c)).
    apply chunk_at; [|done]. rewrite !length_app, Hh. done. }
  assert (E3 : take 1 (drop 32 (header_bytes c)) = f3).
  { rewrite E. rewrite 2!(app_assoc _ _ (_ ++ _)).
    apply chunk_at; [|done]. rewrite !length_app, Hh. done. }
  assert (E4 : take 1 (drop 33 (header_bytes c)) = f4).
  { rewrite E. rewrite 3!(app_assoc _ _ (_ ++ _)).
    apply chunk_at; [|done]. rewrite !length_app, Hh. done. }
  assert (E5 : take 4 (drop 34 (header_bytes c)) = le_split 4 (size_x c)).
  { rewrite E. rewrite 4!(app_assoc _ _ (_ ++ _)).
    apply chunk_at; [|done]. rewrite !length_app, Hh. done. }
  assert (E6 : take 4 (drop 38 (header_bytes c)) = le_split 4 (size_y c)).
  { rewrite E. rewrite 5!(app_assoc _ _ (_ ++ _)).
    apply chunk_at; [|done]. rewrite !length_app, !L4, Hh. done. }
  assert (E7 : take 4 (drop 42 (header_bytes c)) = le_split 4 (resolution_x c)).
  { rewrite E. rewrite 6!(app_assoc _ _ (_ ++ _)).
    apply chunk_at; [|done]. rewrite !length_app, !L4, Hh. done. }
  assert (E8 : take 4 (drop 46 (header_bytes c)) = le_split 4 (resolution_y c)).
  { rewrite E. rewrite 7!(app_assoc _ _ (_ ++ _)).
    apply chunk_at; [|done]. rewrite !length_app, !L4, Hh. done. }
  assert (E9 : take 1 (drop 50 (header_bytes c)) = f9).
  { rewrite E. rewrite 8!(app_assoc _ _ (_ ++ _)).
    apply chunk_at; [|done]. rewrite !length_app, !L4, Hh. done. }
  assert (E10 : take 1 (drop 51 (header_bytes c)) = f10).
  { rewrite E. rewrite 9!(app_assoc _ _ (_ ++ _)).
    apply chunk_at; [|done]. rewrite !length_app, !L4, Hh. done. }
  assert (E11 : take 4 (drop 52 (header_bytes c)) = le_split 4 (tile_size_x c)).
  { rewrite E. rewrite 10!(app_assoc _ _ (_ ++ _)).
    apply chunk_at; [|done]. rewrite !length_app, !L4, Hh. done. }
  assert (E12 : take 4 (drop 56 (header_bytes c)) = le_split 4 (tile_size_y c)).
  { rewrite E. rewrite 11!(app_assoc _ _ (_ ++ _)).
    apply chunk_at; [|done]. rewrite !length_app, !L4, Hh. done. }
  assert (E13 : take 4 (drop 60 (header_bytes c))
                = le_split 4 (lowest_focal_plane_index c)).
  { rewrite E. rewrite 12!(app_assoc _ _ (_ ++ _)).
    apply chunk_at; [|done]. rewrite !length_app, !L4, Hh. done. }
  assert (E14 : take 4 (drop 64 (header_bytes c))
                = le_split 4 (highest_focal_plane_index c)).
  { rewrite E. rewrite 13!(app_assoc _ _ (_ ++ _)).
    rewrite <- (app_nil_r (z_range c)) at 1.
    apply chunk_at; [|done]. rewrite !length_app, !L4, Hh. done. }
  assert (E15 : take 4 (drop 68 (header_bytes c)) = z_range c).
  { rewrite E. rewrite 13!(app_assoc _ _ (_ ++ _)), app_assoc.
    rewrite drop_app_length'; [|rewrite !length_app, !L4, Hh; done].
    rewrite <- Hz. apply firstn_all. }
  rewrite E0, E1, E2, E3, E4, E5, E6, E7, E8, E9, E10, E11, E12, E13, E14, E15.
  subst f1 f2 f3 f4 f9 f10.
  rewrite !uint8_chunk, !int32_chunk by done.
  rewrite Hmaj, Hmin. by destruct c.
Qed.

(** X15.  The major-2 header survives the trip through the file: when an
    index file of minor version 1 or more starts with the 72 bytes that
    are the packed struct of a header [c] (its fields values of their C
    types), [_read_index_file_content] returns exactly [c]: every field is
    read back from its offset, and the version is the one that was parsed
    from the first six bytes, not one stored in the file. *)
Theorem major2_header_round_trip (udiv_zero : option Z) (fd : FILE)
    (c c0 : index_file_content) (rest : list byte) :
  header_wf c ->
  major_version c = 2 -> minor_version c ≠ 0 ->
  major_version c0 = 2 -> minor_version c0 = minor_version c ->
  content fd = header_bytes c ++ rest ->
  _read_index_file_content udiv_zero fd c0 = Ok c.
Proof.
  intros Hwf Hmaj Hmin Hmaj0 Hmin0 Hc.
  unfold _read_index_file_content.
  cbn [with_defaults major_version minor_version].
  rewrite Hmaj0. rewrite decide_False by done. rewrite decide_True by done.
  rewrite Hmin0. rewrite decide_False by done.
  change 0 with (Z.of_nat 0) at 1. rewrite fseeko_set by (simpl; lia).
  change 72 with (Z.of_nat 72).
  rewrite read_exactly_spec by (simpl; lia).
  rewrite unread_at, drop_0. cbn [content].
  pose proof (length_header_bytes c Hwf) as Hlen.
  rewrite decide_True by (rewrite Hc, length_app, Hlen; lia).
  cbn [rbind fst]. f_equal.
  assert (Ht : take 72 (content fd) = header_bytes c).
  { rewrite Hc, <- Hlen. apply take_app_length. }
  rewrite Ht. change (Z.of_nat 72) with 72.
  apply overwrite_struct_header_bytes; [done| |done].
  cbn [with_defaults major_version]. congruence.
Qed.

(* scenario: the header of the example 2.1 index file *)
Definition example_content_2_1 : index_file_content :=
  {| header := bytes_of_string "VSF2.1 VMscope GmbH (Germany) ";
     level_count := 1; r := 255; g := 255; b := 255;
     size_x := 4096; size_y := 2048; resolution_x := 96; resolution_y := 96;
     format := tile_format_png; quality := 80;
     tile_size_x := 256; tile_size_y := 256;
     lowest_focal_plane_index := -1; highest_focal_plane_index := 2;
     z_range := le_split 4 0; major_version := 2; minor_version := 1 |}.

Lemma major2_header_round_trip_witness :
  header_wf example_content_2_1
  ∧ major_version example_content_2_1 = 2
  ∧ minor_version example_content_2_1 ≠ 0
  ∧ content {| content := example_index_2_1; pos := 6 |}
    = header_bytes example_content_2_1 ++ []
  ∧ _read_index_file_content None {| content := example_index_2_1; pos := 6 |}
      (with_version (take 6 example_index_2_1) 2 1)
    = Ok example_content_2_1.
Proof.
  assert (H1 : header_wf example_content_2_1).
  { unfold header_wf, uint8_range, int32_range, example_content_2_1,
      tile_format_png.
    cbn [header level_count r g b size_x size_y resolution_x resolution_y
         format quality tile_size_x tile_size_y lowest_focal_plane_index
         highest_focal_plane_index z_range].
    repeat split; try lia; reflexivity. }
  assert (H2 : major_version example_content_2_1 = 2) by reflexivity.
  assert (H3 : minor_version example_content_2_1 ≠ 0) by discriminate.
  assert (H4 : content {| content := example_index_2_1; pos := 6 |}
               = header_bytes example_content_2_1 ++ [])
    by (vm_compute; reflexivity).
  split; [exact H1|]. split; [exact H2|]. split; [exact H3|].
  split; [exact H4|].
  exact (major2_header_round_trip None _ example_content_2_1
           (with_version (take 6 example_index_2_1) 2 1) []
           H1 H2 H3 eq_refl eq_refl H4).
Defined.

End VsfIndex.

(** * Decimal digits: NUM_DIGITS and the names of the sidecar files *)

Module VsfNames.
Import Vsf VsfProps.
Local Open Scope vsf_scope.

(** ** NUM_DIGITS *)

(* the loop of NUM_DIGITS: [number] is an int32_t, divided with
   truncation; [count] is the uint8_t variable [result] *)
Fixpoint NUM_DIGITS_loop (fuel : nat) (number count : Z) : result Z :=
  match fuel with
  | O => Timeout
  | S fuel' =>
      if decide (number ≠ 0)
      then NUM_DIGITS_loop fuel' (number ÷ 10) (wrap8 (count + 1))
      else Ok count
  end.

Definition NUM_DIGITS (number : Z) : result Z :=
  NUM_DIGITS_loop (S (Z.to_nat (Z.abs number))) number
    (if decide (number < 0) then 1 else 0).

(** ** The length of a printed number *)

Lemma pretty_N_go_length (k : nat) : forall (n : N) (s : string),
  (10 ^ N.of_nat k <= n < 10 ^ N.of_nat (S k))%N ->
  String.length (pretty_N_go n s) = (S k + String.length s)%nat.
Proof.
  induction k as [|k IH]; intros n s Hn.
  - change (10 ^ N.of_nat 0)%N with 1%N in Hn.
    change (10 ^ N.of_nat 1)%N with 10%N in Hn.
    rewrite pretty_N_go_step by lia.
    rewrite (N.div_small n 10) by lia. by rewrite pretty_N_go_0.
  - rewrite pretty_N_go_step.
    2:{ assert (0 < 10 ^ N.of_nat (S k))%N by (apply N.neq_0_lt_0, N.pow_nonzero; lia).
        lia. }
    rewrite !Nat2N.inj_succ, !N.pow_succ_r' in Hn.
    rewrite IH.
    + simpl. lia.
    + rewrite Nat2N.inj_succ, N.pow_succ_r'. split.
      * apply N.div_le_lower_bound; lia.
      * apply N.Div0.div_lt_upper_bound; lia.
Qed.

(* a number of [k + 1] decimal digits prints as its sign and these digits *)
Lemma pretty_Z_length (n : Z) (k : nat) :
  10 ^ Z.of_nat k <= Z.abs n < 10 ^ Z.of_nat (S k) ->
  String.length (pretty n)
  = ((if decide (n < 0)%Z then 1 else 0) + S k)%nat.
Proof.
  intros Hn.
  assert (Hpos : 0 < 10 ^ Z.of_nat k) by (apply Z.pow_pos_nonneg; lia).
  assert (Hgo : forall p : positive,
            10 ^ Z.of_nat k <= Z.pos p < 10 ^ Z.of_nat (S k) ->
            String.length (pretty (N.pos p)) = S k).
  { intros p Hp. unfold pretty, pretty_N. rewrite decide_False by done.
    rewrite (pretty_N_go_length k); [simpl; lia|].
    split; [apply N2Z.inj_le|apply N2Z.inj_lt];
      rewrite N2Z.inj_pow, nat_N_Z; change (Z.of_N 10) with 10;
      change (Z.of_N (N.pos p)) with (Z.pos p); lia. }
  destruct n as [|p|p].
  - simpl in Hn. lia.
  - rewrite decide_False by lia. apply (Hgo p). simpl in Hn. lia.
  - rewrite decide_True by lia.
    change (pretty (Z.neg p)) with ("-" +:+ pretty (N.pos p)).
    simpl. f_equal. apply (Hgo p). simpl in Hn. lia.
Qed.

(* every number but 0 has a number of decimal digits *)
Lemma decimal_length_exists (m : Z) :
  0 < m -> exists k : nat, 10 ^ Z.of_nat k <= m < 10 ^ Z.of_nat (S k).
Proof.
  intros Hm. assert (Hnn : 0 <= m) by lia. revert Hm.
  pattern m. apply (Z_lt_induction _ ); [|exact Hnn].
  clear m Hnn. intros m IH Hm.
  destruct (decide (m < 10)) as [Hlt|Hge].
  - exists 0%nat. change (10 ^ Z.of_nat 0) with 1.
    change (10 ^ Z.of_nat 1) with 10. lia.
  - destruct (IH (m / 10)) as [k Hk].
    + split; [apply Z.div_pos; lia|apply Z.div_lt; lia].
    + apply Z.div_str_pos. lia.
    + exists (S k). rewrite !Nat2Z.inj_succ, !Z.pow_succ_r by lia.
      rewrite Nat2Z.inj_succ, Z.pow_succ_r in Hk by lia.
      pose proof (Z.div_mod m 10 ltac:(lia)).
      pose proof (Z.mod_pos_bound m 10 ltac:(lia)). lia.
Qed.

(* the number of digits, from two bounds *)
Lemma decimal_length_le (m : Z) (k j : nat) :
  10 ^ Z.of_nat k <= m -> m < 10 ^ Z.of_nat j -> (k < j)%nat.
Proof.
  intros Hlo Hhi. destruct (decide (k < j)%nat) as [|Hge]; [done|].
  assert (10 ^ Z.of_nat j <= 10 ^ Z.of_nat k); [|lia].
  apply Z.pow_le_mono_r; lia.
Qed.

Lemma decimal_length_ge (m : Z) (k j : nat) :
  m < 10 ^ Z.of_nat (S k) -> 10 ^ Z.of_nat j <= m -> (j <= k)%nat.
Proof.
  intros Hhi Hlo. destruct (decide (j <= k)%nat) as [|Hlt]; [done|].
  assert (10 ^ Z.of_nat (S k) <= 10 ^ Z.of_nat j); [|lia].
  apply Z.pow_le_mono_r; lia.
Qed.

Lemma NUM_DIGITS_loop_spec (k : nat) : forall (fuel : nat) (number count : Z),
  10 ^ Z.of_nat k <= Z.abs number < 10 ^ Z.of_nat (S k) ->
  (S k < fuel)%nat ->
  NUM_DIGITS_loop fuel number count = Ok (wrap8 (count + Z.of_nat (S k))).
Proof.
  induction k as [|k IH]; intros fuel number count Hn Hfuel.
  - change (10 ^ Z.of_nat 0) with 1 in Hn. change (10 ^ Z.of_nat 1) with 10 in Hn.
    destruct fuel as [|[|fuel]]; [lia|lia|]. cbn [NUM_DIGITS_loop].
    rewrite decide_True by lia.
    assert (Hq : number ÷ 10 = 0) by (apply Z.quot_small_iff; lia).
    rewrite Hq. rewrite decide_False by lia. reflexivity.
  - destruct fuel as [|fuel]; [lia|]. cbn [NUM_DIGITS_loop].
    assert (Hpos : 0 < 10 ^ Z.of_nat (S k)) by (apply Z.pow_pos_nonneg; lia).
    rewrite decide_True by lia.
    rewrite !Nat2Z.inj_succ, !Z.pow_succ_r in Hn by lia.
    rewrite IH.
    + f_equal. unfold wrap8. rewrite Zplus_mod_idemp_l.
      f_equal. lia.
    + rewrite <- Z.quot_abs by lia. change (Z.abs 10) with 10.
      rewrite Z.quot_div_nonneg by lia.
      rewrite Nat2Z.inj_succ, Z.pow_succ_r by lia. split.
      * apply Z.div_le_lower_bound; lia.
      * apply Z.div_lt_upper_bound; lia.
    + lia.
Qed.

(** X16.  [NUM_DIGITS] returns, and for every [int32_t] but 0 its result
    is the number of characters that printing the number in decimal
    takes, the minus sign of a negative number included.  For 0 it
    returns 0, although printing 0 takes one character. *)
Theorem NUM_DIGITS_counts_characters (number : Z) :
  - 2 ^ 31 <= number < 2 ^ 31 ->
  NUM_DIGITS number
  = Ok (if decide (number = 0) then 0
        else Z.of_nat (String.length (pretty number))).
Proof.
  intros Hr. unfold NUM_DIGITS.
  destruct (decide (number = 0)) as [->|Hnz]; [reflexivity|].
  destruct (decimal_length_exists (Z.abs number) ltac:(lia)) as [k Hk].
  assert (Hk10 : (k < 10)%nat).
  { apply (decimal_length_le (Z.abs number)); [lia|].
    change (10 ^ Z.of_nat 10) with 10000000000. lia. }
  rewrite (NUM_DIGITS_loop_spec k).
  - rewrite (pretty_Z_length number k Hk). f_equal.
    unfold wrap8. destruct (decide (number < 0)); rewrite Z.mod_small; lia.
  - exact Hk.
  - assert (Z.of_nat k < 10 ^ Z.of_nat k) by (apply Z.pow_gt_lin_r; lia). lia.
Qed.

Lemma NUM_DIGITS_counts_characters_witness :
  - 2 ^ 31 <= -1234 < 2 ^ 31 ∧ NUM_DIGITS (-1234) = Ok 5.
Proof.
  assert (H1 : - 2 ^ 31 <= -1234 < 2 ^ 31) by lia.
  split; [exact H1|].
  rewrite (NUM_DIGITS_counts_characters (-1234) H1). reflexivity.
Defined.

(** ** The names of the sidecar files *)

Lemma strlen_app (a b : string) : strlen (a +:+ b) = strlen a + strlen b.
Proof.
  unfold strlen. induction a as [|c a IH]; simpl; [done|].
  rewrite Nat2Z.inj_succ in *. simpl in IH. lia.
Qed.

(* "%1i" and "%02i" of a uint8_t *)
Lemma strlen_format_1i (layer : Z) :
  0 <= layer <= 255 -> 1 <= strlen (format_1i layer) <= 3.
Proof.
  intros Hl. unfold format_1i, strlen.
  destruct (decide (layer = 0)) as [->|Hnz]; [simpl; lia|].
  destruct (decimal_length_exists layer ltac:(lia)) as [k Hk].
  rewrite (pretty_Z_length layer k) by (by rewrite Z.abs_eq by lia).
  rewrite decide_False by lia.
  assert (k < 3)%nat; [|lia].
  apply (decimal_length_le layer); [lia|].
  change (10 ^ Z.of_nat 3) with 1000. lia.
Qed.

Lemma strlen_format_02i (layer : Z) :
  0 <= layer <= 255 ->
  strlen (format_02i layer) = if decide (layer < 100) then 2 else 3.
Proof.
  intros Hl. unfold format_02i.
  destruct (decide (layer = 0)) as [->|Hnz]; [reflexivity|].
  destruct (decimal_length_exists layer ltac:(lia)) as [k Hk].
  assert (Hlen : strlen (pretty layer) = Z.of_nat k + 1).
  { unfold strlen. rewrite (pretty_Z_length layer k)
      by (by rewrite Z.abs_eq by lia).
    rewrite decide_False by lia. lia. }
  destruct (decide (0 <= layer < 10)) as [H10|H10].
  - assert (k < 1)%nat.
    { apply (decimal_length_le layer); [lia|].
      change (10 ^ Z.of_nat 1) with 10. lia. }
    rewrite decide_True by lia. rewrite strlen_app, Hlen.
    change (strlen "0") with 1. lia.
  - destruct (decide (layer < 100)) as [H100|H100].
    + assert (k < 2)%nat.
      { apply (decimal_length_le layer); [lia|].
        change (10 ^ Z.of_nat 2) with 100. lia. }
      assert (1 <= k)%nat.
      { apply (decimal_length_ge layer); [lia|].
        change (10 ^ Z.of_nat 1) with 10. lia. }
      rewrite Hlen. lia.
    + assert (k < 3)%nat.
      { apply (decimal_length_le layer); [lia|].
        change (10 ^ Z.of_nat 3) with 1000. lia. }
      assert (2 <= k)%nat.
      { apply (decimal_length_ge layer); [lia|].
        change (10 ^ Z.of_nat 2) with 100. lia. }
      rewrite Hlen. lia.
Qed.

(* "%+02d": the sign and the digits *)
Lemma strlen_format_plus_02d (focal : Z) :
  focal ≠ 0 ->
  2 <= strlen (format_plus_02d focal)
  ∧ (strlen (format_plus_02d focal) <= 3 <-> Z.abs focal < 100)
  ∧ (strlen (format_plus_02d focal) <= 4 <-> Z.abs focal < 1000).
Proof.
  intros Hnz. unfold format_plus_02d.
  destruct (decimal_length_exists (Z.abs focal) ltac:(lia)) as [k Hk].
  assert (Hlen := pretty_Z_length focal k Hk).
  assert (Hs : strlen (if decide (0 <= focal)
                       then "+" +:+ pretty focal else pretty focal)
               = Z.of_nat k + 2).
  { destruct (decide (0 <= focal)).
    - rewrite decide_False in Hlen by lia. rewrite strlen_app.
      change (strlen "+") with 1. unfold strlen. rewrite Hlen. lia.
    - rewrite decide_True in Hlen by lia. unfold strlen. rewrite Hlen. lia. }
  rewrite Hs. split; [lia|]. split; split; intros H.
  - assert (k <= 1)%nat by lia.
    assert (10 ^ Z.of_nat (S k) <= 10 ^ Z.of_nat 2)
      by (apply Z.pow_le_mono_r; lia).
    change (10 ^ Z.of_nat 2) with 100 in *. lia.
  - assert (k < 2)%nat; [|lia].
    apply (decimal_length_le (Z.abs focal)); [lia|].
    change (10 ^ Z.of_nat 2) with 100. lia.
  - assert (k <= 2)%nat by lia.
    assert (10 ^ Z.of_nat (S k) <= 10 ^ Z.of_nat 3)
      by (apply Z.pow_le_mono_r; lia).
    change (10 ^ Z.of_nat 3) with 1000 in *. lia.
  - assert (k < 3)%nat; [|lia].
    apply (decimal_length_le (Z.abs focal)); [lia|].
    change (10 ^ Z.of_nat 3) with 1000. lia.
Qed.

(* the name without the index extension *)
Definition stem (filename : string) : string :=
  String.string_of_list_ascii
    (take (String.length filename - 4) (String.list_ascii_of_string filename)).

(* the characters of the name of the sidecar of a level and a focal
   plane: the name of the index file without its last four characters,
   [-level], the level, the signed focal plane when it is not 0 (never
   for major 1), and [.img] *)
Definition sidecar_name (file_info : index_file_content) (filename : string)
    (layer focal_plane_index : Z) : string :=
  stem filename
  +:+ (if decide (major_version file_info = 1)
       then "-level" +:+ format_1i layer +:+ IMAGE_FILE_EXTENSION
       else if decide (focal_plane_index = 0)
       then "-level" +:+ format_02i layer +:+ IMAGE_FILE_EXTENSION
       else "-level" +:+ format_02i layer
            +:+ format_plus_02d focal_plane_index
            +:+ IMAGE_FILE_EXTENSION).

(* the levels and focal planes whose text does not fit the array
   [extension]: not major 1, and a focal plane of four or more digits, or
   of three digits when the level has three digits too *)
Definition extension_overflows (file_info : index_file_content)
    (layer focal_plane_index : Z) : Prop :=
  major_version file_info ≠ 1
  ∧ ((layer < 100 ∧ 1000 <= Z.abs focal_plane_index)
     ∨ (100 <= layer ∧ 100 <= Z.abs focal_plane_index)).

#[export] Instance extension_overflows_dec (file_info : index_file_content)
    (layer focal_plane_index : Z) :
  Decision (extension_overflows file_info layer focal_plane_index).
Proof. unfold extension_overflows. apply _. Defined.

(* the run of _create_file_name_for_layer *)
Lemma create_file_name_for_layer_run (file_info : index_file_content)
    (filename : string) (layer focal_plane_index : Z) :
  0 <= layer <= 255 ->
  4 <= strlen filename < 2 ^ 32 ->
  _create_file_name_for_layer file_info filename layer focal_plane_index
  = if decide (extension_overflows file_info layer focal_plane_index)
    then Undefined
    else Ok {| stored :=
                 sidecar_name file_info filename layer focal_plane_index |}.
Proof.
  intros Hl Hf.
  assert (Hwith : forall extension,
            _create_file_name_with_extension filename extension
            = Ok {| stored := stem filename +:+ extension |}).
  { intros extension. unfold _create_file_name_with_extension.
    unfold wrap32. rewrite Z.mod_small by lia.
    change (wrap8 (strlen INDEX_FILE_EXTENSION)) with 4.
    rewrite decide_False by lia. unfold stem.
    replace (Z.to_nat (strlen filename - 4))
      with (String.length filename - 4)%nat by (unfold strlen; lia).
    reflexivity. }
  unfold _create_file_name_for_layer, sidecar_name, extension_overflows.
  rewrite Hwith.
  change (strlen IMAGE_FILE_EXTENSION) with 4.
  change (strlen "-levelXX") with 8.
  pose proof (strlen_format_1i layer Hl) as H1.
  pose proof (strlen_format_02i layer Hl) as H2.
  set (overflow := major_version file_info ≠ 1
         ∧ ((layer < 100 ∧ 1000 <= Z.abs focal_plane_index)
            ∨ (100 <= layer ∧ 100 <= Z.abs focal_plane_index))).
  destruct (decide (major_version file_info = 1)) as [Hm|Hm].
  - rewrite (decide_False (P := overflow)) by (subst overflow; tauto).
    rewrite !strlen_app. change (strlen "-level") with 6.
    change (strlen IMAGE_FILE_EXTENSION) with 4.
    destruct (decide (focal_plane_index ≠ 0));
      (rewrite decide_False; [done|lia]).
  - destruct (decide (focal_plane_index = 0)) as [->|Hfz].
    + rewrite (decide_False (P := overflow)) by (subst overflow; simpl; lia).
      rewrite !strlen_app. change (strlen "-level") with 6.
      change (strlen IMAGE_FILE_EXTENSION) with 4.
      destruct (decide (0 ≠ 0)) as [?|_]; [done|].
      rewrite decide_False; [done|].
      destruct (decide (layer < 100)); lia.
    + destruct (strlen_format_plus_02d focal_plane_index Hfz) as (Hp2 & Hp3 & Hp4).
      rewrite !strlen_app. change (strlen "-level") with 6.
      change (strlen IMAGE_FILE_EXTENSION) with 4.
      rewrite (decide_True (P := focal_plane_index ≠ 0)) by done.
      destruct (decide overflow) as [Hov|Hov]; subst overflow.
      * rewrite decide_True; [done|].
        destruct Hov as [_ [[? ?]|[? ?]]].
        -- rewrite decide_True in H2 by done. lia.
        -- rewrite decide_False in H2 by lia. lia.
      * rewrite decide_False; [done|].
        destruct (decide (layer < 100)) as [H100|H100].
        -- assert (Z.abs focal_plane_index < 1000) by lia. lia.
        -- assert (Z.abs focal_plane_index < 100) by lia. lia.
Qed.

(** X17.  The sidecar name that the code builds and reads.  For a level
    from 0 to 255 and a name of at least four characters, sprintf writes
    past the end of [extension] exactly for a slide that is not of major
    version 1 and a focal plane of four or more digits, or of three digits
    when the level has three digits too.  In every other case
    [_create_file_name_for_layer] returns a heap block that holds exactly
    the characters of the sidecar name and no terminator, so that
    [_has_file_name_for_layer] looks for the file whose name is these
    characters followed by whatever lies behind the block before the next
    zero byte: the sidecar itself only where the byte behind the block is
    zero; where the read past the block faults the behaviour is
    undefined. *)
Theorem sidecar_name_overflow (past_block : char_block -> option string)
    (fs : gmap string (list byte)) (file_info : index_file_content)
    (filename : string) (layer focal_plane_index : Z) :
  0 <= layer <= 255 ->
  4 <= strlen filename < 2 ^ 32 ->
  _create_file_name_for_layer file_info filename layer focal_plane_index
  = (if decide (extension_overflows file_info layer focal_plane_index)
     then Undefined
     else Ok {| stored :=
                  sidecar_name file_info filename layer focal_plane_index |})
  ∧ _has_file_name_for_layer past_block fs file_info filename layer
      focal_plane_index
    = if decide (extension_overflows file_info layer focal_plane_index)
      then Undefined
      else
        match past_block
                {| stored :=
                     sidecar_name file_info filename layer focal_plane_index |}
        with
        | None => Undefined
        | Some tail =>
            Ok (bool_decide
                  (is_Some
                     (fs !! (sidecar_name file_info filename layer
                               focal_plane_index +:+ tail))))
        end.
Proof.
  intros Hl Hf.
  pose proof (create_file_name_for_layer_run file_info filename layer
                focal_plane_index Hl Hf) as Hrun.
  split; [exact Hrun|].
  unfold _has_file_name_for_layer. rewrite Hrun.
  destruct (decide (extension_overflows file_info layer focal_plane_index));
    [done|].
  cbn [rbind]. unfold read_as_string. cbn [stored].
  destruct (past_block _) as [tail|]; [|done].
  cbn [rbind]. unfold _openslide_fopen.
  destruct (fs !! _) as [bytes|] eqn:Hfile.
  - by rewrite bool_decide_eq_true_2.
  - rewrite bool_decide_eq_false_2; [done|]. by intros [? ?].
Qed.

(* a heap on which a block of 24 characters is followed by the size field
   of the next block, and every other block by a zero byte *)
Definition example_heap (block : char_block) : option string :=
  if decide (String.length (stored block) = 24%nat) then Some "!"
  else Some String.EmptyString.

Lemma sidecar_name_overflow_witness :
  0 <= 0 <= 255
  ∧ 4 <= strlen "slide0123456.vsf" < 2 ^ 32
  ∧ _create_file_name_for_layer example_header "slide0123456.vsf" 0 0
    = Ok {| stored := "slide0123456-level00.img" |}
  ∧ _has_file_name_for_layer example_heap
      {[ "slide0123456-level00.img" := [] ]}
      example_header "slide0123456.vsf" 0 0
    = Ok false
  ∧ _has_file_name_for_layer zero_behind
      {[ "slide0123456-level00.img" := [] ]}
      example_header "slide0123456.vsf" 0 0
    = Ok true
  ∧ _create_file_name_for_layer example_header "slide0123456.vsf" 0 1000
    = Undefined.
Proof.
  assert (H1 : 0 <= 0 <= 255) by lia.
  assert (H2 : 4 <= strlen "slide0123456.vsf" < 2 ^ 32)
    by (vm_compute; split; [discriminate|reflexivity]).
  split; [exact H1|]. split; [exact H2|].
  split; [|split; [|split]].
  - rewrite (proj1 (sidecar_name_overflow example_heap ∅ example_header
                      "slide0123456.vsf" 0 0 H1 H2)).
    reflexivity.
  - rewrite (proj2 (sidecar_name_overflow example_heap
                      {[ "slide0123456-level00.img" := [] ]} example_header
                      "slide0123456.vsf" 0 0 H1 H2)).
    reflexivity.
  - rewrite (proj2 (sidecar_name_overflow zero_behind
                      {[ "slide0123456-level00.img" := [] ]} example_header
                      "slide0123456.vsf" 0 0 H1 H2)).
    reflexivity.
  - rewrite (proj1 (sidecar_name_overflow zero_behind ∅ example_header
                      "slide0123456.vsf" 0 1000 H1 H2)).
    reflexivity.
Defined.

End VsfNames.

(** * The acceptance condition of detect *)

Module VsfDetect.
Import Vsf VsfProps VsfNames.
Local Open Scope vsf_scope.

(** ** The condition as the specification words it *)


(* "major 1 with minor 0, 1 or 2; major 2 with a one-digit decimal minor" *)
Definition claimed_supported (major minor : Z) : Prop :=
  (major = 1 ∧ (minor = 0 ∨ minor = 1 ∨ minor = 2))
  ∨ (major = 2 ∧ 0 <= minor <= 9).

#[local] Instance claimed_supported_dec (major minor : Z) :
  Decision (claimed_supported major minor).
Proof. unfold claimed_supported. apply _. Defined.




(** ** Where the condition is stated

    Two things the code does are kept out of the condition, and the
    condition is stated where they do not bear.  The version test takes
    the digits of major 1 from bytes 1 and 3 and looks at no letter, while
    the header documented in the source is [VSF<M>.<m> ...]: the condition
    is stated for index files that begin with [VSF2.].  The sidecar name
    is built in an array that a long focal plane overflows, and in a heap
    block without a terminator: the condition is stated for slides whose
    sidecar names fit the array and are followed by a zero byte. *)











Section Acceptance.

Variable udiv_zero : option Z.
Variable char_signed : bool.
Variable past_block : char_block -> option string.
Variable fs : gmap string (list byte).



End Acceptance.


End VsfDetect.

(** * The major-2 tile directory on any file *)

Module VsfDirectory.
Import Vsf VsfProps.
Local Open Scope vsf_scope.








End VsfDirectory.

(** * read_tile and the tile cache *)

Module VsfTiles.
Import Vsf VsfProps.
Local Open Scope vsf_scope.

(* the memory after a hit of read_tile on [value]: the value is at the
   head of the recency list, nothing else has changed *)
Definition after_hit (value : Cache.ptr) (m : Cache.mem) : Cache.mem :=
  {| Cache.cache :=
       Cache.set_queue
         (value :: Cache.g_queue_delete_link (Cache.queue (Cache.cache m)) value)
         (Cache.cache m);
     Cache.values := Cache.values m;
     Cache.entries := Cache.entries m;
     Cache.next := Cache.next m;
     Cache.warnings := Cache.warnings m |}.

Section ReadTile.

Variable udiv_zero : option Z.
Variable past_block : char_block -> option string.
Variable fs : gmap string (list byte).
Variable jpeg_read_dimensions :
  gmap string (list byte) -> string -> Z -> option (Z * Z).
Variable jpeg_decode_buffer : list byte -> Z -> Z -> Z -> bool.
Variable jp2k_decode_buffer : Z -> Z -> list byte -> Z -> bool.
Variable png_read : gmap string (list byte) -> string -> Z -> Z -> Z -> bool.
Variable gdkpixbuf_read :
  gmap string (list byte) -> string -> Z -> Z -> Z -> Z -> bool.
Variable uninitialized : nat -> byte.
Variable openslide_get_error : openslide_t -> option string.
Variable tile_buffer : Z.

Let read_tile' :=
  read_tile udiv_zero past_block fs jpeg_read_dimensions jpeg_decode_buffer
    jp2k_decode_buffer png_read gdkpixbuf_read uninitialized
    openslide_get_error tile_buffer.

(* the index of the tile in the descriptor array of the level *)
Definition tile_index_of (level_data : level) (tile_col tile_row : Z) : Z :=
  to_signed 64 (tile_row * tiles_across level_data + tile_col).

(* the run of read_tile on a resident tile: the descriptor of the tile is
   read from the array of the level *)
Lemma read_tile_hit_run (osr : openslide_t) (level_ptr : Z)
    (level_data : level) (tile_col tile_row : Z) (m : Cache.mem)
    (value : Cache.ptr) (v : Cache._openslide_cache_value)
    (e : Cache._openslide_cache_entry) :
  Cache.hashtable (Cache.cache m) !! (level_ptr, tile_col, tile_row)
  = Some value ->
  Cache.values m !! value = Some v ->
  Cache.entries m !! Cache.entry v = Some e ->
  0 < Cache.refcount e < gint_max ->
  Cache.data e ≠ 0 ->
  read_tile' osr level_ptr level_data tile_col tile_row m
  = match tile_slot level_data (tile_index_of level_data tile_col tile_row) with
    | Ok _ => Ok (true, level_data, after_hit value m)
    | _ => Undefined
    end.
Proof.
  intros Hk Hv He Hr Hd. unfold read_tile', read_tile, tile_index_of.
  rewrite (CacheProps.get_hit_run m _ _ _ value v e Hk Hv He).
  rewrite decide_False by done.
  destruct (tile_slot level_data _) as [td|?| | |]; try done.
  unfold paint_and_release.
  rewrite (CacheProps.entry_unref_run (Cache.entry v) _ (CacheProps.ref_entry e))
    by (simpl; apply lookup_insert_eq).
  cbn [Cache.entries Cache.cache Cache.values Cache.next Cache.warnings
       CacheProps.touched].
  rewrite (CacheUse.ref_unref_entries _ _ e He Hr).
  reflexivity.
Qed.

(** X19.  A read_tile that reports failure on a tile that is not resident
    has left the cache exactly as it was: whichever step failed (the
    locator, the tile dimensions, or an error stored on the slide handle),
    nothing was inserted, nothing was evicted and no reference is held. *)
Theorem read_tile_failure_leaves_cache (osr : openslide_t) (level_ptr : Z)
    (level_data level' : level) (tile_col tile_row : Z) (m m' : Cache.mem) :
  Cache.hashtable (Cache.cache m) !! (level_ptr, tile_col, tile_row) = None ->
  read_tile' osr level_ptr level_data tile_col tile_row m
  = Ok (false, level', m') ->
  m' = m.
Proof.
  intros Hmiss. unfold read_tile', read_tile.
  rewrite (CacheProps.get_miss_run m _ _ _ Hmiss). rewrite decide_True by done.
  destruct (_get_tile_file_location _ _ _ _ _ _) as [[o s]|msg| | |];
    try discriminate; [|congruence].
  destruct (tile_slot _ _) as [td|?| | |]; try discriminate.
  destruct (_get_tile_dimension _ _ _ _ _ _ _) as [[w h]|msg| | |];
    try discriminate; [|congruence].
  assert (Hput : forall l,
    match Cache._openslide_cache_put level_ptr tile_col tile_row
            (g_slice_alloc tile_buffer (wrap64 (w * h * 4)))
            (wrap64 (w * h * 4)) m with
    | Ok (entry, m0) => paint_and_release l (Some entry) m0
    | Error msg => Error msg
    | Abort => Abort
    | Undefined => Undefined
    | Timeout => Timeout
    end = Ok (false, level', m') -> m' = m).
  { intros l.
    destruct (Cache._openslide_cache_put _ _ _ _ _ _) as [[ep m0]|?| | |];
      try discriminate.
    unfold paint_and_release.
    destruct (Cache._openslide_cache_entry_unref ep m0) as [[? ?]|?| | |];
      discriminate. }
  destruct (_get_tile_data _ _ _ _ _ _ _ _ _ _ _ _) as [?|?| | |];
    try discriminate;
    (destruct (openslide_get_error osr); [congruence|apply Hput]).
Qed.

(** X20.  A cache hit of read_tile reads no file: when the tile is
    resident with a data pointer that is not NULL and an entry count below
    G_MAXINT, and the descriptor array of the level holds the tile,
    read_tile returns true for every file system, codec and slide handle,
    leaves the level as it was, and leaves the cache as it was except that
    the value has moved to the head of the recency list: the reference it
    took on the entry is given back.  On a hit the width and the height
    are still read from the descriptor of the tile: for a level whose
    array does not hold the tile index the behaviour is undefined. *)
Theorem read_tile_hit_reads_no_file (level_ptr tile_col tile_row : Z)
    (m : Cache.mem) (value : Cache.ptr) (v : Cache._openslide_cache_value)
    (e : Cache._openslide_cache_entry) :
  Cache.hashtable (Cache.cache m) !! (level_ptr, tile_col, tile_row)
  = Some value ->
  Cache.values m !! value = Some v ->
  Cache.entries m !! Cache.entry v = Some e ->
  0 < Cache.refcount e < gint_max ->
  Cache.data e ≠ 0 ->
  forall osr level_data,
    read_tile' osr level_ptr level_data tile_col tile_row m
    = match tile_slot level_data
              (to_signed 64 (tile_row * tiles_across level_data + tile_col))
      with
      | Ok _ => Ok (true, level_data, after_hit value m)
      | _ => Undefined
      end.
Proof.
  intros Hk Hv He Hr Hd osr level_data.
  by apply (read_tile_hit_run osr level_ptr level_data tile_col tile_row m
              value v e).
Qed.

End ReadTile.

(* a descriptor that was stored can be read back *)
Lemma tile_slot_store (level_data : level) (tile_index : Z)
    (td x : level_tile_data) :
  tile_slot level_data tile_index = Ok td ->
  tile_slot (store_tile_slot level_data tile_index x) tile_index = Ok x.
Proof.
  unfold tile_slot, store_tile_slot.
  destruct (decide (tile_index < 0)); [done|].
  destruct (tiles level_data !! Z.to_nat tile_index) as [td'|] eqn:Hslot;
    [|done].
  intros _. cbn [tiles set_tiles].
  rewrite list_lookup_insert_eq; [done|].
  by apply lookup_lt_Some in Hslot.
Qed.

(** X21.  A tile that read_tile has put into the cache is served from the
    cache afterwards.  When a read_tile on a tile that is not resident
    returns true and the tile is resident after it, then the level it
    returns holds the descriptor of the tile, and a second read_tile for
    the same tile, on this level or on any level whose descriptor array
    holds the tile, returns true whatever the files, the codecs and the
    slide handle are by then, and changes neither the entries, the values,
    the index nor [total_size] of the cache. *)
Theorem read_tile_second_read_hits (udiv_zero : option Z)
    (past_block : char_block -> option string)
    (fs : gmap string (list byte))
    (jpeg_read_dimensions :
       gmap string (list byte) -> string -> Z -> option (Z * Z))
    (jpeg_decode_buffer : list byte -> Z -> Z -> Z -> bool)
    (jp2k_decode_buffer : Z -> Z -> list byte -> Z -> bool)
    (png_read : gmap string (list byte) -> string -> Z -> Z -> Z -> bool)
    (gdkpixbuf_read :
       gmap string (list byte) -> string -> Z -> Z -> Z -> Z -> bool)
    (uninitialized : nat -> byte)
    (openslide_get_error : openslide_t -> option string)
    (tile_buffer : Z)
    (osr : openslide_t) (level_ptr : Z) (level_data level1 : level)
    (tile_col tile_row : Z) (m m1 : Cache.mem) :
  CacheProps.cache_inv m ->
  tile_buffer ≠ 0 ->
  Cache.hashtable (Cache.cache m) !! (level_ptr, tile_col, tile_row) = None ->
  read_tile udiv_zero past_block fs jpeg_read_dimensions jpeg_decode_buffer
    jp2k_decode_buffer png_read gdkpixbuf_read uninitialized
    openslide_get_error tile_buffer
    osr level_ptr level_data tile_col tile_row m
  = Ok (true, level1, m1) ->
  is_Some (Cache.hashtable (Cache.cache m1) !! (level_ptr, tile_col, tile_row)) ->
  exists m2,
    (exists tile_data,
       tile_slot level1
         (to_signed 64 (tile_row * tiles_across level1 + tile_col))
       = Ok tile_data)
    ∧ (forall udiv_zero' past_block' fs' jpeg_read_dimensions'
              jpeg_decode_buffer' jp2k_decode_buffer' png_read'
              gdkpixbuf_read' uninitialized' openslide_get_error' osr'
              level_data' tile_data',
         tile_slot level_data'
           (to_signed 64 (tile_row * tiles_across level_data' + tile_col))
         = Ok tile_data' ->
         read_tile udiv_zero' past_block' fs' jpeg_read_dimensions'
           jpeg_decode_buffer' jp2k_decode_buffer' png_read' gdkpixbuf_read'
           uninitialized' openslide_get_error' tile_buffer
           osr' level_ptr level_data' tile_col tile_row m1
         = Ok (true, level_data', m2))
    ∧ Cache.entries m2 = Cache.entries m1
    ∧ Cache.values m2 = Cache.values m1
    ∧ Cache.hashtable (Cache.cache m2) = Cache.hashtable (Cache.cache m1)
    ∧ Cache.total_size (Cache.cache m2) = Cache.total_size (Cache.cache m1).
Proof.
  intros Hinv Hbuf Hmiss Hrun Hres.
  set (k := (level_ptr, tile_col, tile_row)) in *.
  (* the first read went through the put, on a level that holds the
     descriptor of the tile *)
  assert (Hput : (exists tile_data,
                    tile_slot level1
                      (to_signed 64 (tile_row * tiles_across level1 + tile_col))
                    = Ok tile_data)
    ∧ exists bs ep m0,
        0 <= bs < 2 ^ 64
        ∧ Cache._openslide_cache_put level_ptr tile_col tile_row
            (g_slice_alloc tile_buffer bs) bs m = Ok (ep, m0)
        ∧ Cache._openslide_cache_entry_unref ep m0 = Ok (tt, m1)).
  { revert Hrun. unfold read_tile.
    rewrite (CacheProps.get_miss_run m _ _ _ Hmiss).
    rewrite decide_True by done.
    set (tile_index := to_signed 64 (tile_row * tiles_across level_data
                                     + tile_col)).
    destruct (_get_tile_file_location _ _ _ _ _ _) as [[o s]|msg| | |];
      try discriminate.
    destruct (tile_slot level_data tile_index) as [td|?| | |] eqn:Hslot;
      try discriminate.
    destruct (_get_tile_dimension _ _ _ _ _ _ _) as [[w h]|msg| | |];
      try discriminate.
    set (l1 := store_tile_slot level_data tile_index
                 {| offset := o; size := s;
                    width := width td; height := height td |}).
    set (l2 := store_tile_slot l1 tile_index
                 {| offset := o; size := s; width := w; height := h |}).
    assert (Hl2 : exists tile_data,
              tile_slot l2 (to_signed 64 (tile_row * tiles_across l2 + tile_col))
              = Ok tile_data).
    { eexists. change (tiles_across l2) with (tiles_across level_data).
      fold tile_index. subst l2.
      apply (tile_slot_store l1 tile_index
               {| offset := o; size := s;
                  width := width td; height := height td |}).
      subst l1. by apply (tile_slot_store level_data tile_index td). }
    assert (Hcont :
      match Cache._openslide_cache_put level_ptr tile_col tile_row
              (g_slice_alloc tile_buffer (wrap64 (w * h * 4)))
              (wrap64 (w * h * 4)) m with
      | Ok (entry, m0) => paint_and_release l2 (Some entry) m0
      | Error msg => Error msg
      | Abort => Abort
      | Undefined => Undefined
      | Timeout => Timeout
      end = Ok (true, level1, m1) ->
      (exists tile_data,
         tile_slot level1
           (to_signed 64 (tile_row * tiles_across level1 + tile_col))
         = Ok tile_data)
      ∧ exists bs ep m0,
          0 <= bs < 2 ^ 64
          ∧ Cache._openslide_cache_put level_ptr tile_col tile_row
              (g_slice_alloc tile_buffer bs) bs m = Ok (ep, m0)
          ∧ Cache._openslide_cache_entry_unref ep m0 = Ok (tt, m1)).
    { destruct (Cache._openslide_cache_put _ _ _ _ _ _) as [[ep m0]|?| | |] eqn:Hp;
        try discriminate.
      unfold paint_and_release.
      destruct (Cache._openslide_cache_entry_unref ep m0) as [[[] m1']|?| | |] eqn:Hu;
        try discriminate.
      intros [= <- <-]. split; [exact Hl2|].
      exists (wrap64 (w * h * 4)), ep, m0.
      split; [unfold wrap64; apply Z.mod_pos_bound; lia|]. by split. }
    destruct (_get_tile_data _ _ _ _ _ _ _ _ _ _ _ _ _) as [?|?| | |];
      try discriminate;
      (destruct (openslide_get_error osr); [discriminate|apply Hcont]). }
  destruct Hput as (Hslot1 & bs & ep & m0 & Hbs & Hp & Hu).
  (* an over-large tile is not resident after the put *)
  destruct (decide (bs > Cache.capacity (Cache.cache m))) as [Hbig|Hfit].
  { exfalso. rewrite (CacheProps.put_overlarge_run m _ _ _ _ _ Hbig) in Hp.
    injection Hp as <- <-.
    rewrite (CacheProps.entry_unref_run (Cache.next m) _
               (CacheProps.new_entry (g_slice_alloc tile_buffer bs) bs)) in Hu
      by (simpl; apply lookup_insert_eq).
    injection Hu as <-. simpl in Hres. fold k in Hres. rewrite Hmiss in Hres.
    by destruct Hres. }
  destruct (CacheProps.put_fits_run m level_ptr tile_col tile_row
              (g_slice_alloc tile_buffer bs) bs Hinv ltac:(lia))
    as [[Hab _]|(Hpos & Hno & _)]; [congruence|].
  destruct (CacheUse.put_fits_residue m level_ptr tile_col tile_row
              (g_slice_alloc tile_buffer bs) bs Hinv ltac:(lia) Hno)
    as (m2 & gone & Hput & _ & _ & _ & _ & He2 & _).
  rewrite Hput in Hp. injection Hp as <- <-.
  set (dp := g_slice_alloc tile_buffer bs) in *.
  set (mi := CacheProps.inserted k (Cache.next m) bs m2) in *.
  assert (Hki : Cache.hashtable (Cache.cache mi) !! k = Some (Cache.next m2)).
  { subst mi. simpl. apply lookup_insert_eq. }
  assert (Hvi : Cache.values mi !! Cache.next m2
                = Some {| Cache.key := k; Cache.entry := Cache.next m |}).
  { subst mi. simpl. apply lookup_insert_eq. }
  assert (Hei : Cache.entries mi !! Cache.next m
                = Some {| Cache.refcount := 2; Cache.data := dp;
                          Cache.size := bs |}).
  { subst mi. unfold CacheProps.inserted. cbn [Cache.entries]. rewrite He2.
    rewrite lookup_insert_eq. reflexivity. }
  change (CacheProps.inserted (level_ptr, tile_col, tile_row)
            (Cache.next m) bs m2) with mi in Hu.
  rewrite (CacheProps.entry_unref_run (Cache.next m) mi _ Hei) in Hu.
  injection Hu as <-.
  assert (He1 : CacheProps.unref_entries (Cache.next m) (Cache.entries mi)
                !! Cache.next m
                = Some {| Cache.refcount := 1; Cache.data := dp;
                          Cache.size := bs |}).
  { unfold CacheProps.unref_entries. rewrite Hei.
    cbn [Cache.refcount Cache.data Cache.size].
    change (g_atomic_int_dec 2) with 1.
    rewrite decide_False by done. apply lookup_insert_eq. }
  assert (Hdp : dp ≠ 0).
  { subst dp. unfold g_slice_alloc. rewrite decide_False by lia. done. }
  eexists. split; [exact Hslot1|]. split.
  - intros udiv_zero' past_block' fs' jrd' jdb' j2k' png' gdk' uninit' err'
      osr' level_data' tile_data' Hslot'.
    rewrite (read_tile_hit_run udiv_zero' past_block' fs' jrd' jdb' j2k' png'
               gdk' uninit' err' tile_buffer osr' level_ptr level_data'
               tile_col tile_row _
               (Cache.next m2) {| Cache.key := k; Cache.entry := Cache.next m |}
               {| Cache.refcount := 1; Cache.data := dp; Cache.size := bs |});
      try done.
    unfold tile_index_of. rewrite Hslot'. reflexivity.
  - done.
Qed.

Lemma read_tile_failure_leaves_cache_witness :
  Cache.hashtable (Cache.cache (Cache.initial_mem Cache.DEFAULT_CACHE_SIZE))
    !! (77, 0, 0) = None
  ∧ read_tile None zero_behind ∅
      (fun _ _ _ => None) (fun _ _ _ _ => false) (fun _ _ _ _ => false)
      (fun _ _ _ _ _ => false) (fun _ _ _ _ _ _ => false)
      (fun _ => byte.of_Z 0) (fun _ => None) 4096
      example_osr 77 example_level 0 0
      (Cache.initial_mem Cache.DEFAULT_CACHE_SIZE)
    = Ok (false, example_level, Cache.initial_mem Cache.DEFAULT_CACHE_SIZE)
  ∧ Cache.initial_mem Cache.DEFAULT_CACHE_SIZE
    = Cache.initial_mem Cache.DEFAULT_CACHE_SIZE.
Proof.
  assert (H1 : Cache.hashtable
                 (Cache.cache (Cache.initial_mem Cache.DEFAULT_CACHE_SIZE))
                 !! (77, 0, 0) = None) by reflexivity.
  assert (H2 : read_tile None zero_behind ∅
      (fun _ _ _ => None) (fun _ _ _ _ => false) (fun _ _ _ _ => false)
      (fun _ _ _ _ _ => false) (fun _ _ _ _ _ _ => false)
      (fun _ => byte.of_Z 0) (fun _ => None) 4096
      example_osr 77 example_level 0 0
      (Cache.initial_mem Cache.DEFAULT_CACHE_SIZE)
    = Ok (false, example_level, Cache.initial_mem Cache.DEFAULT_CACHE_SIZE))
    by (vm_compute; reflexivity).
  split; [exact H1|]. split; [exact H2|].
  exact (read_tile_failure_leaves_cache _ _ _ _ _ _ _ _ _ _ _ _ _ _ _ _ _ _ _
           H1 H2).
Defined.

Lemma read_tile_hit_reads_no_file_witness :
  Cache.hashtable (Cache.cache CacheProps.two_tiles) !! (7, 0, 0)
  = Some 2%positive
  ∧ Cache.values CacheProps.two_tiles !! 2%positive
    = Some {| Cache.key := (7, 0, 0); Cache.entry := 1%positive |}
  ∧ Cache.entries CacheProps.two_tiles !! 1%positive
    = Some {| Cache.refcount := 2; Cache.data := 1000; Cache.size := 10 |}
  ∧ 0 < 2 < gint_max
  ∧ 1000 ≠ 0
  ∧ read_tile None zero_behind ∅
      (fun _ _ _ => None) (fun _ _ _ _ => false) (fun _ _ _ _ => false)
      (fun _ _ _ _ _ => false) (fun _ _ _ _ _ _ => false)
      (fun _ => byte.of_Z 0) (fun _ => None) 4096
      example_osr 7 example_level 0 0 CacheProps.two_tiles
    = Ok (true, example_level, after_hit 2%positive CacheProps.two_tiles)
  ∧ read_tile None zero_behind ∅
      (fun _ _ _ => None) (fun _ _ _ _ => false) (fun _ _ _ _ => false)
      (fun _ _ _ _ _ => false) (fun _ _ _ _ _ _ => false)
      (fun _ => byte.of_Z 0) (fun _ => None) 4096
      example_osr 7 (set_tiles [] example_level) 0 0 CacheProps.two_tiles
    = Undefined.
Proof.
  assert (H1 : Cache.hashtable (Cache.cache CacheProps.two_tiles) !! (7, 0, 0)
               = Some 2%positive) by reflexivity.
  assert (H2 : Cache.values CacheProps.two_tiles !! 2%positive
               = Some {| Cache.key := (7, 0, 0); Cache.entry := 1%positive |})
    by reflexivity.
  assert (H3 : Cache.entries CacheProps.two_tiles !! 1%positive
               = Some {| Cache.refcount := 2; Cache.data := 1000;
                         Cache.size := 10 |}) by reflexivity.
  assert (H4 : 0 < 2 < gint_max) by (unfold gint_max; lia).
  assert (H5 : 1000 ≠ 0) by lia.
  split; [exact H1|]. split; [exact H2|]. split; [exact H3|].
  split; [exact H4|]. split; [exact H5|].
  pose proof (read_tile_hit_reads_no_file None zero_behind ∅
           (fun _ _ _ => None) (fun _ _ _ _ => false) (fun _ _ _ _ => false)
           (fun _ _ _ _ _ => false) (fun _ _ _ _ _ _ => false)
           (fun _ => byte.of_Z 0) (fun _ => None) 4096
           7 0 0 CacheProps.two_tiles 2%positive
           {| Cache.key := (7, 0, 0); Cache.entry := 1%positive |}
           {| Cache.refcount := 2; Cache.data := 1000; Cache.size := 10 |}
           H1 H2 H3 H4 H5) as Hhit.
  split.
  - rewrite (Hhit example_osr example_level). reflexivity.
  - rewrite (Hhit example_osr (set_tiles [] example_level)). reflexivity.
Defined.

(* the level and the cache after the first read of the example slide *)
Definition example_after_first_read : level * Cache.mem :=
  match example_read_tile 4 with
  | Ok (_, level1, m1) => (level1, m1)
  | _ => (example_level, Cache.initial_mem Cache.DEFAULT_CACHE_SIZE)
  end.

Lemma read_tile_second_read_hits_witness :
  CacheProps.cache_inv (Cache.initial_mem Cache.DEFAULT_CACHE_SIZE)
  ∧ 4096 ≠ 0
  ∧ Cache.hashtable (Cache.cache (Cache.initial_mem Cache.DEFAULT_CACHE_SIZE))
      !! (77, 0, 0) = None
  ∧ example_read_tile 4
    = Ok (true, example_after_first_read.1, example_after_first_read.2)
  ∧ is_Some (Cache.hashtable (Cache.cache example_after_first_read.2)
               !! (77, 0, 0))
  ∧ exists m2,
      read_tile None zero_behind ∅
        (fun _ _ _ => None) (fun _ _ _ _ => false) (fun _ _ _ _ => false)
        (fun _ _ _ _ _ => false) (fun _ _ _ _ _ _ => false)
        (fun _ => byte.of_Z 0) (fun _ => Some "stored error") 4096
        example_osr 77 example_level 0 0 example_after_first_read.2
      = Ok (true, example_level, m2)
      ∧ Cache.total_size (Cache.cache m2) = 16.
Proof.
  assert (H1 : CacheProps.cache_inv
                 (Cache.initial_mem Cache.DEFAULT_CACHE_SIZE)).
  { apply CacheProps.initial_inv. unfold Cache.DEFAULT_CACHE_SIZE. lia. }
  assert (H2 : 4096 ≠ 0) by lia.
  assert (H3 : Cache.hashtable
                 (Cache.cache (Cache.initial_mem Cache.DEFAULT_CACHE_SIZE))
                 !! (77, 0, 0) = None) by reflexivity.
  assert (H4 : example_read_tile 4
               = Ok (true, example_after_first_read.1,
                     example_after_first_read.2))
    by (vm_compute; reflexivity).
  assert (H5 : is_Some (Cache.hashtable
                          (Cache.cache example_after_first_read.2)
                          !! (77, 0, 0)))
    by (vm_compute; by eexists).
  split; [exact H1|]. split; [exact H2|]. split; [exact H3|].
  split; [exact H4|]. split; [exact H5|].
  destruct (read_tile_second_read_hits _ _ _ _ _ _ _ _ _ _ _ _ _ _ _ _ _ _ _
              H1 H2 H3 H4 H5) as (m2 & _ & Hhit & _ & _ & _ & Htot).
  exists m2. split.
  - apply (Hhit _ _ _ _ _ _ _ _ _ _ _ _
             {| offset := 0; size := 0; width := 0; height := 0 |}).
    reflexivity.
  - rewrite Htot. vm_compute. reflexivity.
Defined.

End VsfTiles.

(** * The XML search helpers of the VSF backend *)

Module VsfXml.

(* xmlNs, with the field this file reads *)
Record xmlNs := { prefix : option string }.

(* xmlNode, with the fields this file reads: [type], [name], [ns] and the
   list of children that [children] and the [next] links of the children
   form *)
#[warnings="-register-all"] Inductive xmlNode : Type :=
  XmlNode (type : Z) (name : option string) (ns : option xmlNs)
          (children : list xmlNode).

Definition XML_ELEMENT_NODE : Z := 1.

(* xmlStrcmp of libxml2: 0 for two NULLs, -1 when only the first is NULL,
   1 when only the second is; otherwise the sign of the first difference
   (the callers only compare the result with 0) *)
Definition xmlStrcmp (str1 str2 : option string) : Z :=
  match str1, str2 with
  | None, None => 0
  | None, Some _ => -1
  | Some _, None => 1
  | Some a, Some b =>
      match String.compare a b with
      | Eq => 0
      | Lt => -1
      | Gt => 1
      end
  end.

(* the test both searches apply to a node *)
Definition node_matches (name : string) (ns : option string)
    (element_name : option string) (rns : option xmlNs) : bool :=
  let element_namespace :=
    match rns with
    | Some n => prefix n   (* root->ns != NULL && root->ns->prefix != NULL *)
    | None => None
    end in
  bool_decide (xmlStrcmp (Some name) element_name = 0)
  && (bool_decide (ns = None)
      || bool_decide (xmlStrcmp ns element_namespace = 0)).

(* _find_node_with_name; the node found stands for the pointer to it *)
Fixpoint _find_node_with_name (name : string) (ns : option string)
    (root : xmlNode) : option xmlNode :=
  match root with
  | XmlNode type element_name rns children =>
      (* You are only allowed to search element nodes *)
      if decide (type ≠ XML_ELEMENT_NODE) then None
      else if node_matches name ns element_name rns then Some root
      else
        (* Search children *)
        (fix search (child : list xmlNode) : option xmlNode :=
           match child with
           | [] => None   (* Nothing found *)
           | c :: next =>
               match _find_node_with_name name ns c with
               | Some result => Some result
               | None => search next
               end
           end) children
  end.

(* _find_nodes_with_name; [result] is the GPtrArray, g_ptr_array_add
   appends *)
Fixpoint _find_nodes_with_name (name : string) (ns : option string)
    (root : xmlNode) (result : list xmlNode) : list xmlNode :=
  match root with
  | XmlNode type element_name rns children =>
      if decide (type ≠ XML_ELEMENT_NODE) then result
      else
        let result :=
          if node_matches name ns element_name rns then result ++ [root]
          else result in
        (fix search (child : list xmlNode) (result : list xmlNode)
           : list xmlNode :=
           match child with
           | [] => result
           | c :: next => search next (_find_nodes_with_name name ns c result)
           end) children result
  end.

(* the two loops over the children *)
Fixpoint search_first (name : string) (ns : option string)
    (child : list xmlNode) : option xmlNode :=
  match child with
  | [] => None
  | c :: next =>
      match _find_node_with_name name ns c with
      | Some result => Some result
      | None => search_first name ns next
      end
  end.

Fixpoint search_all (name : string) (ns : option string)
    (child : list xmlNode) (result : list xmlNode) : list xmlNode :=
  match child with
  | [] => result
  | c :: next =>
      search_all name ns next (_find_nodes_with_name name ns c result)
  end.

Lemma find_node_unfold (name : string) (ns : option string) (type : Z)
    (element_name : option string) (rns : option xmlNs)
    (children : list xmlNode) :
  _find_node_with_name name ns (XmlNode type element_name rns children)
  = if decide (type ≠ XML_ELEMENT_NODE) then None
    else if node_matches name ns element_name rns
    then Some (XmlNode type element_name rns children)
    else search_first name ns children.
Proof.
  cbn [_find_node_with_name].
  destruct (decide _); [done|]. destruct (node_matches _ _ _ _); [done|].
  induction children as [|c cs IH]; [done|].
  cbn [search_first]. by rewrite IH.
Qed.

Lemma find_nodes_unfold (name : string) (ns : option string) (type : Z)
    (element_name : option string) (rns : option xmlNs)
    (children result : list xmlNode) :
  _find_nodes_with_name name ns (XmlNode type element_name rns children) result
  = if decide (type ≠ XML_ELEMENT_NODE) then result
    else search_all name ns children
           (if node_matches name ns element_name rns
            then result ++ [XmlNode type element_name rns children]
            else result).
Proof.
  cbn [_find_nodes_with_name].
  destruct (decide _); [done|].
  generalize (if node_matches name ns element_name rns
              then result ++ [XmlNode type element_name rns children]
              else result).
  induction children as [|c cs IH]; [done|].
  intros acc. cbn [search_all]. by rewrite IH.
Qed.

Lemma xmlNode_children_ind (P : xmlNode -> Prop) :
  (forall type name ns children,
     Forall P children -> P (XmlNode type name ns children)) ->
  forall root, P root.
Proof.
  intros Hnode. fix IH 1. intros [type name ns children].
  apply Hnode. induction children as [|c cs IHcs]; constructor.
  - apply IH.
  - exact IHcs.
Qed.

(* the all-nodes search only appends, and what it appends starts with
   what the single-node search finds *)
Lemma find_nodes_appends (name : string) (ns : option string)
    (root : xmlNode) :
  exists found,
    (forall result,
       _find_nodes_with_name name ns root result = result ++ found)
    ∧ _find_node_with_name name ns root = head found.
Proof.
  induction root as [type element_name rns children IH]
    using xmlNode_children_ind.
  assert (Hkids : exists found,
    (forall result, search_all name ns children result = result ++ found)
    ∧ search_first name ns children = head found).
  { induction IH as [|c cs (fc & Hc & Hfc) _ (fcs & Hcs & Hfcs)].
    - exists []. split; [|done]. intros result. by rewrite app_nil_r.
    - exists (fc ++ fcs). split.
      + intros result. cbn [search_all]. by rewrite Hc, Hcs, app_assoc.
      + cbn [search_first]. rewrite Hfc, Hfcs. by destruct fc. }
  destruct Hkids as (fk & Hk & Hfk).
  destruct (decide (type ≠ XML_ELEMENT_NODE)) as [Hty|Hty].
  - exists []. split.
    + intros result. rewrite find_nodes_unfold, decide_True by done.
      by rewrite app_nil_r.
    + by rewrite find_node_unfold, decide_True.
  - destruct (node_matches name ns element_name rns) eqn:Hm.
    + exists (XmlNode type element_name rns children :: fk). split.
      * intros result. rewrite find_nodes_unfold, decide_False, Hm by done.
        by rewrite Hk, <- app_assoc.
      * by rewrite find_node_unfold, decide_False, Hm.
    + exists fk. split.
      * intros result. by rewrite find_nodes_unfold, decide_False, Hm.
      * by rewrite find_node_unfold, decide_False, Hm.
Qed.

(** X22.  The two XML searches agree: [_find_node_with_name] returns the
    first node that [_find_nodes_with_name] adds to an empty array, and
    NULL exactly when that search adds none; and [_find_nodes_with_name]
    only appends to the array it is given, the same nodes whatever the
    array holds. *)
Theorem find_node_is_first_of_find_nodes (name : string) (ns : option string)
    (root : xmlNode) (result : list xmlNode) :
  _find_node_with_name name ns root
  = head (_find_nodes_with_name name ns root [])
  ∧ _find_nodes_with_name name ns root result
    = result ++ _find_nodes_with_name name ns root [].
Proof.
  destruct (find_nodes_appends name ns root) as (found & Happ & Hhead).
  rewrite (Happ []), (Happ result), Hhead. done.
Qed.

End VsfXml.
